(** * Sirikata TCPSST: the logical-stream handle (TCPStream.cpp) and the
      reactor singleton (IOServiceFactory.cpp)

    A shallow embedding of [TCPStream::send], [TCPStream::closeSendStatus],
    [TCPStream::close], [TCPStream::cloneFrom] and of
    [IOServiceFactory::singletonIOService], followed by the properties of
    the specification that concern them.

    Integers of the C++ code are [Z] with the 32-bit wrap-around written
    out; byte buffers are [list byte]; objects that the code shares through
    pointers (the atomic send-status word, heap chunks, the multiplexed
    socket) live in stores indexed by location. *)

From Stdlib Require Import ZArith Lia.
From stdpp Require Import base numbers option list gmap strings pretty.

Local Open Scope Z_scope.

(** ** Machine integers *)

Module Int32.
(** [int]: two's complement on 32 bits. *)
Definition wrap (z : Z) : Z := (z + 2 ^ 31) mod 2 ^ 32 - 2 ^ 31.
(** Conversion [int] to [unsigned int]. *)
Definition to_unsigned (z : Z) : Z := z mod 2 ^ 32.
Definition in_range (z : Z) : Prop := - 2 ^ 31 <= z < 2 ^ 31.
End Int32.

(** ** The send-status protocol on one word

    The tests and updates that [send] (lines 92-98) and [closeSendStatus]
    (lines 107-117) perform on the [AtomicValue<int>].  The constant
    [SendStatusClosing] is declared in TCPDefinitions.hpp and is a
    parameter here. *)

Module SendStatus.
Section Word.
Variable SendStatusClosing : Z.

(** [++ *mSendStatus]: the new value is stored and returned. *)
Definition pre_increment (w : Z) : Z := Int32.wrap (w + 1).
(** [-- *mSendStatus]. *)
Definition pre_decrement (w : Z) : Z := Int32.wrap (w - 1).
(** [vSendStatus+=SendStatusClosing]. *)
Definition add_closing (w : Z) : Z := Int32.wrap (w + SendStatusClosing).

(** Line 93: [(sendStatus&(3*SendStatusClosing))==0] on
    [unsigned int sendStatus]. *)
Definition sender_may_write (sendStatus : Z) : bool :=
  Z.land (Int32.to_unsigned sendStatus)
         (Int32.to_unsigned (3 * SendStatusClosing)) =? 0.

(** Line 109: [(sendStatus&(SendStatusClosing*3))==0] on [int sendStatus]. *)
Definition no_closer_seen (sendStatus : Z) : bool :=
  Z.land sendStatus (SendStatusClosing * 3) =? 0.

(** Lines 115-117: the spin-wait continues while this is [true]. *)
Definition keep_spinning (sendStatus : Z) : bool :=
  negb (sendStatus =? SendStatusClosing)
  && negb (sendStatus =? 2 * SendStatusClosing)
  && negb (sendStatus =? 3 * SendStatusClosing).
End Word.
End SendStatus.

(** ** Data model *)

Abbreviation loc := nat (only parsing).

(** [Chunk]: an owned contiguous byte buffer ([std::vector<uint8>]). *)
Abbreviation byte := Init.Byte.byte (only parsing).
Abbreviation Chunk := (list Init.Byte.byte) (only parsing).

(** Modelled from the spec: StreamID (Stream.hpp is not part of the
    sources) is a non-negative integer; [read()] yields that integer. *)
Definition StreamID : Type := N.
Definition StreamID_read (sid : StreamID) : N := sid.

Inductive StreamReliability : Type :=
  | Unreliable
  | ReliableUnordered
  | ReliableOrdered.

(** [MultiplexedSocket::RawRequest]; [data] is a [Chunk*]. *)
Record RawRequest : Type := mkRawRequest {
  originStream : StreamID;
  unordered : bool;
  unreliable : bool;
  data : loc
}.

(** [TCPSetCallbacks.hpp]'s [Callbacks]: the two user callbacks (opaque
    handles) and the shared send-status word. *)
Record Callbacks : Type := mkCallbacks {
  mConnectionCallback : nat;
  mBytesReceivedCallback : nat;
  cbSendStatus : loc
}.

Inductive SocketState : Type :=
  | Unconnected | Connecting | Connected | Draining | Disconnected.

Inductive ControlFrame : Type :=
  | NEW_STREAM (sid : StreamID)
  | CLOSE_STREAM (sid : StreamID)
  | ACK_CLOSE (sid : StreamID).

(** Modelled from the spec: MultiplexedSocket (MultiplexedSocket.cpp is not
    part of the sources).  It holds the lifecycle state, the mapping
    StreamID to CallbackSet, the counter [next_local_stream_id], the
    requests handed to [sendBytes] and the control frames it was asked to
    emit. *)
Record MultiplexedSocket : Type := mkSocket {
  mState : SocketState;
  mCallbacks : gmap N Callbacks;
  mNextStreamID : N;
  mPending : list RawRequest;
  mControl : list ControlFrame
}.

Inductive CallbackStatus : Type := CB_OK | CB_DISCONNECTED.

Record TCPStream : Type := mkTCPStream {
  mSocket : option loc;       (* shared_ptr<MultiplexedSocket>, None = null *)
  mID : StreamID;
  mSendStatus : loc           (* AtomicValue<int>* *)
}.

(** The polymorphic [Stream] interface: a TCPStream or a stream of another
    transport family. *)
Inductive Stream : Type :=
  | AsTCPStream (s : TCPStream)
  | OtherFamily (tag : nat).

Record LogEntry : Type := mkLog {
  logTag : string;
  logLevel : string;
  logMessage : string
}.

(** Everything the methods reach through pointers. *)
Record World : Type := mkWorld {
  atomics : gmap nat Z;
  chunks : gmap nat (list byte);
  sockets : gmap nat MultiplexedSocket;
  silog : list LogEntry
}.

Definition set_atomics (f : gmap nat Z → gmap nat Z) (w : World) : World :=
  mkWorld (f (atomics w)) (chunks w) (sockets w) (silog w).
Definition set_chunks (f : gmap nat (list byte) → gmap nat (list byte))
    (w : World) : World :=
  mkWorld (atomics w) (f (chunks w)) (sockets w) (silog w).
Definition set_sockets
    (f : gmap nat MultiplexedSocket → gmap nat MultiplexedSocket)
    (w : World) : World :=
  mkWorld (atomics w) (chunks w) (f (sockets w)) (silog w).
Definition set_silog (f : list LogEntry → list LogEntry) (w : World) : World :=
  mkWorld (atomics w) (chunks w) (sockets w) (f (silog w)).

(** Two worlds that differ at most in their chunks. *)
Definition same_but_chunks (w w' : World) : Prop :=
  atomics w' = atomics w ∧ sockets w' = sockets w ∧ silog w' = silog w.

(** ** Outcomes of a method call *)

Inductive Fault : Type :=
  | AssertionFailed      (* an [assert] of the source does not hold *)
  | NullDereference      (* a null pointer is dereferenced *)
  | BadPointer           (* a pointer to an object that is not in the store *)
  | BufferOverrun        (* [memcpy] outside of a buffer *)
  | StreamIdExhausted.   (* the fatal protocol error of the id counter *)

Inductive Outcome (A : Type) : Type :=
  | Returns (a : A) (w : World)
  | Faults (f : Fault)
  | Spins.               (* a spin-wait that has not finished *)
Arguments Returns {A} a w.
Arguments Faults {A} f.
Arguments Spins {A}.

Definition M (A : Type) : Type := World → Outcome A.

#[global] Instance M_ret : MRet M := λ A a w, Returns a w.
#[global] Instance M_bind : MBind M := λ A B k m w,
  match m w with
  | Returns a w' => k a w'
  | Faults f => Faults f
  | Spins => Spins
  end.

Definition fault {A} (f : Fault) : M A := λ _, Faults f.
Definition assert (b : bool) : M unit :=
  if b then mret tt else fault AssertionFailed.

(** ** Primitive operations on the stores *)

(** [AtomicValue<int>::read]. *)
Definition atomic_read (a : loc) : M Z := λ w,
  match atomics w !! a with
  | Some v => Returns v w
  | None => Faults BadPointer
  end.

(** An atomic read-modify-write; the new value is returned. *)
Definition atomic_update (f : Z → Z) (a : loc) : M Z := λ w,
  match atomics w !! a with
  | Some v => Returns (f v) (set_atomics <[a := f v]> w)
  | None => Faults BadPointer
  end.

(** [new Chunk(n)]: a fresh vector of [n] zero bytes. *)
Definition new_Chunk (n : nat) : M loc := λ w,
  let p := fresh (dom (chunks w)) in
  Returns p (set_chunks <[p := replicate n Byte.x00]> w).

(** [delete p]. *)
Definition delete_Chunk (p : loc) : M unit := λ w,
  match chunks w !! p with
  | Some _ => Returns tt (set_chunks (delete p) w)
  | None => Faults BadPointer
  end.

(** [std::memcpy(&buf[off], src, n)] on a buffer. *)
Definition memcpy_at (buf : list byte) (off : nat) (src : list byte) (n : nat)
    : option (list byte) :=
  if decide (n ≤ length src ∧ off + n ≤ length buf)%nat
  then Some (take off buf ++ take n src ++ drop (off + n) buf)
  else None.

Definition memcpy (p : loc) (off : nat) (src : list byte) (n : nat) : M unit :=
  λ w,
  match chunks w !! p with
  | None => Faults BadPointer
  | Some buf =>
      match memcpy_at buf off src n with
      | Some buf' => Returns tt (set_chunks <[p := buf']> w)
      | None => Faults BufferOverrun
      end
  end.

(** [SILOG(tag,level,message)]: the logging collaborator records the
    entry. *)
Definition SILOG (tag level : string) (message : string) : M unit := λ w,
  Returns tt (set_silog (λ l, l ++ [mkLog tag level message]) w).

(** Dereferencing a [shared_ptr<MultiplexedSocket>]. *)
Definition deref_socket (s : option loc) : M (loc * MultiplexedSocket) := λ w,
  match s with
  | None => Faults NullDereference
  | Some l =>
      match sockets w !! l with
      | Some sock => Returns (l, sock) w
      | None => Faults BadPointer
      end
  end.

Definition store_socket (l : loc) (sock : MultiplexedSocket) : M unit := λ w,
  Returns tt (set_sockets <[l := sock]> w).

(** ** The multiplexed socket, as far as the stream handle uses it *)

Module MultiplexedSocketModel.

(** Modelled from the spec: [add_callbacks(sid, cbs)] installs the callback
    set, a NULL value meaning delete, and returns DISCONNECTED if the socket
    is not Connected, otherwise OK.  (The dispatch of connected events to
    registrants is left out.) *)
Definition addCallbacks (s : option loc) (sid : StreamID)
    (cb : option Callbacks) : M CallbackStatus :=
  '(l, sock) ← deref_socket s;
  let table := match cb with
               | Some c => <[sid := c]> (mCallbacks sock)
               | None => delete sid (mCallbacks sock)
               end in
  store_socket l (mkSocket (mState sock) table (mNextStreamID sock)
                           (mPending sock) (mControl sock));;
  mret (match mState sock with Connected => CB_OK | _ => CB_DISCONNECTED end).

(** Modelled from the spec: [new_id()] returns [next_local_stream_id], then
    increments it by 2; wraparound is the fatal protocol error
    StreamIdExhausted.  The spec does not give the width of the counter:
    [StreamID_limit] is the number of values of its type, and the increment
    wraps when [next_local_stream_id + 2] is not below it. *)
Definition getNewID (StreamID_limit : N) (s : option loc) : M StreamID :=
  '(l, sock) ← deref_socket s;
  if decide (mNextStreamID sock + 2 < StreamID_limit)%N
  then
    store_socket l (mkSocket (mState sock) (mCallbacks sock)
                             (mNextStreamID sock + 2)%N
                             (mPending sock) (mControl sock));;
    mret (mNextStreamID sock)
  else fault StreamIdExhausted.

(** Modelled from the spec: [send_bytes(request)] takes the request over
    for one of the sub-connections; the requests received are recorded in
    order.  (Which sub-connection is picked, and the high-water drop of
    unreliable requests, are left out.) *)
Definition sendBytes (s : option loc) (req : RawRequest) : M unit :=
  '(l, sock) ← deref_socket s;
  store_socket l (mkSocket (mState sock) (mCallbacks sock)
                           (mNextStreamID sock)
                           (mPending sock ++ [req]) (mControl sock)).

(** Modelled from the spec: [closeStream] makes the socket emit the
    CLOSE_STREAM control frame for the stream. *)
Definition closeStream (s : option loc) (sid : StreamID) : M unit :=
  '(l, sock) ← deref_socket s;
  store_socket l (mkSocket (mState sock) (mCallbacks sock)
                           (mNextStreamID sock)
                           (mPending sock) (mControl sock ++ [CLOSE_STREAM sid])).

End MultiplexedSocketModel.

(** ** TCPStream.cpp *)

Module TCPStreamModel.
Import MultiplexedSocketModel.

(** Modelled from the spec: [StreamID::MAX_SERIALIZED_LENGTH] is 9 bytes and
    [uint30::MAX_SERIALIZED_LENGTH] is 5 bytes (TCPDefinitions.hpp is not part
    of the sources). *)
Definition StreamID_MAX_SERIALIZED_LENGTH : nat := 9.
Definition uint30_MAX_SERIALIZED_LENGTH : nat := 5.

(** A call [x.serialize(destination,maxsize)] on a local array of [maxsize]
    bytes, for a value whose serialization is [bytes]: it returns the length
    needed, and the array holds the bytes when they fit. *)
Definition serialize_into (bytes : list byte) (maxsize : nat)
    : list byte * nat :=
  (if decide (length bytes ≤ maxsize)%nat
   then bytes ++ replicate (maxsize - length bytes) Byte.x00
   else replicate maxsize Byte.x00,
   length bytes).

Definition getID (this : TCPStream) : StreamID := mID this.

(** Lines 53-66: the pair [(unordered, unreliable)] of the request. *)
Definition reliability_flags (reliability : StreamReliability) : bool * bool :=
  match reliability with
  | Unreliable => (true, true)
  | ReliableOrdered => (false, false)
  | ReliableUnordered => (true, false)
  end.

Section Methods.
(** Declared in TCPDefinitions.hpp, which is not part of the sources. *)
Variable SendStatusClosing : Z.
(** The bytes [StreamID::serialize] produces for a stream id. *)
Variable StreamID_serialize : StreamID → list byte.
(** The bytes [uint30(n).serialize] produces for a size [n]. *)
Variable uint30_serialize : Z → list byte.
(** The number of values of the socket's stream-id counter (MultiplexedSocket
    is not part of the sources). *)
Variable StreamID_limit : N.

(** Lines 51-89 of [TCPStream::send]: the request and its encoded chunk. *)
Definition send_encode (this : TCPStream) (data : list byte)
    (reliability : StreamReliability) : M RawRequest :=
  let '(unordered, unreliable) := reliability_flags reliability in
  let originStream := getID this in
  let '(serializedStreamId, successLengthNeeded) :=
    serialize_into (StreamID_serialize originStream)
                   StreamID_MAX_SERIALIZED_LENGTH in
  assert (bool_decide
            (successLengthNeeded ≤ StreamID_MAX_SERIALIZED_LENGTH)%nat);;
  let streamIdLength := successLengthNeeded in
  let totalSize := (length data + streamIdLength)%nat in
  let '(packetLengthSerialized, packetHeaderLength) :=
    serialize_into (uint30_serialize (Z.of_nat totalSize))
                   uint30_MAX_SERIALIZED_LENGTH in
  outputBuffer ← new_Chunk (totalSize + packetHeaderLength);
  memcpy outputBuffer 0 packetLengthSerialized packetHeaderLength;;
  memcpy outputBuffer packetHeaderLength serializedStreamId streamIdLength;;
  (if bool_decide (length data ≠ 0%nat)
   then memcpy outputBuffer (packetHeaderLength + streamIdLength)
               data (length data)
   else mret tt);;
  mret (mkRawRequest originStream unordered unreliable outputBuffer).

(** Lines 90-103 of [TCPStream::send]; the value of [didsend] is
    returned. *)
Definition send_coordinate (this : TCPStream) (toBeSent : RawRequest)
    : M bool :=
  sendStatus ← atomic_update SendStatus.pre_increment (mSendStatus this);
  didsend ←
    (if SendStatus.sender_may_write SendStatusClosing sendStatus
     then sendBytes (mSocket this) toBeSent;; mret true
     else mret false);
  atomic_update SendStatus.pre_decrement (mSendStatus this);;
  (if negb didsend
   then delete_Chunk (data toBeSent);;
        SILOG "tcpsst" "debug"
              ("printing to closed stream id "
                 +:+ pretty (StreamID_read (getID this)))
   else mret tt);;
  mret didsend.

(** [TCPStream::send]. *)
Definition send (this : TCPStream) (data : list byte)
    (reliability : StreamReliability) : M unit :=
  toBeSent ← send_encode this data reliability;
  send_coordinate this toBeSent;;
  mret tt.

(** The loop of lines 115-119; [fuel] bounds the number of reads. *)
Fixpoint spin_wait (fuel : nat) (vSendStatus : loc) : M unit :=
  match fuel with
  | O => λ _, Spins
  | S fuel' =>
      sendStatus ← atomic_read vSendStatus;
      if SendStatus.keep_spinning SendStatusClosing sendStatus
      then spin_wait fuel' vSendStatus
      else mret tt
  end.

(** [TCPStream::closeSendStatus]; the value of [incd] is returned. *)
Definition closeSendStatus (fuel : nat) (vSendStatus : loc) : M bool :=
  sendStatus ← atomic_read vSendStatus;
  incd ←
    (if SendStatus.no_closer_seen SendStatusClosing sendStatus
     then atomic_update (SendStatus.add_closing SendStatusClosing)
                        vSendStatus;;
          mret true
     else mret false);
  spin_wait fuel vSendStatus;;
  mret incd.

(** [TCPStream::close], lines 123, 125 and 127, for any implementation of
    the two calls it makes on the socket ([mSocket->addCallbacks] and
    [MultiplexedSocket::closeStream]; MultiplexedSocket.cpp is not part of
    the sources). *)
Definition close_on
    (socket_addCallbacks :
       option loc → StreamID → option Callbacks → M CallbackStatus)
    (socket_closeStream : option loc → StreamID → M unit)
    (fuel : nat) (this : TCPStream) : M unit :=
  closeSendStatus fuel (mSendStatus this);;
  socket_addCallbacks (mSocket this) (getID this) None;;
  socket_closeStream (mSocket this) (getID this).

(** [dynamic_cast<TCPStream*>(otherStream)]. *)
Definition dynamic_cast_TCPStream (otherStream : option Stream)
    : option TCPStream :=
  match otherStream with
  | Some (AsTCPStream s) => Some s
  | _ => None
  end.

(** [TCPStream::cloneFrom]; the stream object after the call is returned
    with the result. *)
Definition cloneFrom (this : TCPStream) (otherStream : option Stream)
    (connectionCallback bytesReceivedCallback : nat)
    : M (bool * TCPStream) :=
  match dynamic_cast_TCPStream otherStream with
  | None => mret (false, this)
  | Some toBeCloned =>
      let this1 := mkTCPStream (mSocket toBeCloned) (mID this)
                               (mSendStatus this) in
      match mSocket this1 with
      | None => mret (false, this1)
      | Some _ =>
          newID ← getNewID StreamID_limit (mSocket this1);
          let this2 := mkTCPStream (mSocket this1) newID
                                   (mSendStatus this1) in
          status ← addCallbacks (mSocket this2) newID
                     (Some (mkCallbacks connectionCallback
                                        bytesReceivedCallback
                                        (mSendStatus this2)));
          mret (match status with
                | CB_DISCONNECTED => false
                | CB_OK => true
                end, this2)
      end
  end.
End Methods.

(** [TCPStream::close] on the socket as the spec describes it. *)
Abbreviation close SendStatusClosing :=
  (close_on SendStatusClosing MultiplexedSocketModel.addCallbacks
            MultiplexedSocketModel.closeStream).

(** The frame of the wire format for a payload on a stream: the uint30
    length prefix of the stream id's and the payload's sizes, the stream id,
    the payload. *)
Definition wire_frame (StreamID_serialize : StreamID → list byte)
    (uint30_serialize : Z → list byte) (sid : StreamID) (payload : list byte)
    : list byte :=
  uint30_serialize
    (Z.of_nat (length payload) + Z.of_nat (length (StreamID_serialize sid)))
  ++ StreamID_serialize sid ++ payload.

(** The log entry of line 102. *)
Definition closed_stream_entry (this : TCPStream) : LogEntry :=
  mkLog "tcpsst" "debug"
        ("printing to closed stream id " +:+ pretty (StreamID_read (getID this))).

(** The socket after it was handed one more request. *)
Definition with_request (sock : MultiplexedSocket) (req : RawRequest)
    : MultiplexedSocket :=
  mkSocket (mState sock) (mCallbacks sock) (mNextStreamID sock)
           (mPending sock ++ [req]) (mControl sock).

(** The socket after the callbacks of a stream were removed, and after it
    was asked to emit a control frame. *)
Definition without_callbacks (sock : MultiplexedSocket) (sid : StreamID)
    : MultiplexedSocket :=
  mkSocket (mState sock) (delete sid (mCallbacks sock)) (mNextStreamID sock)
           (mPending sock) (mControl sock).
Definition with_control (sock : MultiplexedSocket) (frame : ControlFrame)
    : MultiplexedSocket :=
  mkSocket (mState sock) (mCallbacks sock) (mNextStreamID sock)
           (mPending sock) (mControl sock ++ [frame]).

(** The socket after [getNewID] and the installation of callbacks under the
    id it handed out. *)
Definition with_clone (sock : MultiplexedSocket) (cb : Callbacks)
    : MultiplexedSocket :=
  mkSocket (mState sock) (<[mNextStreamID sock := cb]> (mCallbacks sock))
           (mNextStreamID sock + 2)%N (mPending sock) (mControl sock).

(** A socket that writes down each call it receives before it performs it:
    the two calls of [close] with the log as their record. *)
Definition recording_addCallbacks (s : option loc) (sid : StreamID)
    (cb : option Callbacks) : M CallbackStatus :=
  SILOG "socket" "call" "addCallbacks";;
  MultiplexedSocketModel.addCallbacks s sid cb.
Definition recording_closeStream (s : option loc) (sid : StreamID) : M unit :=
  SILOG "socket" "call" "closeStream";;
  MultiplexedSocketModel.closeStream s sid.

(** The value the word holds when the spin-wait ends: only closers, no
    sender. *)
Definition closers_only (SendStatusClosing v : Z) : Prop :=
  v = SendStatusClosing ∨ v = 2 * SendStatusClosing
  ∨ v = 3 * SendStatusClosing.
End TCPStreamModel.

(** ** Concurrent callers on one send-status word

    [send] and [closeSendStatus] as threads that interleave at the atomic
    operations on the shared word.  A sender is at one of the lines 92, 93,
    98, 99 of TCPStream.cpp or has returned; a closer is at line 107, 109,
    115 or has returned.  The locals are those of the source. *)

Module Interleaving.

Inductive SenderPC : Type := L92 | L93 | L98 | L99 | SendDone.
Inductive CloserPC : Type := L107 | L109 | L115 | CloseDone.

Record Sender : Type := mkSender {
    spc : SenderPC;
    s_sendStatus : Z;
    didsend : bool
  }.

Record Closer : Type := mkCloser {
    cpc : CloserPC;
    c_sendStatus : Z;
    incd : bool
  }.

Inductive Thread : Type :=
  | SendCall (s : Sender)
  | CloseCall (c : Closer).

(** The word, and the calls of [MultiplexedSocket::sendBytes] and the
    chunks deleted so far, each named by the index of its thread. *)
Record Shared : Type := mkShared {
    word : Z;
    handed : list nat;
    deleted : list nat
  }.

Record Config : Type := mkConfig {
    threads : list Thread;
    shared : Shared
  }.

Section Steps.
Variable SendStatusClosing : Z.

Definition sender_step (tid : nat) (s : Sender) (sh : Shared)
    : option (Sender * Shared) :=
  match spc s with
  | L92 =>
      let v := SendStatus.pre_increment (word sh) in
      Some (mkSender L93 v (didsend s),
            mkShared v (handed sh) (deleted sh))
  | L93 =>
      if SendStatus.sender_may_write SendStatusClosing (s_sendStatus s)
      then Some (mkSender L98 (s_sendStatus s) true,
                 mkShared (word sh) (handed sh ++ [tid]) (deleted sh))
      else Some (mkSender L98 (s_sendStatus s) (didsend s), sh)
  | L98 =>
      Some (mkSender L99 (s_sendStatus s) (didsend s),
            mkShared (SendStatus.pre_decrement (word sh))
                     (handed sh) (deleted sh))
  | L99 =>
      Some (mkSender SendDone (s_sendStatus s) (didsend s),
            if negb (didsend s)
            then mkShared (word sh) (handed sh) (deleted sh ++ [tid])
            else sh)
  | SendDone => None
  end.

Definition closer_step (c : Closer) (sh : Shared)
    : option (Closer * Shared) :=
  match cpc c with
  | L107 => Some (mkCloser L109 (word sh) (incd c), sh)
  | L109 =>
      if SendStatus.no_closer_seen SendStatusClosing (c_sendStatus c)
      then Some (mkCloser L115 (c_sendStatus c) true,
                 mkShared (SendStatus.add_closing SendStatusClosing
                                                  (word sh))
                          (handed sh) (deleted sh))
      else Some (mkCloser L115 (c_sendStatus c) (incd c), sh)
  | L115 =>
      if SendStatus.keep_spinning SendStatusClosing (word sh)
      then Some (mkCloser L115 (word sh) (incd c), sh)
      else Some (mkCloser CloseDone (word sh) (incd c), sh)
  | CloseDone => None
  end.

Definition thread_step (tid : nat) (t : Thread) (sh : Shared)
    : option (Thread * Shared) :=
  match t with
  | SendCall s =>
      '(s', sh') ← sender_step tid s sh; Some (SendCall s', sh')
  | CloseCall c =>
      '(c', sh') ← closer_step c sh; Some (CloseCall c', sh')
  end.

(** Thread [tid] performs its next atomic action. *)
Definition step_of (tid : nat) (c c' : Config) : Prop :=
  ∃ t t' sh',
    threads c !! tid = Some t
    ∧ thread_step tid t (shared c) = Some (t', sh')
    ∧ c' = mkConfig (<[tid := t']> (threads c)) sh'.

Definition step (c c' : Config) : Prop := ∃ tid, step_of tid c c'.

(** The scheduler as a function: run the threads named by [sched], one
    action each, skipping a thread that has returned. *)
Fixpoint run (sched : list nat) (c : Config) : Config :=
  match sched with
  | [] => c
  | tid :: sched' =>
      match threads c !! tid with
      | Some t =>
          match thread_step tid t (shared c) with
          | Some (t', sh') =>
              run sched' (mkConfig (<[tid := t']> (threads c)) sh')
          | None => run sched' c
          end
      | None => run sched' c
      end
  end.
End Steps.

Definition new_sender : Thread := SendCall (mkSender L92 0 false).
Definition new_closer : Thread := CloseCall (mkCloser L107 0 false).

(** [senders] calls of [send] and [closers] calls of [closeSendStatus] on
    a fresh word ([new AtomicValue<int>(0)]). *)
Definition initial (senders closers : nat) : Config :=
  mkConfig (replicate senders new_sender ++ replicate closers new_closer)
           (mkShared 0 [] []).

Definition tally (f : Thread → Z) (l : list Thread) : Z :=
  foldr (λ t acc, f t + acc) 0 l.

Definition is_sender (t : Thread) : Z :=
  match t with SendCall _ => 1 | CloseCall _ => 0 end.
Definition is_closer (t : Thread) : Z :=
    match t with SendCall _ => 0 | CloseCall _ => 1 end.
(** A sender between its increment and its decrement. *)
Definition in_flight (t : Thread) : Z :=
    match t with
    | SendCall s => match spc s with L93 | L98 => 1 | _ => 0 end
    | CloseCall _ => 0
    end.
(** A closer that has added [SendStatusClosing]. *)
Definition has_added (t : Thread) : Z :=
    match t with
    | CloseCall c => if incd c then 1 else 0
    | SendCall _ => 0
    end.

Section Invariant.
Variable SendStatusClosing : Z.

(** What holds in every configuration reached from [initial]: the word
    is the closers that have added plus the senders in flight; there are
    at most two senders and three closers; a thread whose request was
    handed to the socket is a sender with [didsend] set; and a thread
    that has not reached the assignment of [didsend] or [incd] still has
    it [false]. *)
Record Inv (c : Config) : Prop := mkInv {
    inv_word :
      word (shared c)
      = SendStatusClosing * tally has_added (threads c)
        + tally in_flight (threads c);
    inv_senders : tally is_sender (threads c) ≤ 2;
    inv_closers : tally is_closer (threads c) ≤ 3;
    inv_handed :
      ∀ i, i ∈ handed (shared c) →
           ∃ s, threads c !! i = Some (SendCall s) ∧ didsend s = true;
    inv_sender_fresh :
      ∀ i s, threads c !! i = Some (SendCall s) →
             spc s = L92 ∨ spc s = L93 → didsend s = false;
    inv_closer_fresh :
      ∀ i cl, threads c !! i = Some (CloseCall cl) →
              cpc cl = L107 ∨ cpc cl = L109 → incd cl = false
  }.

End Invariant.

End Interleaving.

(** ** IOServiceFactory.cpp *)

Module IOServiceFactory.

(** The statics of the translation unit and the heap of [IOService]
    objects made by [makeIOService]. *)
Record Statics : Type := mkStatics {
    io_singleton : bool;            (* the once flag: the initializer has run *)
    called_io_service : bool;
    singleton_io : option loc;      (* [static IOService*io] of singletonIOService *)
    live : gset nat                 (* objects allocated with [new IOService] *)
  }.

(** Before any call: BOOST_ONCE_INIT, false, NULL. *)
Definition startup : Statics := mkStatics false false None ∅.

(** The address of [static IOService io] inside the initializer. *)
Definition the_io : loc := 0%nat.

(** [io_service_initializer(io_ret)]: the statics afterwards, and the final
    value of the by-value parameter [io_ret], which is lost at return. *)
Definition io_service_initializer (io_ret : option loc) (st : Statics)
    : Statics * option loc :=
  let st := mkStatics (io_singleton st) true (singleton_io st) (live st) in
  let io_ret := Some the_io in
  (st, io_ret).

(** [boost::call_once(io_singleton, boost::bind(io_service_initializer,io))]:
    the bound argument is a copy of [io]. *)
Definition call_once_initializer (st : Statics) : Statics :=
  if io_singleton st then st
  else
    let bound := singleton_io st in
    let st' := fst (io_service_initializer bound st) in
    mkStatics true (called_io_service st') (singleton_io st') (live st').

Inductive Ref : Type :=
  | RefTo (l : loc)
  | NullReference.     (* [*io] with [io == NULL] *)

(** [singletonIOService()]: [return *io]. *)
Definition singletonIOService (st : Statics) : Statics * Ref :=
  let st := call_once_initializer st in
  (st, match singleton_io st with
       | Some l => RefTo l
       | None => NullReference
       end).

(** [makeIOService()]. *)
Definition makeIOService (st : Statics) : Statics * loc :=
  let p := fresh ({[the_io]} ∪ live st) in
  (mkStatics (io_singleton st) (called_io_service st) (singleton_io st)
             ({[p]} ∪ live st), p).

Inductive Destroyed : Type :=
  | Deleted
  | Kept
  | DerefNull.         (* the call went through [*io] with [io == NULL] *)

(** [destroyIOService(io)]. *)
Definition destroyIOService (io : loc) (st : Statics) : Statics * Destroyed :=
  let delete_io st :=
    mkStatics (io_singleton st) (called_io_service st) (singleton_io st)
              (live st ∖ {[io]}) in
  if negb (called_io_service st) then (delete_io st, Deleted)
  else
    match singletonIOService st with
    | (st', RefTo l) =>
        if decide (l = io) then (st', Kept) else (delete_io st', Deleted)
    | (st', NullReference) => (st', DerefNull)
    end.

(** The calls a client can make, and a client as a list of calls. *)
Inductive Call : Type :=
  | CallSingleton
  | CallMake
  | CallDestroy (io : loc).

Definition perform (c : Call) (st : Statics) : Statics :=
  match c with
  | CallSingleton => fst (singletonIOService st)
  | CallMake => fst (makeIOService st)
  | CallDestroy io => fst (destroyIOService io st)
  end.

Definition perform_all (cs : list Call) (st : Statics) : Statics :=
  foldl (λ st c, perform c st) st cs.

(** The once flag is only ever set together with [called_io_service]. *)
Definition flag_implies_called (st : Statics) : Prop :=
  io_singleton st = true → called_io_service st = true.

End IOServiceFactory.

(** ** The variable-length integers of the wire format *)

Module Varint.
Local Open Scope N_scope.

Definition to_byte (n : N) : byte := default Byte.x00 (Byte.of_N n).

(** Modelled from the spec: the low bit of each byte signals continuation,
    the remaining 7 bits are the magnitude, little-endian; at most [cap]
    bytes are produced (StreamID::serialize and uint30::serialize are not
    part of the sources). *)
Fixpoint encode (cap : nat) (n : N) : list byte :=
  match cap with
  | O => []
  | S cap' =>
      if n <? 128 then [to_byte (2 * n)]
      else to_byte (2 * (n mod 128) + 1) :: encode cap' (n / 128)
  end.

(** Stream ids take up to 9 bytes, uint30 lengths up to 5 bytes. *)
Definition StreamID_serialize (sid : StreamID) : list byte := encode 9 sid.
Definition uint30_serialize (n : Z) : list byte := encode 5 (Z.to_N n).
End Varint.

(** ** Concrete instances *)

Module Examples.
Import TCPStreamModel.

(** A value of [SendStatusClosing] that is a power of two above the
    number of concurrent senders and for which three closers fit an
    [int]. *)
Definition K29 : Z := 2 ^ 29.

Definition connected_socket : MultiplexedSocket :=
  mkSocket Connected ∅ 3%N [] [].
Definition draining_socket : MultiplexedSocket :=
  mkSocket Draining ∅ 3%N [] [].

(** One stream (id 1) on socket 0 with its send-status word at location 0
    holding [status]. *)
Definition world_with (sock : MultiplexedSocket) (status : Z) : World :=
  mkWorld {[0%nat := status]} ∅ {[0%nat := sock]} [].
Definition stream1 : TCPStream := mkTCPStream (Some 0%nat) 1%N 0%nat.
Definition fresh_stream : TCPStream := mkTCPStream None 0%N 1%nat.

Definition hello : list byte :=
  [Byte.x68; Byte.x65; Byte.x6c; Byte.x6c; Byte.x6f].

(** A payload of 2^30 zero bytes. *)
Definition huge_length : nat := Z.to_nat (2 ^ 30).
Definition huge_payload : list byte := replicate huge_length Byte.x00.

Definition send1 := send K29 Varint.StreamID_serialize Varint.uint30_serialize.

(** A width for the stream-id counter: the ids that fit the 9 bytes of
    their serialization. *)
Definition id_limit : N := (2 ^ 63)%N.

(** A connected socket that holds callbacks for stream 1, and one whose
    counter stands at the last odd id. *)
Definition hooked_socket : MultiplexedSocket :=
  mkSocket Connected {[1%N := mkCallbacks 5 6 0%nat]} 3%N [] [].

(** Two senders (threads 0 and 1) and three closers (threads 2, 3, 4).
    First closer 2 reads the word and takes the slot; then sender 0
    increments; then everybody runs on. *)
Definition slot_taken : Interleaving.Config :=
  Interleaving.run K29 [2; 2]%nat (Interleaving.initial 2 3).
Definition late_increment : Interleaving.Config :=
  Interleaving.run K29 [0]%nat slot_taken.
Definition all_returned : Interleaving.Config :=
  Interleaving.run K29
    [1; 3; 0; 1; 4; 0; 1; 3; 0; 1; 4; 2; 3; 4; 2; 3; 4]%nat late_increment.
End Examples.

(** ** Subscription.hpp: [SubscriptionId] *)

Module SubscriptionIdModel.

(** [mThisPtr] is an address (NULL is 0), [mClassId] a C string or NULL,
    [mUniqueId] a [std::string]. *)
Record SubscriptionId : Type := mkSubscriptionId {
  mThisPtr : N;
  mClassId : option string;
  mUniqueId : string
}.

(** [strcmp] and the comparison of [std::string]: both go through the
    characters as unsigned values, a proper prefix being smaller. *)
Definition strcmp (a b : string) : comparison := String.compare a b.
Definition string_less (a b : string) : bool :=
  match String.compare a b with Lt => true | _ => false end.

Definition is_NULL (p : option string) : bool :=
  match p with None => true | Some _ => false end.

(** [operator==], lines 66-77. *)
Definition op_eq (this other : SubscriptionId) : bool :=
  if negb (mThisPtr this =? mThisPtr other)%N then false
  else if is_NULL (mClassId this) && is_NULL (mClassId other)
  then String.eqb (mUniqueId this) (mUniqueId other)
  else if is_NULL (mClassId this) || is_NULL (mClassId other) then false
  else
    match mClassId this, mClassId other with
    | Some c, Some c' =>
        match strcmp c c' with
        | Eq => String.eqb (mUniqueId this) (mUniqueId other)
        | _ => false
        end
    | _, _ => false
    end.

(** [operator<], lines 79-95. *)
Definition op_lt (this other : SubscriptionId) : bool :=
  if (mThisPtr this =? mThisPtr other)%N then
    if is_NULL (mClassId this) && negb (is_NULL (mClassId other)) then true
    else if is_NULL (mClassId this) || is_NULL (mClassId other) then false
    else
      match mClassId this, mClassId other with
      | Some c, Some c' =>
          match strcmp c c' with
          | Eq => string_less (mUniqueId this) (mUniqueId other)
          | Lt => true
          | Gt => false
          end
      | _, _ => false
      end
  else (mThisPtr this <? mThisPtr other)%N.

(** [SubscriptionId::null()], lines 118-120. *)
Definition null : SubscriptionId := mkSubscriptionId 0%N None EmptyString.

End SubscriptionIdModel.

(** ** Singleton.hpp: [AutoSingleton<T>]

    For a class [T] derived from [AutoSingleton<T>] whose own constructor
    and destructor do nothing else. *)

Module AutoSingletonModel.

(** The static [sInstance] and the objects of type [T] that exist. *)
Record State : Type := mkState {
  sInstance : option loc;
  objects : gset nat
}.

(** At program start: [AUTO_SINGLETON_INSTANCE] sets [sInstance] to NULL. *)
Definition startup : State := mkState None ∅.

(** The constructor [AutoSingleton()] run for an object at [this],
    lines 45-48. *)
Definition constructor (this : loc) (st : State) : State :=
  mkState (match sInstance st with
           | None => Some this
           | Some p => Some p
           end)
          ({[this]} ∪ objects st).

(** The destructor [~AutoSingleton()] run for the object at [this],
    lines 49-52. *)
Definition destructor (this : loc) (st : State) : State :=
  mkState (if decide (sInstance st = Some this) then None else sInstance st)
          (objects st ∖ {[this]}).

(** [new T]. *)
Definition new_T (st : State) : State * loc :=
  let p := fresh (objects st) in (constructor p st, p).

(** [delete p]; deleting NULL does nothing. *)
Definition delete_T (p : option loc) (st : State) : State :=
  match p with
  | Some this => destructor this st
  | None => st
  end.

(** [getSingleton()], lines 40-44: the state afterwards and the object the
    returned reference is bound to. *)
Definition getSingleton (st : State) : State * option loc :=
  let st :=
    match sInstance st with
    | None => let '(st', p) := new_T st in mkState (Some p) (objects st')
    | Some _ => st
    end in
  (st, sInstance st).

(** [destroy()], lines 53-56. *)
Definition destroy (st : State) : State :=
  let st := delete_T (sInstance st) st in
  mkState None (objects st).

(** What a program can do with the class: make an object, end the life of
    an object that exists, ask for the singleton, destroy it. *)
Inductive Op : Type :=
  | OpNew
  | OpDelete (p : loc)
  | OpGetSingleton
  | OpDestroy.

Definition perform (o : Op) (st : State) : State :=
  match o with
  | OpNew => fst (new_T st)
  | OpDelete p => if decide (p ∈ objects st) then destructor p st else st
  | OpGetSingleton => fst (getSingleton st)
  | OpDestroy => destroy st
  end.

Definition perform_all (os : list Op) (st : State) : State :=
  foldl (λ st o, perform o st) st os.

(** [sInstance] is NULL or points to an object that exists. *)
Definition instance_alive (st : State) : Prop :=
  match sInstance st with
  | Some p => p ∈ objects st
  | None => True
  end.

End AutoSingletonModel.

(** ** TCPStream.cpp: construction and [connect] *)

Module TCPStreamLifecycle.
Import MultiplexedSocketModel TCPStreamModel.

(** [new AtomicValue<int>(v)]. *)
Definition new_AtomicValue (v : Z) : M loc := λ w,
  let a := fresh (dom (atomics w)) in
  Returns a (set_atomics <[a := v]> w).

(** Assignment to an [AtomicValue<int>]. *)
Definition atomic_store (a : loc) (v : Z) : M unit := λ w,
  match atomics w !! a with
  | Some _ => Returns tt (set_atomics <[a := v]> w)
  | None => Faults BadPointer
  end.

(** The constructor [TCPStream(shared_socket, sid)], line 46. *)
Definition TCPStream_on_socket (shared_socket : option loc) (sid : StreamID)
    : M TCPStream :=
  a ← new_AtomicValue 0;
  mret (mkTCPStream shared_socket sid a).

Section Connect.
(** The socket [MultiplexedSocket::construct(mIO, substreamCallback)]
    makes, and what [connect(addy, 3)] does to a socket; both are in
    MultiplexedSocket.cpp, which is not part of the sources. *)
Variable constructed_socket : nat → MultiplexedSocket.
Variable socket_connect : nat → nat → MultiplexedSocket → MultiplexedSocket.

(** [MultiplexedSocket::construct]: a new socket behind a fresh
    [shared_ptr]. *)
Definition construct (substreamCallback : nat) : M (option loc) := λ w,
  let l := fresh (dom (sockets w)) in
  Returns (Some l)
          (set_sockets <[l := constructed_socket substreamCallback]> w).

(** [TCPStream::connect], lines 131-142; the stream object after the call
    is returned. *)
Definition connect (this : TCPStream) (addy : nat)
    (substreamCallback connectionCallback bytesReceivedCallback : nat)
    : M TCPStream :=
  s ← construct substreamCallback;
  let this1 := mkTCPStream s (mID this) (mSendStatus this) in
  atomic_store (mSendStatus this1) 0;;
  let this2 := mkTCPStream (mSocket this1) 1%N (mSendStatus this1) in
  addCallbacks (mSocket this2) (getID this2)
    (Some (mkCallbacks connectionCallback bytesReceivedCallback
                       (mSendStatus this2)));;
  '(l, sock) ← deref_socket (mSocket this2);
  store_socket l (socket_connect addy 3 sock);;
  mret this2.
End Connect.

(** The serializers keep within the local arrays of [send] for a payload
    sent on stream [sid]: at most 9 bytes for the id (the assertion of line
    72) and at most 5 for the length. *)
Definition fits (StreamID_serialize : StreamID → list byte)
    (uint30_serialize : Z → list byte) (sid : StreamID)
    (payload : list byte) : Prop :=
  (length (StreamID_serialize sid) ≤ StreamID_MAX_SERIALIZED_LENGTH)%nat
  ∧ (length (uint30_serialize
               (Z.of_nat (length payload)
                + Z.of_nat (length (StreamID_serialize sid)))%Z)
     ≤ uint30_MAX_SERIALIZED_LENGTH)%nat.

End TCPStreamLifecycle.

(** ** More on the interleaving model: what the threads remember *)

Module InterleavingMore.
Import Interleaving.

Section Snapshots.
Variable SendStatusClosing : Z.

(** A value the word held at an earlier moment of the run: closers that had
    added then (no more than now) and at least [least] senders. *)
Definition snapshot (c : Config) (least v : Z) : Prop :=
  ∃ m n, v = SendStatusClosing * m + n
         ∧ 0 ≤ m ≤ tally has_added (threads c)
         ∧ least ≤ n ≤ 2.

(** Some call of [closeSendStatus] has returned. *)
Definition closer_returned (c : Config) : Prop :=
  ∃ i cl, threads c !! i = Some (CloseCall cl) ∧ cpc cl = CloseDone.

(** Every sender that stands at the test of line 93 will fail it. *)
Definition no_writer (c : Config) : Prop :=
  ∀ i s, threads c !! i = Some (SendCall s) → spc s = L93 →
         SendStatus.sender_may_write SendStatusClosing (s_sendStatus s)
         = false.

(** What the locals of the threads hold in every configuration reached from
    [initial]: the value a sender got from its increment and the value a
    closer read at line 107 are snapshots of the word; a closer past line
    109 has added or has seen somebody else's addition; and once a closer
    has returned no sender is about to write. *)
Record Inv2 (c : Config) : Prop := mkInv2 {
  inv2_sender :
    ∀ i s, threads c !! i = Some (SendCall s) → spc s = L93 →
           snapshot c 1 (s_sendStatus s);
  inv2_closer :
    ∀ i cl, threads c !! i = Some (CloseCall cl) → cpc cl = L109 →
            snapshot c 0 (c_sendStatus cl);
  inv2_past :
    ∀ i cl, threads c !! i = Some (CloseCall cl) →
            cpc cl = L115 ∨ cpc cl = CloseDone →
            1 ≤ tally has_added (threads c);
  inv2_frozen : closer_returned c → no_writer c
}.

(** Sender [i] incremented the word before any closer had added: it will
    pass the test of line 93, or it has passed it and its request is with
    the socket. *)
Definition Early (i : nat) (c : Config) : Prop :=
  ∃ s, threads c !! i = Some (SendCall s)
       ∧ ((spc s = L93
           ∧ SendStatus.sender_may_write SendStatusClosing (s_sendStatus s)
             = true)
          ∨ ((spc s = L98 ∨ spc s = L99 ∨ spc s = SendDone)
             ∧ didsend s = true ∧ i ∈ handed (shared c))).
End Snapshots.

(** The atomic actions a call still has to perform. *)
Definition remaining (t : Thread) : Z :=
  match t with
  | SendCall s =>
      match spc s with
      | L92 => 4 | L93 => 3 | L98 => 2 | L99 => 1 | SendDone => 0
      end
  | CloseCall cl =>
      match cpc cl with
      | L107 => 3 | L109 => 2 | L115 => 1 | CloseDone => 0
      end
  end.

Definition sender_remaining (t : Thread) : Z :=
  match t with SendCall _ => remaining t | CloseCall _ => 0 end.

Definition returned (t : Thread) : bool :=
  match t with
  | SendCall s => match spc s with SendDone => true | _ => false end
  | CloseCall cl => match cpc cl with CloseDone => true | _ => false end
  end.

(** Who owns the chunk of each [send]: a request was handed to the socket
    by a sender that set [didsend] at line 95; a chunk was deleted at line
    101 by a sender that has returned without sending; and no request and no
    chunk appears twice. *)
Record Owned (c : Config) : Prop := mkOwned {
  own_handed :
    ∀ i, i ∈ handed (shared c) →
         ∃ s, threads c !! i = Some (SendCall s)
              ∧ didsend s = true ∧ spc s ≠ L92 ∧ spc s ≠ L93;
  own_deleted :
    ∀ i, i ∈ deleted (shared c) →
         ∃ s, threads c !! i = Some (SendCall s)
              ∧ didsend s = false ∧ spc s = SendDone;
  own_sent :
    ∀ i s, threads c !! i = Some (SendCall s) → didsend s = true →
           i ∈ handed (shared c);
  own_freed :
    ∀ i s, threads c !! i = Some (SendCall s) → spc s = SendDone →
           didsend s = false → i ∈ deleted (shared c);
  own_handed_once : NoDup (handed (shared c));
  own_deleted_once : NoDup (deleted (shared c))
}.

(** One sender (thread 0) and four closers (threads 1 to 4): the closers
    all read the word before any of them adds, then all add, and then the
    sender runs from line 92 to its return. *)
Definition four_closers_then_send : list nat :=
  [1; 2; 3; 4; 1; 2; 3; 4; 0; 0; 0; 0]%nat.

End InterleavingMore.

(** * Properties *)

(** ** The method monad *)

Lemma bind_unfold {A B} (m : M A) (k : A → M B) (w : World) :
  (m ≫= k) w =
  match m w with
  | Returns a w' => k a w'
  | Faults f => Faults f
  | Spins => Spins
  end.
Proof. reflexivity. Qed.

Lemma bind_returns {A B} (m : M A) (k : A → M B) w a w1 :
  m w = Returns a w1 → (m ≫= k) w = k a w1.
Proof. intros H. rewrite bind_unfold, H. reflexivity. Qed.

Lemma bind_returns_inv {A B} (m : M A) (k : A → M B) w b w2 :
  (m ≫= k) w = Returns b w2 →
  ∃ a w1, m w = Returns a w1 ∧ k a w1 = Returns b w2.
Proof.
  rewrite bind_unfold. destruct (m w) as [a w1| |] eqn:E; try discriminate.
  intros H. exists a, w1. split; [reflexivity | exact H].
Qed.

Lemma bind_spins {A B} (m : M A) (k : A → M B) w :
  m w = Spins → (m ≫= k) w = Spins.
Proof. intros H. rewrite bind_unfold, H. reflexivity. Qed.

Lemma ret_unfold {A} (a : A) (w : World) : (mret a : M A) w = Returns a w.
Proof. reflexivity. Qed.

(** ** Machine integers *)

Module Int32Facts.
Lemma wrap_id z : Int32.in_range z → Int32.wrap z = z.
Proof.
  unfold Int32.in_range, Int32.wrap. intros H.
  rewrite Z.mod_small by lia. lia.
Qed.

Lemma wrap_in_range z : Int32.in_range (Int32.wrap z).
Proof.
  unfold Int32.in_range, Int32.wrap.
  pose proof (Z.mod_pos_bound (z + 2 ^ 31) (2 ^ 32) ltac:(lia)). lia.
Qed.

Lemma to_unsigned_id z : 0 ≤ z < 2 ^ 32 → Int32.to_unsigned z = z.
Proof. intros H. unfold Int32.to_unsigned. apply Z.mod_small. lia. Qed.

(** A decrement undoes an increment, also across the wrap-around. *)
Lemma decrement_increment z :
  Int32.in_range z →
  SendStatus.pre_decrement (SendStatus.pre_increment z) = z.
Proof.
  unfold SendStatus.pre_decrement, SendStatus.pre_increment,
    Int32.in_range, Int32.wrap.
  intros H.
  replace ((z + 1 + 2 ^ 31) mod 2 ^ 32 - 2 ^ 31 - 1 + 2 ^ 31)
    with ((z + 1 + 2 ^ 31) mod 2 ^ 32 - 1) by lia.
  rewrite <- (Z.mod_small 1 (2 ^ 32)) at 2 by lia.
  rewrite <- Zminus_mod.
  replace (z + 1 + 2 ^ 31 - 1) with (z + 2 ^ 31) by lia.
  rewrite Z.mod_small by lia. lia.
Qed.
End Int32Facts.

(** ** Buffers *)

Lemma memcpy_at_fill (pre bytes pad : list byte) (m : nat) :
  memcpy_at (pre ++ replicate (length bytes + m) Byte.x00) (length pre)
            (bytes ++ pad) (length bytes)
  = Some ((pre ++ bytes) ++ replicate m Byte.x00).
Proof.
  unfold memcpy_at. rewrite decide_True.
  - rewrite take_app_length, take_app_length.
    rewrite drop_app_add, drop_replicate_add.
    rewrite <- (assoc_L (++)). reflexivity.
  - rewrite !length_app, length_replicate. lia.
Qed.

Lemma serialize_into_fits (bytes : list byte) (maxsize : nat) :
  (length bytes ≤ maxsize)%nat →
  TCPStreamModel.serialize_into bytes maxsize
  = (bytes ++ replicate (maxsize - length bytes) Byte.x00, length bytes).
Proof.
  intros H. unfold TCPStreamModel.serialize_into.
  rewrite decide_True by exact H. reflexivity.
Qed.

Lemma set_chunks_set_chunks f g w :
  set_chunks f (set_chunks g w) = set_chunks (f ∘ g) w.
Proof. reflexivity. Qed.

Lemma memcpy_returns p off src n w buf buf' :
  chunks w !! p = Some buf →
  memcpy_at buf off src n = Some buf' →
  memcpy p off src n w = Returns tt (set_chunks <[p := buf']> w).
Proof. intros H1 H2. unfold memcpy. rewrite H1, H2. reflexivity. Qed.

(** ** [TCPStream::send]: building the request *)

Module SendFacts.
Import TCPStreamModel MultiplexedSocketModel.

Section Encode.
Variable StreamID_serialize : StreamID → list byte.
Variable uint30_serialize : Z → list byte.

Let frame := wire_frame StreamID_serialize uint30_serialize.

(** Whatever the payload's size, when the stream id fits its 9-byte array
    and the length prefix its 5-byte array, lines 51-89 allocate one chunk
    at a fresh location and fill it with the frame. *)
Lemma send_encode_returns (this : TCPStream) (payload : list byte)
    (reliability : StreamReliability) (w : World) :
  let sid := StreamID_serialize (mID this) in
  let len := uint30_serialize
               (Z.of_nat (length payload) + Z.of_nat (length sid)) in
  (length sid ≤ StreamID_MAX_SERIALIZED_LENGTH)%nat →
  (length len ≤ uint30_MAX_SERIALIZED_LENGTH)%nat →
  let p := fresh (dom (chunks w)) in
  send_encode StreamID_serialize uint30_serialize this payload reliability w
  = Returns (mkRawRequest (mID this) (reliability_flags reliability).1
                          (reliability_flags reliability).2 p)
            (set_chunks <[p := frame (mID this) payload]> w).
Proof.
  intros sid len Hsid Hlen p. unfold send_encode, getID. fold sid.
  rewrite (serialize_into_fits sid _ Hsid).
  rewrite Nat2Z.inj_add. fold len.
  rewrite (serialize_into_fits len _ Hlen).
  destruct (reliability_flags reliability) as [u r].
  cbv beta iota. cbn [fst snd].
  rewrite (bool_decide_true (length sid ≤ _)%nat) by exact Hsid.
  unfold assert. rewrite bind_unfold, ret_unfold.
  rewrite bind_unfold. unfold new_Chunk. fold p.
  (* first memcpy: the length prefix *)
  rewrite bind_unfold.
  erewrite memcpy_returns; cycle 1.
  { simpl. apply lookup_insert_eq. }
  { replace (length payload + length sid + length len)%nat
      with (length len + (length sid + length payload))%nat by lia.
    apply (memcpy_at_fill [] len). }
  (* second memcpy: the stream id *)
  rewrite bind_unfold.
  erewrite memcpy_returns; cycle 1.
  { simpl. apply lookup_insert_eq. }
  { simpl. apply (memcpy_at_fill len sid). }
  rewrite !set_chunks_set_chunks.
  (* third memcpy: the payload, when there is one *)
  assert (Hframe : (len ++ sid) ++ payload = frame (mID this) payload).
  { unfold frame, wire_frame. fold sid. fold len.
    rewrite <- (assoc_L (++)). reflexivity. }
  destruct (decide (length payload = 0%nat)) as [Hzero|Hpos].
  - rewrite bool_decide_false by (intros H; exact (H Hzero)).
    rewrite bind_unfold, !ret_unfold.
    f_equal. unfold set_chunks. f_equal. simpl.
    rewrite !insert_insert_eq. f_equal.
    rewrite <- Hframe. rewrite Hzero. simpl.
    apply nil_length_inv in Hzero. rewrite Hzero, !app_nil_r. reflexivity.
  - rewrite bool_decide_true by exact Hpos.
    rewrite bind_unfold.
    erewrite memcpy_returns; cycle 1.
    { simpl. apply lookup_insert_eq. }
    { simpl.
      replace (length len + length sid)%nat
        with (length (len ++ sid)) by (rewrite !length_app; done).
      rewrite <- (app_nil_r payload) at 2.
      replace (length payload) with (length payload + 0)%nat at 1 by lia.
      apply (memcpy_at_fill (len ++ sid) payload [] 0). }
    rewrite !ret_unfold.
    f_equal. unfold set_chunks. f_equal. simpl.
    rewrite !insert_insert_eq. f_equal.
    rewrite app_nil_r. exact Hframe.
Qed.
End Encode.
End SendFacts.

(** ** [TCPStream::send]: the hand-over under the send-status word *)

Module CoordinateFacts.
Import TCPStreamModel MultiplexedSocketModel.

Section Coordinate.
Variable SendStatusClosing : Z.

Lemma restored_word (a : loc) (v : Z) (m : gmap nat Z) :
  m !! a = Some v → Int32.in_range v →
  <[a := SendStatus.pre_decrement (SendStatus.pre_increment v)]>
    (<[a := SendStatus.pre_increment v]> m) = m.
Proof.
  intros Hm Hv. rewrite insert_insert_eq.
  rewrite Int32Facts.decrement_increment by exact Hv.
  apply insert_id, Hm.
Qed.

(** A closer is seen after the increment: nothing is handed to the socket,
    the word is decremented, the chunk is deleted and line 102 logs. *)
Lemma send_coordinate_drops (this : TCPStream) (toBeSent : RawRequest)
    (w : World) (v : Z) (buf : list byte) :
  atomics w !! mSendStatus this = Some v →
  Int32.in_range v →
  SendStatus.sender_may_write SendStatusClosing
    (SendStatus.pre_increment v) = false →
  chunks w !! data toBeSent = Some buf →
  send_coordinate SendStatusClosing this toBeSent w
  = Returns false
      (mkWorld (atomics w) (delete (data toBeSent) (chunks w)) (sockets w)
               (silog w ++ [closed_stream_entry this])).
Proof.
  intros Hword Hrange Hclosing Hchunk. unfold send_coordinate.
  rewrite bind_unfold. unfold atomic_update at 1. rewrite Hword.
  rewrite Hclosing. rewrite bind_unfold, ret_unfold.
  rewrite bind_unfold. unfold atomic_update. cbn [atomics set_atomics].
  rewrite lookup_insert_eq. cbn [negb].
  rewrite bind_unfold, bind_unfold. unfold delete_Chunk.
  cbn [chunks set_atomics]. rewrite Hchunk.
  unfold SILOG, closed_stream_entry. rewrite ret_unfold.
  f_equal. unfold set_silog, set_chunks, set_atomics. cbn.
  f_equal. apply restored_word; assumption.
Qed.

(** No closer is seen after the increment: the request goes to
    [sendBytes], the word is decremented, nothing is deleted or logged. *)
Lemma send_coordinate_sends (this : TCPStream) (toBeSent : RawRequest)
    (w : World) (v : Z) (l : loc) (sock : MultiplexedSocket) :
  atomics w !! mSendStatus this = Some v →
  Int32.in_range v →
  SendStatus.sender_may_write SendStatusClosing
    (SendStatus.pre_increment v) = true →
  mSocket this = Some l →
  sockets w !! l = Some sock →
  send_coordinate SendStatusClosing this toBeSent w
  = Returns true
      (mkWorld (atomics w) (chunks w)
               (<[l := with_request sock toBeSent]> (sockets w)) (silog w)).
Proof.
  intros Hword Hrange Hopen Hsock Hlive. unfold send_coordinate.
  rewrite bind_unfold. unfold atomic_update at 1. rewrite Hword.
  rewrite Hopen. rewrite bind_unfold, bind_unfold.
  unfold sendBytes. rewrite bind_unfold. unfold deref_socket.
  rewrite Hsock. cbn [sockets set_atomics]. rewrite Hlive.
  unfold store_socket. rewrite ret_unfold.
  rewrite bind_unfold. unfold atomic_update.
  cbn [atomics set_atomics set_sockets]. rewrite lookup_insert_eq.
  cbn [negb]. rewrite bind_unfold, !ret_unfold.
  f_equal. unfold set_atomics, set_sockets, with_request. cbn.
  f_equal. apply restored_word; assumption.
Qed.
End Coordinate.
End CoordinateFacts.

(** ** Inversion of the primitive operations *)

Module Inversion.
Import TCPStreamModel MultiplexedSocketModel.

Lemma same_but_chunks_refl w : same_but_chunks w w.
Proof. repeat split. Qed.

Lemma same_but_chunks_trans w1 w2 w3 :
  same_but_chunks w1 w2 → same_but_chunks w2 w3 → same_but_chunks w1 w3.
Proof.
  intros (A1 & S1 & L1) (A2 & S2 & L2).
  repeat split; congruence.
Qed.

Lemma assert_inv b u w w' : assert b w = Returns u w' → b = true ∧ w' = w.
Proof.
  destruct b; simpl; [|discriminate].
  rewrite ret_unfold. intros [= _ ->]. done.
Qed.

Lemma new_Chunk_inv n p w w' :
  new_Chunk n w = Returns p w' → same_but_chunks w w'.
Proof. unfold new_Chunk. intros [= _ <-]. repeat split. Qed.

Lemma memcpy_inv p off src n u w w' :
  memcpy p off src n w = Returns u w' → same_but_chunks w w'.
Proof.
  unfold memcpy. destruct (chunks w !! p); [|discriminate].
  destruct (memcpy_at _ _ _ _); [|discriminate].
  intros [= _ <-]. repeat split.
Qed.

Lemma send_encode_inv sser user this payload reliability w toBeSent w1 :
  send_encode sser user this payload reliability w = Returns toBeSent w1 →
  originStream toBeSent = mID this
  ∧ (unordered toBeSent, unreliable toBeSent)
    = reliability_flags reliability
  ∧ same_but_chunks w w1.
Proof.
  unfold send_encode, serialize_into.
  destruct (reliability_flags reliability) as [u r]. cbv beta iota.
  intros H.
  apply bind_returns_inv in H as (? & wa & Ha%assert_inv & H).
  destruct Ha as [_ ->].
  apply bind_returns_inv in H as (p & wb & Hb%new_Chunk_inv & H).
  apply bind_returns_inv in H as (? & wc & Hc%memcpy_inv & H).
  apply bind_returns_inv in H as (? & wd & Hd%memcpy_inv & H).
  apply bind_returns_inv in H as (? & we & He & H).
  assert (same_but_chunks wd we) as Hde.
  { destruct (bool_decide _) in He.
    - eapply memcpy_inv, He.
    - rewrite ret_unfold in He. injection He as _ <-.
      apply same_but_chunks_refl. }
  rewrite ret_unfold in H. injection H as <- <-.
  split; [reflexivity|]. split; [reflexivity|].
  eauto using same_but_chunks_trans.
Qed.

Lemma atomic_update_inv f a v w w' :
  atomic_update f a w = Returns v w' →
  chunks w' = chunks w ∧ sockets w' = sockets w ∧ silog w' = silog w.
Proof.
  unfold atomic_update. destruct (atomics w !! a); [|discriminate].
  intros [= _ <-]. repeat split.
Qed.

Lemma sendBytes_inv s req u w w' :
  sendBytes s req w = Returns u w' →
  ∃ l sock, s = Some l ∧ sockets w !! l = Some sock
    ∧ sockets w' = <[l := with_request sock req]> (sockets w).
Proof.
  unfold sendBytes, deref_socket. rewrite bind_unfold.
  destruct s as [l|]; [|discriminate].
  destruct (sockets w !! l) as [sock|] eqn:Hl; [|discriminate].
  unfold store_socket. intros [= _ <-]. exists l, sock. done.
Qed.

Lemma delete_Chunk_inv p u w w' :
  delete_Chunk p w = Returns u w' → sockets w' = sockets w.
Proof.
  unfold delete_Chunk. destruct (chunks w !! p); [|discriminate].
  intros [= _ <-]. done.
Qed.

(** What [send_coordinate] can have done to the sockets: handed the
    request to the stream's socket exactly when it returns [true]. *)
Lemma send_coordinate_inv K this toBeSent w didsend w' :
  send_coordinate K this toBeSent w = Returns didsend w' →
  if didsend
  then ∃ l sock, mSocket this = Some l ∧ sockets w !! l = Some sock
         ∧ sockets w' = <[l := with_request sock toBeSent]> (sockets w)
  else sockets w' = sockets w.
Proof.
  unfold send_coordinate. intros H.
  apply bind_returns_inv in H as (v & wa & Ha%atomic_update_inv & H).
  destruct Ha as (_ & Sa & _).
  apply bind_returns_inv in H as (b & wb & Hb & H).
  apply bind_returns_inv in H as (? & wc & Hc%atomic_update_inv & H).
  destruct Hc as (_ & Sc & _).
  apply bind_returns_inv in H as (? & wd & Hd & H).
  rewrite ret_unfold in H. injection H as <- <-.
  destruct (SendStatus.sender_may_write K v).
  - apply bind_returns_inv in Hb as (? & wb' & Hb%sendBytes_inv & Hr).
    rewrite ret_unfold in Hr. injection Hr as <- <-.
    destruct Hb as (l & sock & Hs & Hl & Hw).
    cbn [negb] in Hd. rewrite ret_unfold in Hd. injection Hd as _ <-.
    exists l, sock. rewrite <- Sa. repeat split; try done. congruence.
  - rewrite ret_unfold in Hb. injection Hb as <- <-.
    cbn [negb] in Hd.
    apply bind_returns_inv in Hd as (? & we & He%delete_Chunk_inv & Hd).
    unfold SILOG in Hd. injection Hd as _ <-. cbn. congruence.
Qed.
End Inversion.

(** ** The spec-modelled variable-length integers *)

Module VarintFacts.
Lemma encode_length (cap : nat) (n : N) :
  (length (Varint.encode cap n) ≤ cap)%nat.
Proof.
  revert n. induction cap as [|cap IH]; intros n; simpl; [lia|].
  destruct (n <? 128)%N; simpl; [lia|].
  specialize (IH (n / 128)%N). lia.
Qed.

Lemma StreamID_serialize_fits (sid : StreamID) :
  (length (Varint.StreamID_serialize sid)
   ≤ TCPStreamModel.StreamID_MAX_SERIALIZED_LENGTH)%nat.
Proof. apply encode_length. Qed.

Lemma uint30_serialize_fits (n : Z) :
  (length (Varint.uint30_serialize n)
   ≤ TCPStreamModel.uint30_MAX_SERIALIZED_LENGTH)%nat.
Proof. apply encode_length. Qed.
End VarintFacts.

(** ** [TCPStream::send] *)

Module SendClaims.
Import TCPStreamModel MultiplexedSocketModel.

Lemma fresh_chunk_unused (w : World) : chunks w !! fresh (dom (chunks w)) = None.
Proof. apply not_elem_of_dom, is_fresh. Qed.

(** Claim C3. For a payload of length L on a stream whose id serializes to S
    bytes (S within the 9-byte array, as line 72 asserts), with
    L + S < 2^30 and a uint30 serializer that keeps such values within its
    5-byte array: [send] allocates exactly one chunk, at a location that was
    free, of size H + L + S, holding the H bytes of the serialized length
    L + S, then the S bytes of the stream id, then the payload unchanged;
    that chunk is the [data] of the request [send] goes on with. *)
Theorem send_builds_one_contiguous_frame
    (SendStatusClosing : Z)
    (StreamID_serialize : StreamID → list byte)
    (uint30_serialize : Z → list byte)
    (this : TCPStream) (payload : list byte) (reliability : StreamReliability)
    (w : World) :
  let sid := StreamID_serialize (mID this) in
  let L := length payload in
  let S := length sid in
  let len := uint30_serialize (Z.of_nat L + Z.of_nat S) in
  let H := length len in
  (∀ n, 0 ≤ n < 2 ^ 30 →
        (length (uint30_serialize n) ≤ uint30_MAX_SERIALIZED_LENGTH)%nat) →
  (S ≤ StreamID_MAX_SERIALIZED_LENGTH)%nat →
  Z.of_nat L + Z.of_nat S < 2 ^ 30 →
  ∃ (p : loc) (toBeSent : RawRequest) (w1 : World),
    send_encode StreamID_serialize uint30_serialize this payload reliability w
      = Returns toBeSent w1
    ∧ data toBeSent = p
    ∧ chunks w !! p = None
    ∧ chunks w1 = <[p := len ++ sid ++ payload]> (chunks w)
    ∧ length (len ++ sid ++ payload) = (H + L + S)%nat
    ∧ send SendStatusClosing StreamID_serialize uint30_serialize
           this payload reliability w
      = (send_coordinate SendStatusClosing this toBeSent ≫= λ _, mret tt) w1.
Proof.
  intros sid L S len H Huint30 HS Hsmall.
  assert (Hlen : (length len ≤ uint30_MAX_SERIALIZED_LENGTH)%nat).
  { apply Huint30. subst L S. lia. }
  pose proof (SendFacts.send_encode_returns StreamID_serialize
                uint30_serialize this payload reliability w HS Hlen) as Henc.
  cbv zeta in Henc.
  eexists _, _, _. split; [exact Henc|].
  split; [reflexivity|]. split; [apply fresh_chunk_unused|].
  split; [reflexivity|]. split.
  - rewrite !length_app. subst H L S. lia.
  - unfold send. rewrite (bind_returns _ _ _ _ _ Henc). reflexivity.
Qed.

(** The instance of C3 for the payload "hello" on stream 1, with the
    spec-modelled serializers: the frame is [0c 02 68 65 6c 6c 6f]. *)
Lemma send_builds_one_contiguous_frame_witness :
  ∃ (p : loc) (toBeSent : RawRequest) (w1 : World),
    send_encode Varint.StreamID_serialize Varint.uint30_serialize
                Examples.stream1 Examples.hello ReliableOrdered
                (Examples.world_with Examples.connected_socket 0)
      = Returns toBeSent w1
    ∧ data toBeSent = p
    ∧ chunks (Examples.world_with Examples.connected_socket 0) !! p = None
    ∧ chunks w1
      = <[p := [Byte.x0c; Byte.x02; Byte.x68; Byte.x65; Byte.x6c; Byte.x6c;
                Byte.x6f]]> ∅
    ∧ length [Byte.x0c; Byte.x02; Byte.x68; Byte.x65; Byte.x6c; Byte.x6c;
              Byte.x6f] = (1 + 5 + 1)%nat
    ∧ Examples.send1 Examples.stream1 Examples.hello ReliableOrdered
        (Examples.world_with Examples.connected_socket 0)
      = (send_coordinate Examples.K29 Examples.stream1 toBeSent
           ≫= λ _, mret tt) w1.
Proof.
  apply (send_builds_one_contiguous_frame Examples.K29
           Varint.StreamID_serialize Varint.uint30_serialize
           Examples.stream1 Examples.hello ReliableOrdered
           (Examples.world_with Examples.connected_socket 0)).
  - intros n _. apply VarintFacts.uint30_serialize_fits.
  - vm_compute. lia.
  - vm_compute. reflexivity.
Defined.

(** Claim C2, amended. [send] has no size check and no failure result of
    its own:
    whatever L + S is (also 2^30 and above), when the stream id fits its
    9-byte array, the serialized length its 5-byte array, and the word shows
    no closer after the increment, [send] returns normally, has handed
    exactly one request to [MultiplexedSocket::sendBytes] and left its chunk
    on the heap. *)
Theorem send_has_no_size_check
    (SendStatusClosing : Z)
    (StreamID_serialize : StreamID → list byte)
    (uint30_serialize : Z → list byte)
    (this : TCPStream) (payload : list byte) (reliability : StreamReliability)
    (w : World) (v : Z) (l : loc) (sock : MultiplexedSocket) :
  let sid := StreamID_serialize (mID this) in
  let len := uint30_serialize
               (Z.of_nat (length payload) + Z.of_nat (length sid)) in
  (length sid ≤ StreamID_MAX_SERIALIZED_LENGTH)%nat →
  (length len ≤ uint30_MAX_SERIALIZED_LENGTH)%nat →
  atomics w !! mSendStatus this = Some v →
  Int32.in_range v →
  SendStatus.sender_may_write SendStatusClosing
    (SendStatus.pre_increment v) = true →
  mSocket this = Some l →
  sockets w !! l = Some sock →
  ∃ p : loc,
    chunks w !! p = None
    ∧ send SendStatusClosing StreamID_serialize uint30_serialize
           this payload reliability w
      = Returns tt
          (mkWorld (atomics w)
             (<[p := len ++ sid ++ payload]> (chunks w))
             (<[l := with_request sock
                       (mkRawRequest (mID this)
                          (reliability_flags reliability).1
                          (reliability_flags reliability).2 p)]> (sockets w))
             (silog w)).
Proof.
  intros sid len Hsid Hlen Hword Hrange Hopen Hsock Hlive.
  exists (fresh (dom (chunks w))). split; [apply fresh_chunk_unused|].
  unfold send.
  rewrite (bind_returns _ _ _ _ _
             (SendFacts.send_encode_returns StreamID_serialize
                uint30_serialize this payload reliability w Hsid Hlen)).
  rewrite bind_unfold.
  erewrite (CoordinateFacts.send_coordinate_sends SendStatusClosing this _ _
              v l sock); try eassumption.
  reflexivity.
Qed.

(** The instance for "hello" on stream 1 with the word at 0. *)
Lemma send_has_no_size_check_witness :
  ∃ p : loc,
    chunks (Examples.world_with Examples.connected_socket 0) !! p = None
    ∧ Examples.send1 Examples.stream1 Examples.hello ReliableOrdered
        (Examples.world_with Examples.connected_socket 0)
      = Returns tt
          (mkWorld {[0%nat := 0]}
             (<[p := [Byte.x0c; Byte.x02; Byte.x68; Byte.x65; Byte.x6c;
                      Byte.x6c; Byte.x6f]]> ∅)
             (<[0%nat := with_request Examples.connected_socket
                           (mkRawRequest 1%N false false p)]>
                {[0%nat := Examples.connected_socket]})
             []).
Proof.
  apply (send_has_no_size_check Examples.K29
           Varint.StreamID_serialize Varint.uint30_serialize
           Examples.stream1 Examples.hello ReliableOrdered
           (Examples.world_with Examples.connected_socket 0)
           0 0%nat Examples.connected_socket).
  - vm_compute. lia.
  - vm_compute. lia.
  - reflexivity.
  - unfold Int32.in_range. lia.
  - vm_compute. reflexivity.
  - reflexivity.
  - reflexivity.
Defined.

Lemma huge_payload_length :
  Z.of_nat (length Examples.huge_payload) = 2 ^ 30.
Proof.
  unfold Examples.huge_payload. rewrite length_replicate.
  unfold Examples.huge_length. apply Z2Nat.id. lia.
Qed.

(** Claim C2 as stated fails: a payload of 2^30 bytes on stream 1 (whose id
    takes
    one byte), sent while no closer is present, is handed to the socket and
    [send] returns normally. *)
Lemma send_enqueues_oversized_payload :
  2 ^ 30 ≤ Z.of_nat (length Examples.huge_payload)
           + Z.of_nat (length (Varint.StreamID_serialize
                                 (mID Examples.stream1)))
  ∧ ∃ (w' : World) (sock' : MultiplexedSocket) (toBeSent : RawRequest),
      Examples.send1 Examples.stream1 Examples.huge_payload ReliableOrdered
        (Examples.world_with Examples.connected_socket 0)
      = Returns tt w'
      ∧ sockets w' !! 0%nat = Some sock'
      ∧ mPending sock' = [toBeSent].
Proof.
  split.
  - rewrite huge_payload_length. lia.
  - set (w0 := Examples.world_with Examples.connected_socket 0).
    pose proof (SendFacts.send_encode_returns Varint.StreamID_serialize
                  Varint.uint30_serialize Examples.stream1
                  Examples.huge_payload ReliableOrdered w0
                  (VarintFacts.StreamID_serialize_fits _)
                  (VarintFacts.uint30_serialize_fits _)) as Henc.
    cbv zeta in Henc.
    eexists _, _, _. split; [|split].
    + unfold Examples.send1, send.
      rewrite (bind_returns _ _ _ _ _ Henc), bind_unfold.
      erewrite (CoordinateFacts.send_coordinate_sends Examples.K29
                  Examples.stream1 _ _ 0 0%nat Examples.connected_socket);
        [reflexivity|reflexivity| |reflexivity|reflexivity|reflexivity].
      unfold Int32.in_range. lia.
    + apply lookup_insert_eq.
    + reflexivity.
Qed.

(** Claim C4, amended. A [send] that, after its increment of the word, sees
    the
    closing field non-zero: it hands nothing to
    [MultiplexedSocket::sendBytes] (the sockets are unchanged), deletes the
    chunk it had encoded (the heap is as before the call), records the debug
    entry "printing to closed stream id " followed by the stream id, has
    undone its increment (the word holds its old value) and returns
    normally. *)
Theorem send_to_closing_stream_drops_quietly
    (SendStatusClosing : Z)
    (StreamID_serialize : StreamID → list byte)
    (uint30_serialize : Z → list byte)
    (this : TCPStream) (payload : list byte) (reliability : StreamReliability)
    (w : World) (v : Z) :
  let sid := StreamID_serialize (mID this) in
  let len := uint30_serialize
               (Z.of_nat (length payload) + Z.of_nat (length sid)) in
  (length sid ≤ StreamID_MAX_SERIALIZED_LENGTH)%nat →
  (length len ≤ uint30_MAX_SERIALIZED_LENGTH)%nat →
  atomics w !! mSendStatus this = Some v →
  Int32.in_range v →
  SendStatus.sender_may_write SendStatusClosing
    (SendStatus.pre_increment v) = false →
  ∃ (toBeSent : RawRequest) (w1 : World),
    (* the chunk is encoded first *)
    send_encode StreamID_serialize uint30_serialize this payload reliability w
      = Returns toBeSent w1
    ∧ chunks w !! data toBeSent = None
    ∧ chunks w1 !! data toBeSent = Some (len ++ sid ++ payload)
    (* the hand-over is skipped, with [didsend] false *)
    ∧ send_coordinate SendStatusClosing this toBeSent w1
      = Returns false
          (mkWorld (atomics w) (chunks w) (sockets w)
             (silog w
                ++ [mkLog "tcpsst" "debug"
                      ("printing to closed stream id " +:+ pretty (mID this))]))
    ∧ SendStatus.pre_decrement (SendStatus.pre_increment v) = v
    (* and the call returns *)
    ∧ send SendStatusClosing StreamID_serialize uint30_serialize
           this payload reliability w
      = Returns tt
          (mkWorld (atomics w) (chunks w) (sockets w)
             (silog w
                ++ [mkLog "tcpsst" "debug"
                      ("printing to closed stream id " +:+ pretty (mID this))])).
Proof.
  intros sid len Hsid Hlen Hword Hrange Hclosing.
  pose proof (SendFacts.send_encode_returns StreamID_serialize
                uint30_serialize this payload reliability w Hsid Hlen) as Henc.
  cbv zeta in Henc.
  set (p := fresh (dom (chunks w))) in *.
  set (toBeSent := mkRawRequest _ _ _ p) in *.
  set (w1 := set_chunks _ w) in *.
  assert (Hdrop :
    send_coordinate SendStatusClosing this toBeSent w1
    = Returns false
        (mkWorld (atomics w) (chunks w) (sockets w)
           (silog w ++ [closed_stream_entry this]))).
  { erewrite (CoordinateFacts.send_coordinate_drops SendStatusClosing this
                toBeSent w1 v); try eassumption.
    - subst w1 toBeSent. cbn. f_equal. f_equal.
      rewrite delete_insert_eq. apply delete_id, fresh_chunk_unused.
    - subst w1 toBeSent. cbn. apply lookup_insert_eq. }
  exists toBeSent, w1.
  split; [exact Henc|]. split; [apply fresh_chunk_unused|].
  split; [subst w1 toBeSent; cbn; apply lookup_insert_eq|].
  split; [exact Hdrop|].
  split; [apply Int32Facts.decrement_increment, Hrange|].
  unfold send. rewrite (bind_returns _ _ _ _ _ Henc).
  rewrite bind_unfold, Hdrop. reflexivity.
Qed.

(** The instance for "hello" on stream 1 while one closer holds the slot
    (the word is [SendStatusClosing]). *)
Lemma send_to_closing_stream_drops_quietly_witness :
  ∃ (toBeSent : RawRequest) (w1 : World),
    send_encode Varint.StreamID_serialize Varint.uint30_serialize
      Examples.stream1 Examples.hello ReliableOrdered
      (Examples.world_with Examples.connected_socket Examples.K29)
      = Returns toBeSent w1
    ∧ (∅ : gmap nat (list byte)) !! data toBeSent = None
    ∧ chunks w1 !! data toBeSent
      = Some [Byte.x0c; Byte.x02; Byte.x68; Byte.x65; Byte.x6c; Byte.x6c;
              Byte.x6f]
    ∧ send_coordinate Examples.K29 Examples.stream1 toBeSent w1
      = Returns false
          (mkWorld {[0%nat := Examples.K29]} ∅
             {[0%nat := Examples.connected_socket]}
             [mkLog "tcpsst" "debug" "printing to closed stream id 1"])
    ∧ SendStatus.pre_decrement (SendStatus.pre_increment Examples.K29)
      = Examples.K29
    ∧ Examples.send1 Examples.stream1 Examples.hello ReliableOrdered
        (Examples.world_with Examples.connected_socket Examples.K29)
      = Returns tt
          (mkWorld {[0%nat := Examples.K29]} ∅
             {[0%nat := Examples.connected_socket]}
             [mkLog "tcpsst" "debug" "printing to closed stream id 1"]).
Proof.
  apply (send_to_closing_stream_drops_quietly Examples.K29
           Varint.StreamID_serialize Varint.uint30_serialize
           Examples.stream1 Examples.hello ReliableOrdered
           (Examples.world_with Examples.connected_socket Examples.K29)
           Examples.K29).
  - vm_compute. lia.
  - vm_compute. lia.
  - reflexivity.
  - unfold Int32.in_range, Examples.K29. lia.
  - vm_compute. reflexivity.
Defined.

(** Claim C4 as stated fails on the text of the log entry: the send of
    "hello" on
    stream 1 while a closer holds the slot logs exactly one entry, and it
    does not read "send to closed stream". *)
Lemma closed_stream_log_text :
  SendStatus.sender_may_write Examples.K29
    (SendStatus.pre_increment Examples.K29) = false
  ∧ ∃ (w' : World) (entry : LogEntry),
      Examples.send1 Examples.stream1 Examples.hello ReliableOrdered
        (Examples.world_with Examples.connected_socket Examples.K29)
      = Returns tt w'
      ∧ silog w' = [entry]
      ∧ logMessage entry = "printing to closed stream id 1"
      ∧ logMessage entry ≠ "send to closed stream".
Proof.
  split; [vm_compute; reflexivity|].
  eexists _, _. split; [vm_compute; reflexivity|].
  split; [reflexivity|]. split; [reflexivity|]. discriminate.
Qed.

(** Claim C5. The request that [send] builds carries, for each
    [StreamReliability], exactly these flags: Unreliable gives (unordered,
    unreliable), ReliableOrdered gives (ordered, reliable), ReliableUnordered
    gives (unordered, reliable); it is never (ordered, unreliable), and a
    request that [send] leaves with a socket is an old one or this one. *)
Theorem send_reliability_flags
    (SendStatusClosing : Z)
    (StreamID_serialize : StreamID → list byte)
    (uint30_serialize : Z → list byte)
    (this : TCPStream) (payload : list byte) (reliability : StreamReliability)
    (w w' : World) :
  send SendStatusClosing StreamID_serialize uint30_serialize
       this payload reliability w = Returns tt w' →
  ∃ (toBeSent : RawRequest) (w1 : World),
    send_encode StreamID_serialize uint30_serialize this payload reliability w
      = Returns toBeSent w1
    ∧ (unordered toBeSent, unreliable toBeSent)
      = match reliability with
        | Unreliable => (true, true)
        | ReliableOrdered => (false, false)
        | ReliableUnordered => (true, false)
        end
    ∧ (unordered toBeSent, unreliable toBeSent) ≠ (false, true)
    ∧ ∀ (l : loc) (sock sock' : MultiplexedSocket) (r : RawRequest),
        sockets w !! l = Some sock → sockets w' !! l = Some sock' →
        r ∈ mPending sock' → r ∈ mPending sock ∨ r = toBeSent.
Proof.
  unfold send. intros Hsend.
  apply bind_returns_inv in Hsend as (toBeSent & w1 & Henc & Hsend).
  apply bind_returns_inv in Hsend as (didsend & w2 & Hco & Hret).
  rewrite ret_unfold in Hret. injection Hret as <-.
  exists toBeSent, w1. split; [exact Henc|].
  apply Inversion.send_encode_inv in Henc as (_ & Hflags & _ & Hsock1 & _).
  split; [rewrite Hflags; destruct reliability; reflexivity|].
  split; [rewrite Hflags; destruct reliability; discriminate|].
  intros l sock sock' r Hl Hl' Hr.
  apply Inversion.send_coordinate_inv in Hco.
  destruct didsend.
  - destruct Hco as (l0 & sock0 & _ & Hl0 & Hw2).
    rewrite Hw2, Hsock1 in Hl'. rewrite Hsock1 in Hl0.
    destruct (decide (l0 = l)) as [->|Hne].
    + rewrite lookup_insert_eq in Hl'. injection Hl' as <-.
      assert (sock0 = sock) as -> by congruence.
      cbn in Hr. apply elem_of_app in Hr as [Hr|Hr]; [by left|].
      right. by apply list_elem_of_singleton in Hr.
    + rewrite lookup_insert_ne in Hl' by exact Hne.
      left. congruence.
  - left. rewrite Hco, Hsock1 in Hl'. congruence.
Qed.

(** The instance for a reliable-ordered "hello" on stream 1. *)
Lemma send_reliability_flags_witness :
  ∃ (toBeSent : RawRequest) (w1 : World),
    send_encode Varint.StreamID_serialize Varint.uint30_serialize
      Examples.stream1 Examples.hello ReliableOrdered
      (Examples.world_with Examples.connected_socket 0)
      = Returns toBeSent w1
    ∧ (unordered toBeSent, unreliable toBeSent) = (false, false)
    ∧ (unordered toBeSent, unreliable toBeSent) ≠ (false, true)
    ∧ ∀ (l : loc) (sock sock' : MultiplexedSocket) (r : RawRequest),
        sockets (Examples.world_with Examples.connected_socket 0) !! l
          = Some sock →
        sockets
          (mkWorld {[0%nat := 0]}
             {[0%nat := [Byte.x0c; Byte.x02; Byte.x68; Byte.x65; Byte.x6c;
                         Byte.x6c; Byte.x6f]]}
             {[0%nat := with_request Examples.connected_socket
                          (mkRawRequest 1%N false false 0%nat)]} [])
          !! l = Some sock' →
        r ∈ mPending sock' → r ∈ mPending sock ∨ r = toBeSent.
Proof.
  apply (send_reliability_flags Examples.K29
           Varint.StreamID_serialize Varint.uint30_serialize
           Examples.stream1 Examples.hello ReliableOrdered
           (Examples.world_with Examples.connected_socket 0)).
  vm_compute. reflexivity.
Defined.

End SendClaims.

(** ** [TCPStream::closeSendStatus] and [TCPStream::close] *)

Module CloseClaims.
Import TCPStreamModel MultiplexedSocketModel.

Section Close.
Variable SendStatusClosing : Z.
Local Abbreviation K := SendStatusClosing.

Lemma keep_spinning_false (v : Z) :
  SendStatus.keep_spinning K v = false ↔ closers_only K v.
Proof.
  unfold SendStatus.keep_spinning, closers_only.
  destruct (Z.eqb_spec v K), (Z.eqb_spec v (2 * K)),
    (Z.eqb_spec v (3 * K)); simpl; split; intros; try done; tauto.
Qed.

(** With the word at [v] and nobody else running, the loop ends at its
    first read or never. *)
Lemma spin_wait_alone (fuel : nat) (a : loc) (w : World) (v : Z) :
  atomics w !! a = Some v →
  spin_wait K (S fuel) a w
  = if SendStatus.keep_spinning K v then Spins else Returns tt w.
Proof.
  intros Hv. induction fuel as [|fuel IH].
  - simpl. rewrite bind_unfold. unfold atomic_read. rewrite Hv.
    destruct (SendStatus.keep_spinning K v); reflexivity.
  - change (spin_wait K (S (S fuel)) a)
      with (atomic_read a ≫= λ s,
              if SendStatus.keep_spinning K s
              then spin_wait K (S fuel) a else mret tt).
    rewrite bind_unfold. unfold atomic_read at 1. rewrite Hv.
    destruct (SendStatus.keep_spinning K v) eqn:E; [|reflexivity].
    rewrite IH. reflexivity.
Qed.

Lemma spin_wait_inv (fuel : nat) (a : loc) (w w' : World) (u : unit) :
  spin_wait K fuel a w = Returns u w' →
  w' = w ∧ ∃ v, atomics w !! a = Some v ∧ closers_only K v.
Proof.
  destruct fuel as [|fuel]; [discriminate|].
  destruct (atomics w !! a) as [v|] eqn:Hv.
  - rewrite (spin_wait_alone fuel a w v Hv).
    destruct (SendStatus.keep_spinning K v) eqn:E; [discriminate|].
    intros [= _ <-]. split; [done|]. exists v.
    split; [done|]. by apply keep_spinning_false.
  - simpl. rewrite bind_unfold. unfold atomic_read. rewrite Hv.
    discriminate.
Qed.

(** [closeSendStatus] run to its end, for any word. *)
Lemma closeSendStatus_alone (fuel : nat) (a : loc) (w : World) (v : Z) :
  atomics w !! a = Some v →
  closeSendStatus K (S fuel) a w
  = if SendStatus.no_closer_seen K v
    then if SendStatus.keep_spinning K (SendStatus.add_closing K v)
         then Spins
         else Returns true
                (set_atomics <[a := SendStatus.add_closing K v]> w)
    else if SendStatus.keep_spinning K v then Spins else Returns false w.
Proof.
  intros Hv. unfold closeSendStatus.
  rewrite bind_unfold. unfold atomic_read at 1. rewrite Hv.
  destruct (SendStatus.no_closer_seen K v).
  - rewrite bind_unfold, bind_unfold. unfold atomic_update. rewrite Hv.
    rewrite ret_unfold, bind_unfold.
    rewrite (spin_wait_alone fuel a _ (SendStatus.add_closing K v))
      by apply lookup_insert_eq.
    destruct (SendStatus.keep_spinning K _); reflexivity.
  - rewrite bind_unfold, ret_unfold, bind_unfold.
    rewrite (spin_wait_alone fuel a w v Hv).
    destruct (SendStatus.keep_spinning K v); reflexivity.
Qed.

(** Claim C1, amended. A call of [closeSendStatus] that reads the word with
    the closing field non-zero does not add [SendStatusClosing]: it leaves
    the word as it is, and it still spin-waits.  A caller that reads the
    closing field zero adds [SendStatusClosing] and spin-waits: its wait
    starts on the word with [SendStatusClosing] added, whether or not that
    wait ends.  In both cases the wait ends exactly when the value read is
    K, 2K or 3K.  The same holds step by step under interleaving, whatever
    the word holds when the step is taken: line 107 reads the word; at line
    109 a closer that saw the closing field zero adds [SendStatusClosing]
    to the word and sets [incd], and one that saw it non-zero goes on with
    the word untouched; both go to the loop of line 115, where a read ends
    the loop exactly on K, 2K or 3K. *)
Theorem closeSendStatus_later_closer_waits_without_adding
    (fuel : nat) (vSendStatus : loc) (w : World) (v : Z) :
  atomics w !! vSendStatus = Some v →
  SendStatus.no_closer_seen K v = false →
  closeSendStatus K (S fuel) vSendStatus w
    = (if SendStatus.keep_spinning K v then Spins else Returns false w)
  ∧ (∀ (fuel0 : nat) (w0 : World) (v0 : Z),
       atomics w0 !! vSendStatus = Some v0 →
       SendStatus.no_closer_seen K v0 = true →
       closeSendStatus K (S fuel0) vSendStatus w0
       = if SendStatus.keep_spinning K (SendStatus.add_closing K v0)
         then Spins
         else Returns true
                (set_atomics
                   <[vSendStatus := SendStatus.add_closing K v0]> w0))
  ∧ (∀ (fuel0 : nat) (w0 : World) (v0 : Z),
       atomics w0 !! vSendStatus = Some v0 →
       closeSendStatus K fuel0 vSendStatus w0
       = if SendStatus.no_closer_seen K v0
         then (spin_wait K fuel0 vSendStatus ≫= λ _, mret true)
                (set_atomics
                   <[vSendStatus := SendStatus.add_closing K v0]> w0)
         else (spin_wait K fuel0 vSendStatus ≫= λ _, mret false) w0)
  ∧ (∀ s, SendStatus.keep_spinning K s = false
          ↔ (s = K ∨ s = 2 * K ∨ s = 3 * K))
  ∧ (∀ (cl : Interleaving.Closer) (sh : Interleaving.Shared),
       Interleaving.cpc cl = Interleaving.L107 →
       Interleaving.closer_step K cl sh
       = Some (Interleaving.mkCloser Interleaving.L109
                 (Interleaving.word sh) (Interleaving.incd cl), sh))
  ∧ (∀ (cl : Interleaving.Closer) (sh : Interleaving.Shared),
       Interleaving.cpc cl = Interleaving.L109 →
       SendStatus.no_closer_seen K (Interleaving.c_sendStatus cl) = true →
       Interleaving.closer_step K cl sh
       = Some (Interleaving.mkCloser Interleaving.L115
                 (Interleaving.c_sendStatus cl) true,
               Interleaving.mkShared
                 (SendStatus.add_closing K (Interleaving.word sh))
                 (Interleaving.handed sh) (Interleaving.deleted sh)))
  ∧ (∀ (cl : Interleaving.Closer) (sh : Interleaving.Shared),
       Interleaving.cpc cl = Interleaving.L109 →
       SendStatus.no_closer_seen K (Interleaving.c_sendStatus cl) = false →
       Interleaving.closer_step K cl sh
       = Some (Interleaving.mkCloser Interleaving.L115
                 (Interleaving.c_sendStatus cl) (Interleaving.incd cl), sh))
  ∧ (∀ (cl : Interleaving.Closer) (sh : Interleaving.Shared),
       Interleaving.cpc cl = Interleaving.L115 →
       Interleaving.closer_step K cl sh
       = Some (Interleaving.mkCloser
                 (if SendStatus.keep_spinning K (Interleaving.word sh)
                  then Interleaving.L115 else Interleaving.CloseDone)
                 (Interleaving.word sh) (Interleaving.incd cl), sh)).
Proof.
  intros Hv Hseen.
  split; [|split; [|split; [|split; [|split; [|split; [|split]]]]]].
  - rewrite (closeSendStatus_alone fuel _ w v Hv), Hseen. reflexivity.
  - intros fuel0 w0 v0 Hv0 Hfirst.
    rewrite (closeSendStatus_alone fuel0 _ w0 v0 Hv0), Hfirst.
    reflexivity.
  - intros fuel0 w0 v0 Hv0. unfold closeSendStatus.
    rewrite bind_unfold. unfold atomic_read at 1. rewrite Hv0.
    destruct (SendStatus.no_closer_seen K v0).
    + rewrite bind_unfold, bind_unfold. unfold atomic_update.
      rewrite Hv0. rewrite ret_unfold. reflexivity.
    + rewrite bind_unfold, ret_unfold. reflexivity.
  - intros s. apply keep_spinning_false.
  - intros cl sh Hpc. unfold Interleaving.closer_step.
    rewrite Hpc. reflexivity.
  - intros cl sh Hpc Hfirst. unfold Interleaving.closer_step.
    rewrite Hpc, Hfirst. reflexivity.
  - intros cl sh Hpc Hpresent. unfold Interleaving.closer_step.
    rewrite Hpc, Hpresent. reflexivity.
  - intros cl sh Hpc. unfold Interleaving.closer_step. rewrite Hpc.
    destruct (SendStatus.keep_spinning K (Interleaving.word sh));
      reflexivity.
Qed.
End Close.

(** The instance for a word that already holds one closer: the call returns
    at its first read and the word still holds K.  A closer that read the
    word at 1 (one sender in flight, no closer) adds at line 109 although
    it will have to wait: the word goes to K + 1. *)
Lemma closeSendStatus_later_closer_waits_without_adding_witness :
  closeSendStatus Examples.K29 1 0%nat
    (Examples.world_with Examples.connected_socket Examples.K29)
    = Returns false
        (Examples.world_with Examples.connected_socket Examples.K29)
  ∧ Interleaving.closer_step Examples.K29
      (Interleaving.mkCloser Interleaving.L109 1 false)
      (Interleaving.mkShared 1 [] [])
    = Some (Interleaving.mkCloser Interleaving.L115 1 true,
            Interleaving.mkShared (Examples.K29 + 1) [] []).
Proof.
  destruct (closeSendStatus_later_closer_waits_without_adding Examples.K29
              0 0%nat
              (Examples.world_with Examples.connected_socket Examples.K29)
              Examples.K29 eq_refl eq_refl)
    as (Hlater & _ & _ & _ & _ & Hadds & _).
  split; [exact Hlater|].
  etransitivity.
  - exact (Hadds (Interleaving.mkCloser Interleaving.L109 1 false)
                 (Interleaving.mkShared 1 [] []) eq_refl eq_refl).
  - vm_compute. reflexivity.
Defined.

(** A first closer that arrives while a sender is in flight: the sender
    (thread 0) increments, the closer (thread 1) reads 1, adds (the word
    is K + 1) and spins; after the sender's decrement the word is K and
    the closer returns. *)
Example first_closer_adds_while_a_sender_is_in_flight :
  Interleaving.shared
    (Interleaving.run Examples.K29 [0; 1; 1; 1; 1]%nat
       (Interleaving.initial 1 1))
  = Interleaving.mkShared (Examples.K29 + 1) [] []
  ∧ Interleaving.threads
      (Interleaving.run Examples.K29 [0; 1; 1; 1; 1]%nat
         (Interleaving.initial 1 1)) !! 1%nat
    = Some (Interleaving.CloseCall
              (Interleaving.mkCloser Interleaving.L115
                 (Examples.K29 + 1) true))
  ∧ Interleaving.run Examples.K29 [0; 1; 1; 1; 1; 0; 0; 0; 1]%nat
      (Interleaving.initial 1 1)
    = Interleaving.mkConfig
        [Interleaving.SendCall
           (Interleaving.mkSender Interleaving.SendDone 1 true);
         Interleaving.CloseCall
           (Interleaving.mkCloser Interleaving.CloseDone Examples.K29 true)]
        (Interleaving.mkShared Examples.K29 [0%nat] []).
Proof. repeat split; vm_compute; reflexivity. Qed.

(** Claim C1 as stated fails.  With one closer on the word, a further call leaves
    the word at K instead of adding K to it; and with one closer and one
    sender on the word, a further call does not skip the wait: a thousand
    reads later it is still spinning. *)
Lemma later_closer_neither_adds_nor_skips_the_wait :
  SendStatus.no_closer_seen Examples.K29 Examples.K29 = false
  ∧ (∃ w' : World,
       closeSendStatus Examples.K29 1 0%nat
         (Examples.world_with Examples.connected_socket Examples.K29)
       = Returns false w'
       ∧ atomics w' !! 0%nat = Some Examples.K29
       ∧ atomics w' !! 0%nat ≠ Some (Examples.K29 + Examples.K29))
  ∧ SendStatus.no_closer_seen Examples.K29 (Examples.K29 + 1) = false
  ∧ closeSendStatus Examples.K29 1000 0%nat
      (Examples.world_with Examples.connected_socket (Examples.K29 + 1))
    = Spins.
Proof.
  split; [vm_compute; reflexivity|]. split.
  - eexists. split; [vm_compute; reflexivity|].
    split; [reflexivity|]. vm_compute. discriminate.
  - split; vm_compute; reflexivity.
Qed.

Lemma addCallbacks_NULL_inv s sid status w w' :
  addCallbacks s sid None w = Returns status w' →
  ∃ l sock, s = Some l ∧ sockets w !! l = Some sock
    ∧ w' = set_sockets <[l := without_callbacks sock sid]> w.
Proof.
  unfold addCallbacks, deref_socket. rewrite bind_unfold.
  destruct s as [l|]; [|discriminate].
  destruct (sockets w !! l) as [sock|] eqn:Hl; [|discriminate].
  rewrite bind_unfold. unfold store_socket. rewrite ret_unfold.
  intros [= _ <-]. exists l, sock. done.
Qed.

Lemma closeStream_inv s sid u w w' :
  closeStream s sid w = Returns u w' →
  ∃ l sock, s = Some l ∧ sockets w !! l = Some sock
    ∧ w' = set_sockets <[l := with_control sock (CLOSE_STREAM sid)]> w.
Proof.
  unfold closeStream, deref_socket. rewrite bind_unfold.
  destruct s as [l|]; [|discriminate].
  destruct (sockets w !! l) as [sock|] eqn:Hl; [|discriminate].
  unfold store_socket. intros [= _ <-]. exists l, sock. done.
Qed.

Lemma closeSendStatus_inv K fuel a incd w w1 :
  closeSendStatus K fuel a w = Returns incd w1 →
  (∃ v, atomics w1 !! a = Some v ∧ closers_only K v)
  ∧ chunks w1 = chunks w ∧ sockets w1 = sockets w ∧ silog w1 = silog w.
Proof.
  unfold closeSendStatus. intros H.
  apply bind_returns_inv in H as (v0 & wa & Ha & H).
  assert (wa = w) as ->.
  { unfold atomic_read in Ha. destruct (atomics w !! a); [|discriminate].
    by injection Ha as _ <-. }
  apply bind_returns_inv in H as (b & wb & Hb & H).
  apply bind_returns_inv in H as (? & wc & Hc%spin_wait_inv & H).
  destruct Hc as (-> & v & Hv & Hclosers).
  rewrite ret_unfold in H. injection H as <- <-.
  split; [by exists v|].
  destruct (SendStatus.no_closer_seen K v0).
  - apply bind_returns_inv in Hb as (? & wb' & Hb%Inversion.atomic_update_inv
                                     & Hr).
    rewrite ret_unfold in Hr. injection Hr as _ <-. exact Hb.
  - rewrite ret_unfold in Hb. by injection Hb as _ <-.
Qed.

Lemma addCallbacks_NULL_run (l : loc) (sock : MultiplexedSocket)
    (sid : StreamID) (w : World) :
  sockets w !! l = Some sock →
  addCallbacks (Some l) sid None w
  = Returns (match mState sock with
             | Connected => CB_OK | _ => CB_DISCONNECTED
             end)
            (set_sockets <[l := without_callbacks sock sid]> w).
Proof.
  intros Hsock. unfold addCallbacks, deref_socket.
  rewrite bind_unfold, Hsock. rewrite bind_unfold. unfold store_socket.
  by rewrite ret_unfold.
Qed.

Lemma closeStream_run (l : loc) (sock : MultiplexedSocket)
    (sid : StreamID) (w : World) :
  sockets w !! l = Some sock →
  closeStream (Some l) sid w
  = Returns tt (set_sockets <[l := with_control sock (CLOSE_STREAM sid)]> w).
Proof.
  intros Hsock. unfold closeStream, deref_socket.
  rewrite bind_unfold, Hsock. reflexivity.
Qed.

Lemma recording_addCallbacks_unfold s sid cb (w : World) :
  recording_addCallbacks s sid cb w
  = addCallbacks s sid cb
      (set_silog (λ log, log ++ [mkLog "socket" "call" "addCallbacks"]) w).
Proof. reflexivity. Qed.

Lemma recording_closeStream_unfold s sid (w : World) :
  recording_closeStream s sid w
  = closeStream s sid
      (set_silog (λ log, log ++ [mkLog "socket" "call" "closeStream"]) w).
Proof. reflexivity. Qed.

(** Claim C6. A call of [close] that returns has made its three calls in the
    order of lines 123, 125, 127, each on the state the one before left,
    whatever the socket's two functions do: first [closeSendStatus] on the
    stream's word, which returned with the word at K, 2K or 3K (no sender
    in flight) and touched nothing else; then [addCallbacks(getID(),NULL)];
    and only then [closeStream].  As long as [closeSendStatus] spins
    neither of the other two has started, and when [addCallbacks] fails
    [closeStream] is not reached.  On the socket of the spec and an idle
    word the call returns: between the second and the third call the
    stream's callbacks are gone and no CLOSE_STREAM has been asked for yet;
    and a socket that writes down its calls has written addCallbacks, then
    closeStream. *)
Theorem close_drains_unhooks_then_announces
    (SendStatusClosing : Z)
    (socket_addCallbacks :
       option loc → StreamID → option Callbacks → M CallbackStatus)
    (socket_closeStream : option loc → StreamID → M unit)
    (fuel : nat) (this : TCPStream) (w w' : World) :
  close_on SendStatusClosing socket_addCallbacks socket_closeStream
           fuel this w = Returns tt w' →
  (∃ (incd : bool) (w1 : World) (status : CallbackStatus) (w2 : World),
     closeSendStatus SendStatusClosing fuel (mSendStatus this) w
       = Returns incd w1
     ∧ (∃ v, atomics w1 !! mSendStatus this = Some v
             ∧ closers_only SendStatusClosing v)
     ∧ chunks w1 = chunks w ∧ sockets w1 = sockets w ∧ silog w1 = silog w
     ∧ socket_addCallbacks (mSocket this) (getID this) None w1
       = Returns status w2
     ∧ socket_closeStream (mSocket this) (getID this) w2 = Returns tt w')
  ∧ (∀ fuel0 w0,
       closeSendStatus SendStatusClosing fuel0 (mSendStatus this) w0 = Spins →
       close_on SendStatusClosing socket_addCallbacks socket_closeStream
                fuel0 this w0 = Spins)
  ∧ (∀ fuel0 w0 incd w1 f,
       closeSendStatus SendStatusClosing fuel0 (mSendStatus this) w0
         = Returns incd w1 →
       socket_addCallbacks (mSocket this) (getID this) None w1 = Faults f →
       close_on SendStatusClosing socket_addCallbacks socket_closeStream
                fuel0 this w0 = Faults f)
  ∧ (∀ fuel0 w0 l sock,
       0 < SendStatusClosing < 2 ^ 31 →
       atomics w0 !! mSendStatus this = Some 0 →
       mSocket this = Some l →
       sockets w0 !! l = Some sock →
       let w1 := set_atomics <[mSendStatus this := SendStatusClosing]> w0 in
       let w2 := set_sockets <[l := without_callbacks sock (mID this)]> w1 in
       let w3 := set_sockets
                   <[l := with_control (without_callbacks sock (mID this))
                                       (CLOSE_STREAM (mID this))]> w1 in
       closeSendStatus SendStatusClosing (S fuel0) (mSendStatus this) w0
         = Returns true w1
       ∧ (∃ status,
            addCallbacks (mSocket this) (getID this) None w1
            = Returns status w2)
       ∧ closeStream (mSocket this) (getID this) w2 = Returns tt w3
       ∧ close SendStatusClosing (S fuel0) this w0 = Returns tt w3
       ∧ close_on SendStatusClosing recording_addCallbacks
                  recording_closeStream (S fuel0) this w0
         = Returns tt
             (set_silog (λ log, log ++ [mkLog "socket" "call" "addCallbacks";
                                        mkLog "socket" "call" "closeStream"])
                        w3)).
Proof.
  intros Hclose. split; [|split; [|split]].
  - unfold close_on in Hclose.
    apply bind_returns_inv in Hclose as (incd & w1 & Hcss & Hclose).
    apply bind_returns_inv in Hclose as (status & w2 & Hadd & Hcs).
    pose proof (closeSendStatus_inv _ _ _ _ _ _ Hcss)
      as (Hword & Hc & Hs & Hlog).
    exists incd, w1, status, w2. done.
  - intros fuel0 w0 Hspin. unfold close_on.
    by rewrite (bind_spins _ _ _ Hspin).
  - intros fuel0 w0 incd w1 f Hcss Hadd. unfold close_on.
    rewrite (bind_returns _ _ _ _ _ Hcss).
    by rewrite bind_unfold, Hadd.
  - intros fuel0 w0 l sock HK Hidle Hl Hsock w1 w2 w3.
    assert (Hcss :
      closeSendStatus SendStatusClosing (S fuel0) (mSendStatus this) w0
      = Returns true w1).
    { rewrite (closeSendStatus_alone SendStatusClosing fuel0 _ w0 0 Hidle).
      assert (SendStatus.no_closer_seen SendStatusClosing 0 = true) as ->.
      { unfold SendStatus.no_closer_seen. by rewrite Z.land_0_l. }
      assert (SendStatus.add_closing SendStatusClosing 0 = SendStatusClosing)
        as ->.
      { unfold SendStatus.add_closing. apply Int32Facts.wrap_id.
        unfold Int32.in_range. lia. }
      assert (SendStatus.keep_spinning SendStatusClosing SendStatusClosing
              = false) as ->.
      { apply keep_spinning_false. by left. }
      reflexivity. }
    assert (Hadd :
      addCallbacks (mSocket this) (getID this) None w1
      = Returns (match mState sock with
                 | Connected => CB_OK | _ => CB_DISCONNECTED
                 end) w2).
    { rewrite Hl. by apply addCallbacks_NULL_run. }
    assert (Hcs : closeStream (mSocket this) (getID this) w2 = Returns tt w3).
    { rewrite Hl.
      rewrite (closeStream_run l (without_callbacks sock (mID this)))
        by (subst w2; cbn; apply lookup_insert_eq).
      subst w2 w3. unfold set_sockets, getID. cbn.
      by rewrite insert_insert_eq. }
    split; [exact Hcss|]. split; [by eexists|]. split; [exact Hcs|].
    split.
    + unfold close_on.
      rewrite (bind_returns _ _ _ _ _ Hcss).
      by rewrite (bind_returns _ _ _ _ _ Hadd).
    + unfold close_on.
      rewrite (bind_returns _ _ _ _ _ Hcss).
      rewrite bind_unfold, recording_addCallbacks_unfold, Hl.
      rewrite (addCallbacks_NULL_run l sock) by (subst w1; exact Hsock).
      rewrite recording_closeStream_unfold.
      rewrite (closeStream_run l (without_callbacks sock (mID this)))
        by (cbn; apply lookup_insert_eq).
      subst w1 w2 w3. unfold set_sockets, set_silog, set_atomics, getID. cbn.
      rewrite insert_insert_eq, <- app_assoc. reflexivity.
Qed.

(** The instance for stream 1 on a connected socket that holds callbacks for
    it and writes down its calls, with an idle word. *)
Lemma close_drains_unhooks_then_announces_witness :
  close_on Examples.K29 recording_addCallbacks recording_closeStream 1
    Examples.stream1 (Examples.world_with Examples.hooked_socket 0)
  = Returns tt
      (mkWorld {[0%nat := Examples.K29]} ∅
         {[0%nat := mkSocket Connected ∅ 3%N [] [CLOSE_STREAM 1%N]]}
         [mkLog "socket" "call" "addCallbacks";
          mkLog "socket" "call" "closeStream"])
  ∧ ∃ (incd : bool) (w1 : World) (status : CallbackStatus) (w2 : World),
      closeSendStatus Examples.K29 1 0%nat
        (Examples.world_with Examples.hooked_socket 0)
        = Returns incd w1
      ∧ (∃ v, atomics w1 !! 0%nat = Some v
              ∧ closers_only Examples.K29 v)
      ∧ chunks w1 = ∅
      ∧ sockets w1 = {[0%nat := Examples.hooked_socket]}
      ∧ silog w1 = []
      ∧ recording_addCallbacks (Some 0%nat) 1%N None w1
        = Returns status w2
      ∧ recording_closeStream (Some 0%nat) 1%N w2
        = Returns tt
            (mkWorld {[0%nat := Examples.K29]} ∅
               {[0%nat := mkSocket Connected ∅ 3%N [] [CLOSE_STREAM 1%N]]}
               [mkLog "socket" "call" "addCallbacks";
                mkLog "socket" "call" "closeStream"]).
Proof.
  assert (Hrun :
    close_on Examples.K29 recording_addCallbacks recording_closeStream 1
      Examples.stream1 (Examples.world_with Examples.hooked_socket 0)
    = Returns tt
        (mkWorld {[0%nat := Examples.K29]} ∅
           {[0%nat := mkSocket Connected ∅ 3%N [] [CLOSE_STREAM 1%N]]}
           [mkLog "socket" "call" "addCallbacks";
            mkLog "socket" "call" "closeStream"]))
    by (vm_compute; reflexivity).
  split; [exact Hrun|].
  exact (proj1 (close_drains_unhooks_then_announces Examples.K29
                  recording_addCallbacks recording_closeStream 1
                  Examples.stream1 _ _ Hrun)).
Defined.

End CloseClaims.

(** ** [TCPStream::cloneFrom] *)

Module CloneClaims.
Import TCPStreamModel MultiplexedSocketModel.

(** [getNewID] on a socket that is in the store. *)
Lemma getNewID_run (limit : N) (l : loc) (sock : MultiplexedSocket)
    (w : World) :
  sockets w !! l = Some sock →
  getNewID limit (Some l) w
  = if decide (mNextStreamID sock + 2 < limit)%N
    then Returns (mNextStreamID sock)
           (set_sockets
              <[l := mkSocket (mState sock) (mCallbacks sock)
                       (mNextStreamID sock + 2)%N (mPending sock)
                       (mControl sock)]> w)
    else Faults StreamIdExhausted.
Proof.
  intros Hsock. unfold getNewID, deref_socket.
  rewrite bind_unfold, Hsock.
  destruct (decide (mNextStreamID sock + 2 < limit)%N); [|reflexivity].
  rewrite bind_unfold. unfold store_socket. by rewrite ret_unfold.
Qed.

(** The installation of callbacks on the socket [getNewID] has left. *)
Lemma addCallbacks_after_getNewID (l : loc) (sock : MultiplexedSocket)
    (cb : Callbacks) (w : World) :
  addCallbacks (Some l) (mNextStreamID sock) (Some cb)
    (set_sockets
       <[l := mkSocket (mState sock) (mCallbacks sock)
                (mNextStreamID sock + 2)%N (mPending sock)
                (mControl sock)]> w)
  = Returns (match mState sock with
             | Connected => CB_OK | _ => CB_DISCONNECTED
             end)
            (set_sockets <[l := with_clone sock cb]> w).
Proof.
  unfold addCallbacks, deref_socket. rewrite bind_unfold.
  cbn [sockets set_sockets]. rewrite lookup_insert_eq.
  rewrite bind_unfold. unfold store_socket. rewrite ret_unfold.
  unfold set_sockets, with_clone. cbn. by rewrite insert_insert_eq.
Qed.

(** The call on a TCPStream source with a socket that is in the store. *)
Lemma cloneFrom_on_live_socket (limit : N) (this src : TCPStream)
    (otherStream : option Stream) (cc bc : nat) (w : World)
    (l : loc) (sock : MultiplexedSocket) :
  dynamic_cast_TCPStream otherStream = Some src →
  mSocket src = Some l →
  sockets w !! l = Some sock →
  cloneFrom limit this otherStream cc bc w
  = if decide (mNextStreamID sock + 2 < limit)%N
    then Returns
           (match mState sock with Connected => true | _ => false end,
            mkTCPStream (Some l) (mNextStreamID sock) (mSendStatus this))
           (set_sockets
              <[l := with_clone sock (mkCallbacks cc bc (mSendStatus this))]>
              w)
    else Faults StreamIdExhausted.
Proof.
  intros Hcast Hl Hsock. unfold cloneFrom. rewrite Hcast.
  cbn [mSocket mID mSendStatus]. rewrite Hl.
  rewrite bind_unfold, (getNewID_run limit l sock w Hsock).
  destruct (decide (mNextStreamID sock + 2 < limit)%N); [|reflexivity].
  rewrite bind_unfold. cbn [mSocket mID mSendStatus].
  rewrite addCallbacks_after_getNewID, ret_unfold.
  by destruct (mState sock).
Qed.




(** Claim C10. When [cloneFrom] fails because the source's socket is not
    Connected ([addCallbacks] reports DISCONNECTED, which it is asked only
    when [getNewID] has returned, that is with the id counter not
    exhausted), the failure is not atomic: the call returns [false], yet
    the stream holds the source's socket reference and the stream id taken
    from the socket's counter, and in the world the call leaves that
    counter has advanced by 2 and the callbacks are installed under the
    id.  With the counter exhausted the call does not get that far: it ends
    with StreamIdExhausted, the world untouched. *)
Theorem failed_clone_keeps_socket_and_id
    (StreamID_limit : N)
    (this src : TCPStream) (otherStream : option Stream) (cc bc : nat)
    (w : World) (l : loc) (sock : MultiplexedSocket) :
  dynamic_cast_TCPStream otherStream = Some src →
  mSocket src = Some l →
  sockets w !! l = Some sock →
  mState sock ≠ Connected →
  ((mNextStreamID sock + 2 < StreamID_limit)%N →
   ∃ (this' : TCPStream) (w' : World) (sock' : MultiplexedSocket),
     cloneFrom StreamID_limit this otherStream cc bc w
       = Returns (false, this') w'
     ∧ (∃ w1,
          getNewID StreamID_limit (Some l) w
            = Returns (mNextStreamID sock) w1
          ∧ addCallbacks (Some l) (mNextStreamID sock)
              (Some (mkCallbacks cc bc (mSendStatus this))) w1
            = Returns CB_DISCONNECTED w')
     ∧ this' = mkTCPStream (mSocket src) (mNextStreamID sock)
                           (mSendStatus this)
     ∧ w' = set_sockets <[l := sock']> w
     ∧ sock' = mkSocket (mState sock)
                 (<[mNextStreamID sock
                    := mkCallbacks cc bc (mSendStatus this)]>
                    (mCallbacks sock))
                 (mNextStreamID sock + 2)%N (mPending sock) (mControl sock)
     ∧ sockets w' !! l = Some sock'
     ∧ mNextStreamID sock' ≠ mNextStreamID sock)
  ∧ ((StreamID_limit ≤ mNextStreamID sock + 2)%N →
     cloneFrom StreamID_limit this otherStream cc bc w
       = Faults StreamIdExhausted).
Proof.
  intros Hcast Hl Hsock Hstate.
  pose proof (cloneFrom_on_live_socket StreamID_limit this src otherStream
                cc bc w l sock Hcast Hl Hsock) as Hrun.
  pose proof (getNewID_run StreamID_limit l sock w Hsock) as Hnew.
  pose proof (addCallbacks_after_getNewID l sock
                (mkCallbacks cc bc (mSendStatus this)) w) as Hadd.
  assert (Hfalse : match mState sock with Connected => true | _ => false end
                   = false) by (by destruct (mState sock)).
  assert (Hdisc : match mState sock with
                  | Connected => CB_OK | _ => CB_DISCONNECTED
                  end = CB_DISCONNECTED) by (by destruct (mState sock)).
  rewrite Hfalse in Hrun. rewrite Hdisc in Hadd.
  split.
  - intros Hfits. rewrite decide_True in Hrun by exact Hfits.
    rewrite decide_True in Hnew by exact Hfits.
    eexists _, _, _. split; [exact Hrun|].
    split; [eexists; split; [exact Hnew|exact Hadd]|].
    split; [by rewrite Hl|]. split; [reflexivity|].
    split; [reflexivity|].
    split; [cbn; apply lookup_insert_eq|]. cbn. lia.
  - intros Hfull. rewrite decide_False in Hrun by lia. exact Hrun.
Qed.

(** The instances for a fresh stream cloned from stream 1 on a draining
    socket: with the counter at 3 the call returns [false], the stream has
    id 3 and the counter stands at 5; and the same at the last id that can
    be handed out. *)
Lemma failed_clone_keeps_socket_and_id_witness :
  cloneFrom Examples.id_limit Examples.fresh_stream
    (Some (AsTCPStream Examples.stream1)) 7 8
    (Examples.world_with Examples.draining_socket 0)
  = Returns (false, mkTCPStream (Some 0%nat) 3%N 1%nat)
      (mkWorld {[0%nat := 0]} ∅
         {[0%nat := mkSocket Draining {[3%N := mkCallbacks 7 8 1%nat]}
                      5%N [] []]} [])
  ∧ cloneFrom Examples.id_limit Examples.fresh_stream
      (Some (AsTCPStream Examples.stream1)) 7 8
      (Examples.world_with
         (mkSocket Draining ∅ (2 ^ 63 - 3)%N [] []) 0)
    = Returns (false, mkTCPStream (Some 0%nat) (2 ^ 63 - 3)%N 1%nat)
        (mkWorld {[0%nat := 0]} ∅
           {[0%nat := mkSocket Draining
                        {[(2 ^ 63 - 3)%N := mkCallbacks 7 8 1%nat]}
                        (2 ^ 63 - 1)%N [] []]} []).
Proof.
  split.
  - destruct (failed_clone_keeps_socket_and_id Examples.id_limit
                Examples.fresh_stream Examples.stream1
                (Some (AsTCPStream Examples.stream1)) 7 8
                (Examples.world_with Examples.draining_socket 0) 0%nat
                Examples.draining_socket)
      as [Hfits _]; [reflexivity|reflexivity|reflexivity|discriminate|].
    destruct Hfits as (this' & w' & sock' & Hrun & _ & -> & -> & -> & _);
      [vm_compute; reflexivity|].
    rewrite Hrun. vm_compute. reflexivity.
  - destruct (failed_clone_keeps_socket_and_id Examples.id_limit
                Examples.fresh_stream Examples.stream1
                (Some (AsTCPStream Examples.stream1)) 7 8
                (Examples.world_with
                   (mkSocket Draining ∅ (2 ^ 63 - 3)%N [] []) 0) 0%nat
                (mkSocket Draining ∅ (2 ^ 63 - 3)%N [] []))
      as [Hfits _]; [reflexivity|reflexivity|reflexivity|discriminate|].
    destruct Hfits as (this' & w' & sock' & Hrun & _ & -> & -> & -> & _);
      [vm_compute; reflexivity|].
    rewrite Hrun. vm_compute. reflexivity.
Defined.

(** On a socket that is not Connected and whose counter is exhausted the
    call ends with StreamIdExhausted instead of returning [false]. *)
Example failed_clone_on_exhausted_counter :
  cloneFrom Examples.id_limit Examples.fresh_stream
    (Some (AsTCPStream Examples.stream1)) 7 8
    (Examples.world_with (mkSocket Draining ∅ (2 ^ 63 - 1)%N [] []) 0)
  = Faults StreamIdExhausted.
Proof. vm_compute. reflexivity. Qed.

End CloneClaims.

(** ** [IOServiceFactory::singletonIOService] *)

Module SingletonClaims.
Import IOServiceFactory.

Lemma call_once_keeps_pointer (st : Statics) :
  singleton_io (call_once_initializer st) = singleton_io st.
Proof. unfold call_once_initializer. by destruct (io_singleton st). Qed.

Lemma call_once_sets_flag (st : Statics) :
  io_singleton (call_once_initializer st) = true.
Proof.
  unfold call_once_initializer.
  by destruct (io_singleton st) eqn:E.
Qed.

Lemma singletonIOService_keeps_pointer (st : Statics) :
  singleton_io (singletonIOService st).1 = singleton_io st.
Proof. apply call_once_keeps_pointer. Qed.

Lemma perform_keeps_pointer (c : Call) (st : Statics) :
  singleton_io (perform c st) = singleton_io st.
Proof.
  destruct c as [| |io]; simpl.
  - apply call_once_keeps_pointer.
  - reflexivity.
  - unfold destroyIOService.
    destruct (negb (called_io_service st)); [reflexivity|].
    pose proof (singletonIOService_keeps_pointer st) as Hkeep.
    destruct (singletonIOService st) as [st' [l|]]; simpl in *; [|done].
    by destruct (decide (l = io)).
Qed.

Lemma perform_all_keeps_pointer (cs : list Call) (st : Statics) :
  singleton_io (perform_all cs st) = singleton_io st.
Proof.
  revert st. induction cs as [|c cs IH]; intros st; [reflexivity|].
  unfold perform_all in *. simpl. rewrite IH. apply perform_keeps_pointer.
Qed.

Lemma perform_keeps_flag_implies_called (c : Call) (st : Statics) :
  flag_implies_called st → flag_implies_called (perform c st).
Proof.
  unfold flag_implies_called.
  destruct st as [once called ptr lv], c as [| |io];
    unfold perform, singletonIOService, destroyIOService,
      singletonIOService, call_once_initializer, makeIOService; simpl.
  - destruct once; simpl; [done|]. by intros _ _.
  - done.
  - destruct called; simpl; [|done].
    destruct once; simpl; destruct ptr as [l|]; simpl;
      try destruct (decide (l = io)); simpl; done.
Qed.

Lemma perform_all_keeps_flag_implies_called (cs : list Call) (st : Statics) :
  flag_implies_called st → flag_implies_called (perform_all cs st).
Proof.
  revert st. induction cs as [|c cs IH]; intros st Hst; [exact Hst|].
  unfold perform_all in *. simpl.
  apply IH, perform_keeps_flag_implies_called, Hst.
Qed.

(** Claim C9. [io_service_initializer] stores the singleton's address in its
    by-value parameter only: the static pointer of [singletonIOService] is
    as before, whatever argument is passed.  Hence after any sequence of
    calls from program start that pointer is NULL, also once the
    once-initializer has run, and every call of [singletonIOService] forms
    its result by dereferencing NULL; so does [destroyIOService] once
    [called_io_service] is set. *)
Theorem singletonIOService_dereferences_null :
  (∀ io_ret st,
     (io_service_initializer io_ret st).2 = Some the_io
     ∧ singleton_io (io_service_initializer io_ret st).1 = singleton_io st
     ∧ called_io_service (io_service_initializer io_ret st).1 = true)
  ∧ (∀ calls : list Call,
       let st := perform_all calls startup in
       singleton_io st = None
       ∧ (singletonIOService st).2 = NullReference
       ∧ io_singleton (singletonIOService st).1 = true
       ∧ called_io_service (singletonIOService st).1 = true
       ∧ singleton_io (singletonIOService st).1 = None)
  ∧ (∀ (calls : list Call) (io : loc),
       called_io_service (perform_all calls startup) = true →
       (destroyIOService io (perform_all calls startup)).2 = DerefNull).
Proof.
  split; [|split].
  - intros io_ret st. repeat split.
  - intros calls st.
    assert (Hnull : singleton_io st = None).
    { subst st. by rewrite perform_all_keeps_pointer. }
    split; [exact Hnull|]. split.
    { unfold singletonIOService. simpl.
      by rewrite call_once_keeps_pointer, Hnull. }
    split; [apply call_once_sets_flag|]. split.
    { apply (perform_keeps_flag_implies_called CallSingleton st).
      - subst st. apply perform_all_keeps_flag_implies_called. discriminate.
      - apply call_once_sets_flag. }
    rewrite singletonIOService_keeps_pointer. exact Hnull.
  - intros calls io Hcalled. unfold destroyIOService. rewrite Hcalled.
    simpl. by rewrite call_once_keeps_pointer, perform_all_keeps_pointer.
Qed.

(** The first call after program start, and a [destroyIOService] after
    it. *)
Example first_singleton_call_is_null :
  singletonIOService startup
  = (mkStatics true true None ∅, NullReference)
  ∧ (destroyIOService 5%nat (perform_all [CallMake; CallSingleton] startup)).2
    = DerefNull.
Proof. split; reflexivity. Qed.

End SingletonClaims.

(** ** Senders and closers interleaved on one word *)

Module InterleavingFacts.
Import Interleaving.

Lemma tally_app f l1 l2 : tally f (l1 ++ l2) = tally f l1 + tally f l2.
Proof. induction l1 as [|t l1 IH]; simpl; [reflexivity|]. rewrite IH. lia. Qed.

Lemma tally_replicate f n t : tally f (replicate n t) = Z.of_nat n * f t.
Proof. induction n as [|n IH]; simpl; [reflexivity|]. rewrite IH. lia. Qed.

Lemma tally_insert f l i t t' :
  l !! i = Some t → tally f (<[i := t']> l) = tally f l - f t + f t'.
Proof.
  revert i. induction l as [|x l IH]; intros i; [done|].
  destruct i as [|i]; simpl.
  - intros [= ->]. lia.
  - intros Hi. rewrite (IH i Hi). lia.
Qed.

Lemma tally_nonneg f l : (∀ t, 0 ≤ f t) → 0 ≤ tally f l.
Proof.
  intros Hf. induction l as [|x l IH]; simpl; [lia|].
  specialize (Hf x). lia.
Qed.

Lemma tally_le f g l : (∀ t, f t ≤ g t) → tally f l ≤ tally g l.
Proof.
  intros Hfg. induction l as [|x l IH]; simpl; [lia|].
  specialize (Hfg x). lia.
Qed.


Lemma in_flight_range t : 0 ≤ in_flight t ≤ is_sender t.
Proof. destruct t as [[[] ? ?]|]; simpl; lia. Qed.

Lemma has_added_range t : 0 ≤ has_added t ≤ is_closer t.
Proof. destruct t as [|[? ? []]]; simpl; lia. Qed.

(** The closing field of a word made of [m] closers and [n] senders. *)
Lemma closing_field (k m n : Z) :
  0 ≤ k → 0 ≤ m ≤ 3 → 0 ≤ n < 2 ^ k →
  Z.land (2 ^ k * m + n) (3 * 2 ^ k) = 2 ^ k * m.
Proof.
  intros Hk Hm Hn. apply Z.bits_inj'. intros i Hi.
  rewrite Z.land_spec.
  rewrite (Z.mul_comm (2 ^ k) m), !Z.mul_pow2_bits by lia.
  destruct (Z.lt_ge_cases i k) as [Hlt|Hge].
  - rewrite (Z.testbit_neg_r 3), (Z.testbit_neg_r m) by lia.
    apply andb_false_r.
  - replace i with ((i - k) + k) at 1 by lia.
    rewrite <- Z.div_pow2_bits by lia.
    rewrite Z.div_add_l by lia.
    rewrite (Z.div_small n) by lia. rewrite Z.add_0_r.
    rewrite <- Z.land_spec. f_equal.
    assert (m = 0 ∨ m = 1 ∨ m = 2 ∨ m = 3) as [->|[->|[->| ->]]] by lia;
      reflexivity.
Qed.

Section PowerOfTwo.
(** [SendStatusClosing] as the design has it: a power of two above the
    number of concurrent senders, three of which fit an [int]. *)
Variable k : Z.
Hypothesis k_range : 2 ≤ k ≤ 29.
Local Abbreviation K := (2 ^ k).

Lemma K_bounds : 4 ≤ K ≤ 2 ^ 29.
Proof.
  split.
  - change 4 with (2 ^ 2). apply Z.pow_le_mono_r; lia.
  - apply Z.pow_le_mono_r; lia.
Qed.

Lemma sender_may_write_spec (m n : Z) :
  0 ≤ m ≤ 3 → 0 ≤ n ≤ 2 →
  SendStatus.sender_may_write K (K * m + n) = (m =? 0).
Proof.
  intros Hm Hn. pose proof K_bounds as HK.
  unfold SendStatus.sender_may_write.
  rewrite !Int32Facts.to_unsigned_id by nia.
  rewrite closing_field by lia.
  destruct (Z.eqb_spec m 0) as [->|Hne].
  - rewrite Z.mul_0_r. reflexivity.
  - apply Z.eqb_neq. nia.
Qed.

Lemma no_closer_seen_spec (m n : Z) :
  0 ≤ m ≤ 3 → 0 ≤ n ≤ 2 →
  SendStatus.no_closer_seen K (K * m + n) = (m =? 0).
Proof.
  intros Hm Hn. pose proof K_bounds as HK.
  unfold SendStatus.no_closer_seen.
  rewrite (Z.mul_comm K 3), closing_field by lia.
  destruct (Z.eqb_spec m 0) as [->|Hne].
  - rewrite Z.mul_0_r. reflexivity.
  - apply Z.eqb_neq. nia.
Qed.

Lemma lookup_insert_thread (l : list Thread) (tid i : nat) (t t' : Thread) :
  l !! tid = Some t →
  <[tid := t']> l !! i = if decide (i = tid) then Some t' else l !! i.
Proof.
  intros Ht. destruct (decide (i = tid)) as [->|Hne].
  - apply list_lookup_insert_eq. by eapply lookup_lt_Some.
  - by apply list_lookup_insert_ne.
Qed.

Lemma Inv_bounds (c : Config) :
  Inv K c →
  0 ≤ tally has_added (threads c) ≤ 3
  ∧ 0 ≤ tally in_flight (threads c) ≤ 2.
Proof.
  intros [_ Hs Hc _ _ _].
  pose proof (tally_nonneg has_added (threads c)
                (λ t, proj1 (has_added_range t))).
  pose proof (tally_nonneg in_flight (threads c)
                (λ t, proj1 (in_flight_range t))).
  pose proof (tally_le has_added is_closer (threads c)
                (λ t, proj2 (has_added_range t))).
  pose proof (tally_le in_flight is_sender (threads c)
                (λ t, proj2 (in_flight_range t))).
  lia.
Qed.

Lemma Inv_initial (senders closers : nat) :
  (senders ≤ 2)%nat → (closers ≤ 3)%nat →
  Inv K (initial senders closers).
Proof.
  intros Hs Hc. unfold initial. split; simpl.
  - rewrite !tally_app, !tally_replicate. simpl. lia.
  - rewrite !tally_app, !tally_replicate. simpl. lia.
  - rewrite !tally_app, !tally_replicate. simpl. lia.
  - intros i Hi. by apply elem_of_nil in Hi.
  - intros i s Hi _.
    apply list_elem_of_lookup_2, elem_of_app in Hi as [Hi|Hi];
      apply elem_of_replicate in Hi as [Hi _]; by inversion Hi.
  - intros i cl Hi _.
    apply list_elem_of_lookup_2, elem_of_app in Hi as [Hi|Hi];
      apply elem_of_replicate in Hi as [Hi _]; by inversion Hi.
Qed.
End PowerOfTwo.

Section Preservation.
Variable k : Z.
Hypothesis k_range : 2 ≤ k ≤ 29.
Local Abbreviation K := (2 ^ k).

(** One action of a sender keeps the invariant. *)
Lemma Inv_sender_step (c : Config) (tid : nat) (s s' : Sender)
    (sh' : Shared) :
  Inv K c →
  threads c !! tid = Some (SendCall s) →
  sender_step K tid s (shared c) = Some (s', sh') →
  Inv K (mkConfig (<[tid := SendCall s']> (threads c)) sh').
Proof.
  intros HInv Ht Hstep.
  pose proof (Inv_bounds k c HInv) as [Hm Hn].
  pose proof (K_bounds k k_range) as HK.
  destruct HInv as [Hword Hsenders Hclosers Hhanded Hsfresh Hcfresh].
  assert (Hlook := lookup_insert_thread (threads c) tid).
  pose proof (tally_insert in_flight _ _ _ (SendCall s') Ht) as Hfl.
  pose proof (tally_insert has_added _ _ _ (SendCall s') Ht) as Hadd.
  pose proof (tally_insert is_sender _ _ _ (SendCall s') Ht) as Hiss.
  pose proof (tally_insert is_closer _ _ _ (SendCall s') Ht) as Hisc.
  pose proof (tally_le in_flight is_sender
                (<[tid := SendCall s']> (threads c))
                (λ t, proj2 (in_flight_range t))) as Hle.
  simpl in Hadd, Hiss, Hisc.
  unfold sender_step in Hstep.
  destruct s as [pc v d]; simpl in *.
  destruct pc; simpl in *.
  - (* line 92: the increment *)
    injection Hstep as <- <-. simpl in *.
    split; simpl; try lia.
    + rewrite Hfl, Hadd. unfold SendStatus.pre_increment.
      rewrite Int32Facts.wrap_id; [lia|]. unfold Int32.in_range. nia.
    + intros i Hi. destruct (Hhanded i Hi) as (s0 & Hs0 & Hd0).
      rewrite (Hlook i _ _ Ht). destruct (decide (i = tid)) as [->|]; [|eauto].
      rewrite Ht in Hs0. injection Hs0 as <-. eauto.
    + intros i s0. rewrite (Hlook i _ _ Ht).
      destruct (decide (i = tid)) as [->|]; [|by eauto].
      intros [= <-] _. simpl. eapply (Hsfresh tid _ Ht). by left.
    + intros i cl. rewrite (Hlook i _ _ Ht).
      destruct (decide (i = tid)) as [->|]; [done|by eauto].
  - (* line 93: the test *)
    destruct (SendStatus.sender_may_write K v);
      injection Hstep as <- <-; simpl in *.
    + split; simpl; try lia.
      * intros i Hi. rewrite (Hlook i _ _ Ht).
        destruct (decide (i = tid)) as [->|Hne]; [eauto|].
        apply elem_of_app in Hi as [Hi|Hi]; [by eauto|].
        by apply list_elem_of_singleton in Hi.
      * intros i s0. rewrite (Hlook i _ _ Ht).
        destruct (decide (i = tid)) as [->|]; [|by eauto].
        intros [= <-]. simpl. by intros [|].
      * intros i cl. rewrite (Hlook i _ _ Ht).
        destruct (decide (i = tid)) as [->|]; [done|by eauto].
    + split; simpl; try lia.
      * intros i Hi. destruct (Hhanded i Hi) as (s0 & Hs0 & Hd0).
        rewrite (Hlook i _ _ Ht).
        destruct (decide (i = tid)) as [->|]; [|eauto].
        rewrite Ht in Hs0. injection Hs0 as <-. eauto.
      * intros i s0. rewrite (Hlook i _ _ Ht).
        destruct (decide (i = tid)) as [->|]; [|by eauto].
        intros [= <-]. simpl. by intros [|].
      * intros i cl. rewrite (Hlook i _ _ Ht).
        destruct (decide (i = tid)) as [->|]; [done|by eauto].
  - (* line 98: the decrement *)
    injection Hstep as <- <-. simpl in *.
    pose proof (tally_nonneg in_flight
                  (<[tid := SendCall (mkSender L99 v d)]> (threads c))
                  (λ t, proj1 (in_flight_range t))) as Hpos.
    split; simpl; try lia.
    + rewrite Hfl, Hadd. unfold SendStatus.pre_decrement.
      rewrite Hfl in Hpos. simpl in Hpos.
      rewrite Int32Facts.wrap_id; [simpl; lia|].
      unfold Int32.in_range. simpl in *. nia.
    + intros i Hi. destruct (Hhanded i Hi) as (s0 & Hs0 & Hd0).
      rewrite (Hlook i _ _ Ht). destruct (decide (i = tid)) as [->|]; [|eauto].
      rewrite Ht in Hs0. injection Hs0 as <-. eauto.
    + intros i s0. rewrite (Hlook i _ _ Ht).
      destruct (decide (i = tid)) as [->|]; [|by eauto].
      intros [= <-]. simpl. by intros [|].
    + intros i cl. rewrite (Hlook i _ _ Ht).
      destruct (decide (i = tid)) as [->|]; [done|by eauto].
  - (* line 99: the clean-up *)
    injection Hstep as <- <-. simpl in *.
    split; simpl; try lia.
    + destruct d; simpl; lia.
    + intros i Hi.
      assert (i ∈ handed (shared c)) as Hi' by (by destruct d).
      destruct (Hhanded i Hi') as (s0 & Hs0 & Hd0).
      rewrite (Hlook i _ _ Ht). destruct (decide (i = tid)) as [->|]; [|eauto].
      rewrite Ht in Hs0. injection Hs0 as <-. eauto.
    + intros i s0. rewrite (Hlook i _ _ Ht).
      destruct (decide (i = tid)) as [->|]; [|by eauto].
      intros [= <-]. simpl. by intros [|].
    + intros i cl. rewrite (Hlook i _ _ Ht).
      destruct (decide (i = tid)) as [->|]; [done|by eauto].
  - discriminate.
Qed.
End Preservation.

Section PreservationCloser.
Variable k : Z.
Hypothesis k_range : 2 ≤ k ≤ 29.
Local Abbreviation K := (2 ^ k).

(** One action of a closer keeps the invariant. *)
Lemma Inv_closer_step (c : Config) (tid : nat) (cl cl' : Closer)
    (sh' : Shared) :
  Inv K c →
  threads c !! tid = Some (CloseCall cl) →
  closer_step K cl (shared c) = Some (cl', sh') →
  Inv K (mkConfig (<[tid := CloseCall cl']> (threads c)) sh').
Proof.
  intros HInv Ht Hstep.
  pose proof (Inv_bounds k c HInv) as [Hm Hn].
  pose proof (K_bounds k k_range) as HK.
  destruct HInv as [Hword Hsenders Hclosers Hhanded Hsfresh Hcfresh].
  assert (Hlook := lookup_insert_thread (threads c) tid).
  pose proof (tally_insert in_flight _ _ _ (CloseCall cl') Ht) as Hfl.
  pose proof (tally_insert has_added _ _ _ (CloseCall cl') Ht) as Hadd.
  pose proof (tally_insert is_sender _ _ _ (CloseCall cl') Ht) as Hiss.
  pose proof (tally_insert is_closer _ _ _ (CloseCall cl') Ht) as Hisc.
  pose proof (tally_le has_added is_closer
                (<[tid := CloseCall cl']> (threads c))
                (λ t, proj2 (has_added_range t))) as Hle.
  simpl in Hfl, Hiss, Hisc.
  assert (Hothers :
    ∀ sh, handed sh = handed (shared c) →
      ∀ i, i ∈ handed sh →
        ∃ s, <[tid := CloseCall cl']> (threads c) !! i = Some (SendCall s)
             ∧ didsend s = true).
  { intros sh Hsh i Hi. rewrite Hsh in Hi.
    destruct (Hhanded i Hi) as (s0 & Hs0 & Hd0).
    rewrite (Hlook i _ _ Ht).
    destruct (decide (i = tid)) as [->|]; [congruence|eauto]. }
  assert (Hsenders' :
    ∀ i s, <[tid := CloseCall cl']> (threads c) !! i = Some (SendCall s) →
           spc s = L92 ∨ spc s = L93 → didsend s = false).
  { intros i s. rewrite (Hlook i _ _ Ht).
    destruct (decide (i = tid)) as [->|]; [done|by eauto]. }
  unfold closer_step in Hstep.
  destruct cl as [pc v b]; simpl in *.
  destruct pc; simpl in *.
  - (* line 107: the read *)
    injection Hstep as <- <-. simpl in *.
    split; simpl; try lia; [by apply Hothers|exact Hsenders'|].
    intros i cl0. rewrite (Hlook i _ _ Ht).
    destruct (decide (i = tid)) as [->|]; [|by eauto].
    intros [= <-] _. simpl. eapply (Hcfresh tid _ Ht). by left.
  - (* line 109: the guarded addition *)
    assert (b = false) as -> by (eapply (Hcfresh tid _ Ht); by right).
    destruct (SendStatus.no_closer_seen K v);
      injection Hstep as <- <-; simpl in *.
    + split; simpl; try lia; [|by apply Hothers|exact Hsenders'|].
      * rewrite Hfl, Hadd. unfold SendStatus.add_closing. simpl.
        rewrite Hadd in Hle. simpl in Hle.
        rewrite Int32Facts.wrap_id; [lia|]. unfold Int32.in_range. nia.
      * intros i cl0. rewrite (Hlook i _ _ Ht).
        destruct (decide (i = tid)) as [->|]; [|by eauto].
        intros [= <-]. simpl. by intros [|].
    + split; simpl; try lia; [by apply Hothers|exact Hsenders'|].
      intros i cl0. rewrite (Hlook i _ _ Ht).
      destruct (decide (i = tid)) as [->|]; [|by eauto].
      intros [= <-]. simpl. by intros [|].
  - (* line 115: one read of the spin-wait *)
    destruct (SendStatus.keep_spinning K (word (shared c)));
      injection Hstep as <- <-; simpl in *.
    + split; simpl; try lia; [by apply Hothers|exact Hsenders'|].
      intros i cl0. rewrite (Hlook i _ _ Ht).
      destruct (decide (i = tid)) as [->|]; [|by eauto].
      intros [= <-]. simpl. by intros [|].
    + split; simpl; try lia; [by apply Hothers|exact Hsenders'|].
      intros i cl0. rewrite (Hlook i _ _ Ht).
      destruct (decide (i = tid)) as [->|]; [|by eauto].
      intros [= <-]. simpl. by intros [|].
  - discriminate.
Qed.

Lemma Inv_step (c c' : Config) : Inv K c → step K c c' → Inv K c'.
Proof.
  intros HInv (tid & t & t' & sh' & Ht & Hstep & ->).
  destruct t as [s|cl]; simpl in Hstep.
  - destruct (sender_step K tid s (shared c)) as [[s' sh'']|] eqn:E;
      [|discriminate].
    injection Hstep as <- <-.
    by eapply Inv_sender_step.
  - destruct (closer_step K cl (shared c)) as [[cl' sh'']|] eqn:E;
      [|discriminate].
    injection Hstep as <- <-.
    by eapply Inv_closer_step.
Qed.

End PreservationCloser.



(** What [run] does is an interleaving. *)
Lemma run_reachable (K : Z) (sched : list nat) (c : Config) :
  rtc (step K) c (run K sched c).
Proof.
  revert c. induction sched as [|tid sched IH]; intros c; simpl;
    [apply rtc_refl|].
  destruct (threads c !! tid) as [t|] eqn:Ht; [|apply IH].
  destruct (thread_step K tid t (shared c)) as [[t' sh']|] eqn:Hstep;
    [|apply IH].
  eapply rtc_l; [|apply IH]. exists tid, t, t', sh'. done.
Qed.




(** The same schedule, evaluated: in the end the word holds one closer and
    no sender, nothing was handed to the socket and both senders deleted
    their chunks.  When the three closers all read the word before any of
    them adds, the word ends at three times [SendStatusClosing]. *)
Example all_returned_state :
  shared Examples.all_returned = mkShared Examples.K29 [] [0; 1]%nat
  ∧ word (shared (run Examples.K29 [2; 3; 4; 2; 3; 4; 2; 3; 4]%nat
                      (initial 2 3)))
    = 3 * Examples.K29.
Proof. split; vm_compute; reflexivity. Qed.

End InterleavingFacts.

(** ** [SubscriptionId]: equality and ordering *)

Module SubscriptionIdFacts.
Import SubscriptionIdModel.

Lemma compare_refl (s : string) : String.compare s s = Eq.
Proof.
  induction s as [|c s IH]; simpl; [reflexivity|].
  unfold Ascii.compare. by rewrite N.compare_refl.
Qed.

Lemma compare_Eq (a b : string) : String.compare a b = Eq ↔ a = b.
Proof.
  split; [apply String.compare_eq_iff|]. intros ->. apply compare_refl.
Qed.

Lemma compare_Gt (a b : string) :
  String.compare a b = Gt ↔ String.compare b a = Lt.
Proof.
  rewrite (String.compare_antisym a b).
  destruct (String.compare b a); simpl; split; congruence.
Qed.

Lemma compare_Lt_trans (a b c : string) :
  String.compare a b = Lt → String.compare b c = Lt →
  String.compare a c = Lt.
Proof.
  revert b c. induction a as [|x a IH]; intros [|y b] [|z c]; simpl;
    try congruence.
  unfold Ascii.compare.
  destruct (N.compare_spec (Ascii.N_of_ascii x) (Ascii.N_of_ascii y)) as [Hxy|Hxy|Hxy];
    destruct (N.compare_spec (Ascii.N_of_ascii y) (Ascii.N_of_ascii z)) as [Hyz|Hyz|Hyz];
    try congruence; intros Hab Hbc.
  - rewrite Hxy, Hyz, N.compare_refl. by eapply IH.
  - rewrite Hxy. by rewrite (proj2 (N.compare_lt_iff _ _) Hyz).
  - rewrite <- Hyz. by rewrite (proj2 (N.compare_lt_iff _ _) Hxy).
  - assert (Ascii.N_of_ascii x < Ascii.N_of_ascii z)%N as Hxz by lia.
    by rewrite (proj2 (N.compare_lt_iff _ _) Hxz).
Qed.

Lemma string_less_irrefl (s : string) : string_less s s = false.
Proof. unfold string_less. by rewrite compare_refl. Qed.

Lemma string_less_trans (a b c : string) :
  string_less a b = true → string_less b c = true → string_less a c = true.
Proof.
  unfold string_less.
  destruct (String.compare a b) eqn:Hab; try discriminate.
  destruct (String.compare b c) eqn:Hbc; try discriminate.
  by rewrite (compare_Lt_trans a b c Hab Hbc).
Qed.

(** Two different strings are ordered one way or the other. *)
Lemma string_less_total (a b : string) :
  a ≠ b → string_less a b = true ∨ string_less b a = true.
Proof.
  intros Hne. unfold string_less.
  destruct (String.compare a b) eqn:Hab.
  - by apply compare_Eq in Hab.
  - by left.
  - apply compare_Gt in Hab. rewrite Hab. by right.
Qed.

(** [operator==] holds exactly when the pointers are equal, the class ids
    are both NULL or have the same characters, and the unique ids are equal;
    so it is reflexive, symmetric and transitive. *)
Theorem op_eq_is_field_equality (a b c : SubscriptionId) :
  (op_eq a b = true ↔ a = b)
  ∧ op_eq a a = true
  ∧ op_eq a b = op_eq b a
  ∧ (op_eq a b = true → op_eq b c = true → op_eq a c = true).
Proof.
  assert (Hspec : ∀ x y, op_eq x y = true ↔ x = y).
  { intros [p [k|] u] [p' [k'|] u']; unfold op_eq, strcmp; simpl;
      destruct (N.eqb_spec p p') as [->|Hp]; simpl;
      try (split; [discriminate|congruence]).
    - destruct (String.compare k k') eqn:Hk.
      + apply compare_Eq in Hk as ->. rewrite String.eqb_eq.
        split; congruence.
      + split; [discriminate|]. intros [= ->].
        by rewrite compare_refl in Hk.
      + split; [discriminate|]. intros [= ->].
        by rewrite compare_refl in Hk.
    - rewrite String.eqb_eq. split; congruence. }
  split; [apply Hspec|]. split; [by apply Hspec|]. split.
  - destruct (op_eq a b) eqn:Hab, (op_eq b a) eqn:Hba; try reflexivity.
    + apply Hspec in Hab as ->. by rewrite (proj2 (Hspec b b) eq_refl) in Hba.
    + apply Hspec in Hba as ->. by rewrite (proj2 (Hspec a a) eq_refl) in Hab.
  - intros Hab%Hspec Hbc%Hspec. apply Hspec. congruence.
Qed.

(** [operator<] is a strict order: nothing is below itself, two ids are
    never below each other, and it is transitive. *)
Theorem op_lt_strict_order (a b c : SubscriptionId) :
  op_lt a a = false
  ∧ (op_lt a b = true → op_lt b a = false)
  ∧ (op_lt a b = true → op_lt b c = true → op_lt a c = true).
Proof.
  destruct a as [pa ka ua], b as [pb kb ub], c as [pc kc uc].
  unfold op_lt, strcmp; simpl. split; [|split].
  - rewrite N.eqb_refl. destruct ka as [k|]; simpl; [|reflexivity].
    by rewrite compare_refl, string_less_irrefl.
  - destruct (N.eqb_spec pa pb) as [->|Hp].
    + rewrite N.eqb_refl.
      destruct ka as [k|], kb as [k'|]; simpl; try done.
      rewrite (String.compare_antisym k' k).
      destruct (String.compare k k') eqn:Hk; simpl; try done.
      unfold string_less. rewrite (String.compare_antisym ub ua).
      by destruct (String.compare ua ub).
    + rewrite (proj2 (N.eqb_neq pb pa)) by congruence.
      rewrite N.ltb_lt. intros Hlt. apply N.ltb_ge. lia.
  - destruct (N.eqb_spec pa pb) as [->|Hab];
      destruct (N.eqb_spec pb pc) as [->|Hbc].
    + destruct ka as [k|], kb as [k'|], kc as [k''|]; simpl; try done.
      destruct (String.compare k k') eqn:H1; try done;
        destruct (String.compare k' k'') eqn:H2; try done.
      * apply compare_Eq in H1 as ->. rewrite H2. apply string_less_trans.
      * apply compare_Eq in H1 as ->. by rewrite H2.
      * apply compare_Eq in H2 as ->. by rewrite H1.
      * by rewrite (compare_Lt_trans k k' k'' H1 H2).
    + by intros _ H.
    + rewrite (proj2 (N.eqb_neq pa pc)) by congruence. by intros H _.
    + rewrite !N.ltb_lt. intros H1 H2.
      rewrite (proj2 (N.eqb_neq pa pc)) by lia. apply N.ltb_lt. lia.
Qed.

(** Two ids with the same pointer and both class ids NULL are never ordered
    by [operator<], whatever their unique ids: line 83 returns [false]
    before the unique ids are looked at.  So such a pair with different
    unique ids is neither equal nor ordered either way, and this is the only
    way for a pair to be neither: in every other case one of [a < b],
    [a == b], [b < a] holds. *)
Theorem op_lt_trichotomy_except_null_classes (a b : SubscriptionId) :
  let unordered :=
    mThisPtr a = mThisPtr b ∧ mClassId a = None ∧ mClassId b = None
    ∧ mUniqueId a ≠ mUniqueId b in
  (unordered →
     op_lt a b = false ∧ op_lt b a = false ∧ op_eq a b = false)
  ∧ (¬ unordered →
     op_lt a b = true ∨ op_eq a b = true ∨ op_lt b a = true).
Proof.
  destruct a as [pa ka ua], b as [pb kb ub]. simpl. split.
  - intros (-> & -> & -> & Hne). unfold op_lt, op_eq. simpl.
    rewrite N.eqb_refl. simpl. repeat split.
    by apply String.eqb_neq.
  - intros Hnot. unfold op_lt, op_eq, strcmp. simpl.
    destruct (N.eqb_spec pa pb) as [->|Hp].
    + rewrite N.eqb_refl. simpl.
      destruct ka as [k|], kb as [k'|]; simpl; try tauto.
      * rewrite (String.compare_antisym k' k).
        destruct (String.compare k k') eqn:Hk; simpl; try tauto.
        destruct (decide (ua = ub)) as [->|Hne].
        -- right. left. apply String.eqb_refl.
        -- destruct (string_less_total ua ub Hne); tauto.
      * destruct (decide (ua = ub)) as [->|Hne].
        -- right. left. apply String.eqb_refl.
        -- exfalso. apply Hnot. done.
    + rewrite (proj2 (N.eqb_neq pb pa)) by congruence.
      destruct (N.lt_total pa pb) as [H|[H|H]]; [|done|].
      * left. by apply N.ltb_lt.
      * right. right. by apply N.ltb_lt.
Qed.

(** Nothing is below [null()]; [null()] is below every id that has a
    non-NULL pointer or a non-NULL class id, and equal only to ids with
    NULL pointer, NULL class id and empty unique id. *)
Theorem null_is_minimal (b : SubscriptionId) :
  op_lt b null = false
  ∧ (op_lt null b = true ↔ mThisPtr b ≠ 0%N ∨ mClassId b ≠ None)
  ∧ (op_eq null b = true ↔ b = null).
Proof.
  destruct b as [p k u]. unfold op_lt, op_eq, null.
  cbn [mThisPtr mClassId mUniqueId].
  split; [|split].
  - destruct (N.eqb_spec p 0) as [->|Hp].
    + by destruct k.
    + apply N.ltb_ge. lia.
  - destruct (N.eqb_spec 0 p) as [<-|Hp].
    + destruct k; simpl; split; try done.
      * intros _. by right.
      * intros [|]; done.
    + rewrite N.ltb_lt. split; [intros _; left; congruence|lia].
  - destruct (N.eqb_spec 0 p) as [<-|Hp]; cbn [negb].
    + destruct k; simpl; [split; [discriminate|congruence]|].
      destruct u; split; (done || congruence).
    + split; [discriminate|congruence].
Qed.

End SubscriptionIdFacts.

(** ** [AutoSingleton]: the instance pointer never dangles *)

Module AutoSingletonFacts.
Import AutoSingletonModel.

Lemma perform_keeps_instance_alive (o : Op) (st : State) :
  instance_alive st → instance_alive (perform o st).
Proof.
  unfold instance_alive. destruct st as [inst objs], o as [|p| |]; simpl.
  - destruct inst as [q|]; simpl; set_solver.
  - destruct (decide (p ∈ objs)) as [Hp|Hp]; simpl; [|done].
    destruct inst as [q|]; simpl; [|done].
    destruct (decide (Some q = Some p)) as [Heq|Hne]; simpl; [done|].
    intros Hq. apply elem_of_difference. split; [done|].
    intros ->%elem_of_singleton. done.
  - destruct inst as [q|]; simpl; [done|]. set_solver.
  - done.
Qed.

Lemma perform_all_keeps_instance_alive (os : list Op) (st : State) :
  instance_alive st → instance_alive (perform_all os st).
Proof.
  revert st. induction os as [|o os IH]; intros st Hst; [exact Hst|].
  unfold perform_all in *. simpl. apply IH, perform_keeps_instance_alive, Hst.
Qed.

(** After any sequence of constructions, destructions of existing objects,
    [getSingleton] and [destroy] calls from program start, [sInstance] is
    NULL or points to an object that still exists: deleting the instance by
    hand clears the pointer too. *)
Theorem sInstance_never_dangles (os : list Op) :
  match sInstance (perform_all os startup) with
  | Some p => p ∈ objects (perform_all os startup)
  | None => True
  end.
Proof.
  apply (perform_all_keeps_instance_alive os startup). exact I.
Qed.

(** In every state so reached, [getSingleton] returns an object that
    exists and is the instance afterwards; a second call returns the same
    object and changes nothing; when an instance existed it is the one
    returned and nothing is allocated, and otherwise exactly one new object
    is made. *)
Theorem getSingleton_returns_the_live_instance (os : list Op) :
  let st := perform_all os startup in
  ∃ p : loc,
    (getSingleton st).2 = Some p
    ∧ p ∈ objects (getSingleton st).1
    ∧ sInstance (getSingleton st).1 = Some p
    ∧ getSingleton (getSingleton st).1 = ((getSingleton st).1, Some p)
    ∧ (∀ q, sInstance st = Some q → p = q ∧ (getSingleton st).1 = st)
    ∧ (sInstance st = None →
       (p ∉ objects st)
       ∧ objects (getSingleton st).1 = {[p]} ∪ objects st).
Proof.
  intros st.
  pose proof (perform_all_keeps_instance_alive os startup I) as Halive.
  fold st in Halive. unfold instance_alive in Halive.
  destruct st as [[q|] objs]; unfold getSingleton; simpl in *.
  - exists q. split; [done|]. split; [done|]. split; [done|].
    split; [done|]. split; [|done]. by intros ? [= ->].
  - exists (fresh objs). split; [done|]. split; [set_solver|].
    split; [done|]. split; [done|]. split; [done|].
    intros _. split; [apply is_fresh|done].
Qed.

(** [destroy] ends the life of the instance and of nothing else, and the
    next [getSingleton] makes a new object. *)
Theorem destroy_then_getSingleton_makes_a_new_object (os : list Op) :
  let st := perform_all os startup in
  sInstance (destroy st) = None
  ∧ (∀ q, sInstance st = Some q →
          (q ∉ objects (destroy st))
          ∧ objects (destroy st) = objects st ∖ {[q]})
  ∧ (sInstance st = None → objects (destroy st) = objects st)
  ∧ ∃ p, (getSingleton (destroy st)).2 = Some p
         ∧ (p ∉ objects (destroy st))
         ∧ p ∈ objects (getSingleton (destroy st)).1.
Proof.
  intros st. destruct st as [[q|] objs]; unfold destroy, getSingleton; simpl.
  - split; [done|]. split.
    { intros q' Hq'. injection Hq' as <-. split; [|done].
      intros [_ Hq]%elem_of_difference. apply Hq. by apply elem_of_singleton. }
    split; [done|].
    exists (fresh (objs ∖ {[q]})). split; [done|].
    split; [apply is_fresh|set_solver].
  - split; [done|]. split; [done|]. split; [done|].
    exists (fresh objs). split; [done|].
    split; [apply is_fresh|set_solver].
Qed.

End AutoSingletonFacts.

(** ** Calls of [send] and [close] run one after the other *)

Module RunFacts.
Import MultiplexedSocketModel TCPStreamModel TCPStreamLifecycle.

Section Runs.
Variable SendStatusClosing : Z.
Variable StreamID_serialize : StreamID → list byte.
Variable uint30_serialize : Z → list byte.
Local Abbreviation K := SendStatusClosing.
Local Abbreviation send' := (send K StreamID_serialize uint30_serialize).

Lemma send_run_closing (this : TCPStream) (payload : list byte)
    (reliability : StreamReliability) (w : World) (v : Z) :
  fits StreamID_serialize uint30_serialize (mID this) payload →
  atomics w !! mSendStatus this = Some v →
  Int32.in_range v →
  SendStatus.sender_may_write K (SendStatus.pre_increment v) = false →
  send' this payload reliability w
  = Returns tt (mkWorld (atomics w) (chunks w) (sockets w)
                        (silog w ++ [closed_stream_entry this])).
Proof.
  intros [Hsid Hlen] Hword Hrange Hclosing. unfold send.
  rewrite (bind_returns _ _ _ _ _
             (SendFacts.send_encode_returns StreamID_serialize
                uint30_serialize this payload reliability w Hsid Hlen)).
  rewrite bind_unfold.
  erewrite (CoordinateFacts.send_coordinate_drops K this _ _ v);
    [| exact Hword | exact Hrange | exact Hclosing
     | cbn; apply lookup_insert_eq].
  rewrite ret_unfold. cbn. f_equal. f_equal.
  rewrite delete_insert_eq. apply delete_id, SendClaims.fresh_chunk_unused.
Qed.

Lemma send_run_open (this : TCPStream) (payload : list byte)
    (reliability : StreamReliability) (w : World) (v : Z) (l : loc)
    (sock : MultiplexedSocket) :
  fits StreamID_serialize uint30_serialize (mID this) payload →
  atomics w !! mSendStatus this = Some v →
  Int32.in_range v →
  SendStatus.sender_may_write K (SendStatus.pre_increment v) = true →
  mSocket this = Some l →
  sockets w !! l = Some sock →
  send' this payload reliability w
  = Returns tt
      (mkWorld (atomics w)
         (<[fresh (dom (chunks w)) :=
              wire_frame StreamID_serialize uint30_serialize (mID this)
                         payload]> (chunks w))
         (<[l := with_request sock
                   (mkRawRequest (mID this) (reliability_flags reliability).1
                      (reliability_flags reliability).2
                      (fresh (dom (chunks w))))]> (sockets w))
         (silog w)).
Proof.
  intros [Hsid Hlen] Hword Hrange Hopen Hsock Hlive. unfold send.
  rewrite (bind_returns _ _ _ _ _
             (SendFacts.send_encode_returns StreamID_serialize
                uint30_serialize this payload reliability w Hsid Hlen)).
  rewrite bind_unfold.
  erewrite (CoordinateFacts.send_coordinate_sends K this _ _ v l sock);
    try eassumption.
  reflexivity.
Qed.

(** [close] on a word that shows no sender once the closer is counted. *)
Lemma close_run (fuel : nat) (this : TCPStream) (w : World) (v : Z)
    (l : loc) (sock : MultiplexedSocket) :
  atomics w !! mSendStatus this = Some v →
  mSocket this = Some l →
  sockets w !! l = Some sock →
  let v' := if SendStatus.no_closer_seen K v
            then SendStatus.add_closing K v else v in
  SendStatus.keep_spinning K v' = false →
  close K (S fuel) this w
  = Returns tt
      (mkWorld (<[mSendStatus this := v']> (atomics w)) (chunks w)
         (<[l := with_control (without_callbacks sock (mID this))
                              (CLOSE_STREAM (mID this))]> (sockets w))
         (silog w)).
Proof.
  intros Hword Hl Hsock v' Hexit. unfold close_on.
  rewrite bind_unfold.
  rewrite (CloseClaims.closeSendStatus_alone K fuel _ w v Hword).
  subst v'. destruct (SendStatus.no_closer_seen K v); rewrite Hexit.
  - rewrite bind_unfold. unfold addCallbacks, deref_socket, getID.
    rewrite bind_unfold, Hl. cbn [sockets set_atomics]. rewrite Hsock.
    rewrite bind_unfold. unfold store_socket. rewrite ret_unfold.
    unfold closeStream, deref_socket. rewrite bind_unfold.
    cbn [sockets set_sockets set_atomics]. rewrite lookup_insert_eq.
    unfold store_socket, set_sockets, set_atomics, with_control,
      without_callbacks. cbn. by rewrite insert_insert_eq.
  - rewrite bind_unfold. unfold addCallbacks, deref_socket, getID.
    rewrite bind_unfold, Hl. rewrite Hsock.
    rewrite bind_unfold. unfold store_socket. rewrite ret_unfold.
    unfold closeStream, deref_socket. rewrite bind_unfold.
    cbn [sockets set_sockets]. rewrite lookup_insert_eq.
    unfold store_socket, set_sockets, with_control, without_callbacks. cbn.
    rewrite insert_insert_eq. by rewrite (insert_id _ _ _ Hword).
Qed.
End Runs.
End RunFacts.

(** ** The word at rest, for [SendStatusClosing] a power of two *)

Module WordFacts.

Lemma at_rest (k : Z) :
  2 ≤ k ≤ 29 →
  0 < 2 ^ k < 2 ^ 31
  ∧ Int32.in_range (2 ^ k)
  ∧ SendStatus.no_closer_seen (2 ^ k) 0 = true
  ∧ SendStatus.add_closing (2 ^ k) 0 = 2 ^ k
  ∧ SendStatus.keep_spinning (2 ^ k) (2 ^ k) = false
  ∧ SendStatus.no_closer_seen (2 ^ k) (2 ^ k) = false
  ∧ SendStatus.sender_may_write (2 ^ k) (SendStatus.pre_increment 0) = true
  ∧ SendStatus.sender_may_write (2 ^ k) (SendStatus.pre_increment (2 ^ k))
    = false.
Proof.
  intros Hk. pose proof (InterleavingFacts.K_bounds k Hk) as HK.
  assert (Hrange : Int32.in_range (2 ^ k)) by (unfold Int32.in_range; lia).
  split; [lia|]. split; [exact Hrange|]. split.
  { unfold SendStatus.no_closer_seen. by rewrite Z.land_0_l. }
  split.
  { unfold SendStatus.add_closing. by apply Int32Facts.wrap_id. }
  split.
  { unfold SendStatus.keep_spinning. by rewrite Z.eqb_refl. }
  split.
  { replace (2 ^ k) with (2 ^ k * 1 + 0) at 2 by lia.
    rewrite InterleavingFacts.no_closer_seen_spec by lia. reflexivity. }
  split.
  { unfold SendStatus.pre_increment.
    rewrite Int32Facts.wrap_id by (unfold Int32.in_range; lia).
    replace (0 + 1) with (2 ^ k * 0 + 1) by lia.
    rewrite InterleavingFacts.sender_may_write_spec by lia. reflexivity. }
  unfold SendStatus.pre_increment.
  rewrite Int32Facts.wrap_id by (unfold Int32.in_range; lia).
  replace (2 ^ k + 1) with (2 ^ k * 1 + 1) by lia.
  rewrite InterleavingFacts.sender_may_write_spec by lia. reflexivity.
Qed.

End WordFacts.

(** ** [close], [send], [connect] and the constructor in sequence *)

Module StreamSequences.
Import MultiplexedSocketModel TCPStreamModel TCPStreamLifecycle.

(** A [send] on a stream after its [close] has returned is dropped: the
    socket holds the CLOSE_STREAM frame and no new request, the chunk is
    gone from the heap, the word stays at [SendStatusClosing] and the call
    logs line 102. *)
Theorem send_after_close_is_dropped
    (k : Z) (fuel : nat)
    (StreamID_serialize : StreamID → list byte)
    (uint30_serialize : Z → list byte)
    (this : TCPStream) (payload : list byte) (reliability : StreamReliability)
    (w : World) (l : loc) (sock : MultiplexedSocket) :
  2 ≤ k ≤ 29 →
  fits StreamID_serialize uint30_serialize (mID this) payload →
  atomics w !! mSendStatus this = Some 0 →
  mSocket this = Some l →
  sockets w !! l = Some sock →
  (close (2 ^ k) (S fuel) this ≫= λ _,
   send (2 ^ k) StreamID_serialize uint30_serialize this payload reliability)
    w
  = Returns tt
      (mkWorld (<[mSendStatus this := 2 ^ k]> (atomics w)) (chunks w)
         (<[l := mkSocket (mState sock) (delete (mID this) (mCallbacks sock))
                   (mNextStreamID sock) (mPending sock)
                   (mControl sock ++ [CLOSE_STREAM (mID this)])]> (sockets w))
         (silog w ++ [closed_stream_entry this])).
Proof.
  intros Hk Hfits Hword Hl Hsock.
  destruct (WordFacts.at_rest k Hk)
    as (HK & Hrange & Hfirst & Hadd & Hexit & _ & _ & Hclosing).
  rewrite bind_unfold.
  rewrite (RunFacts.close_run (2 ^ k) fuel this w 0 l sock Hword Hl Hsock)
    by (by rewrite Hfirst, Hadd).
  rewrite Hfirst, Hadd.
  erewrite (RunFacts.send_run_closing (2 ^ k) _ _ this payload reliability
              _ (2 ^ k) Hfits); [reflexivity| |exact Hrange|exact Hclosing].
  cbn. apply lookup_insert_eq.
Qed.

(** The instance for "hello" on stream 1 of a connected socket. *)
Lemma send_after_close_is_dropped_witness :
  (close Examples.K29 1 Examples.stream1 ≫= λ _,
   Examples.send1 Examples.stream1 Examples.hello ReliableOrdered)
    (Examples.world_with Examples.connected_socket 0)
  = Returns tt
      (mkWorld {[0%nat := Examples.K29]} ∅
         {[0%nat := mkSocket Connected ∅ 3%N [] [CLOSE_STREAM 1%N]]}
         [mkLog "tcpsst" "debug" "printing to closed stream id 1"]).
Proof.
  etransitivity.
  - apply (send_after_close_is_dropped 29 0 Varint.StreamID_serialize
             Varint.uint30_serialize Examples.stream1 Examples.hello
             ReliableOrdered
             (Examples.world_with Examples.connected_socket 0)
             0%nat Examples.connected_socket).
    + lia.
    + split; vm_compute; lia.
    + reflexivity.
    + reflexivity.
    + reflexivity.
  - vm_compute. reflexivity.
Defined.

(** A second [close] of the same stream returns as well: the word stays at
    [SendStatusClosing] (nothing is added the second time) and the socket is
    asked for a second CLOSE_STREAM frame. *)
Theorem close_twice
    (k : Z) (fuel fuel' : nat) (this : TCPStream)
    (w : World) (l : loc) (sock : MultiplexedSocket) :
  2 ≤ k ≤ 29 →
  atomics w !! mSendStatus this = Some 0 →
  mSocket this = Some l →
  sockets w !! l = Some sock →
  (close (2 ^ k) (S fuel) this ≫= λ _, close (2 ^ k) (S fuel') this) w
  = Returns tt
      (mkWorld (<[mSendStatus this := 2 ^ k]> (atomics w)) (chunks w)
         (<[l := mkSocket (mState sock) (delete (mID this) (mCallbacks sock))
                   (mNextStreamID sock) (mPending sock)
                   (mControl sock
                      ++ [CLOSE_STREAM (mID this); CLOSE_STREAM (mID this)])]>
            (sockets w))
         (silog w)).
Proof.
  intros Hk Hword Hl Hsock.
  destruct (WordFacts.at_rest k Hk)
    as (HK & Hrange & Hfirst & Hadd & Hexit & Hlater & _).
  rewrite bind_unfold.
  rewrite (RunFacts.close_run (2 ^ k) fuel this w 0 l sock Hword Hl Hsock)
    by (by rewrite Hfirst, Hadd).
  rewrite Hfirst, Hadd.
  erewrite (RunFacts.close_run (2 ^ k) fuel' this _ (2 ^ k) l);
    [| cbn; apply lookup_insert_eq | exact Hl | cbn; apply lookup_insert_eq
     | by rewrite Hlater].
  rewrite Hlater. cbn. f_equal. f_equal.
  - by rewrite insert_insert_eq.
  - rewrite insert_insert_eq. f_equal. unfold with_control, without_callbacks.
    cbn. f_equal.
    + by rewrite delete_delete_eq.
    + by rewrite <- (assoc_L (++)).
Qed.

(** The instance for stream 1 of a connected socket. *)
Lemma close_twice_witness :
  (close Examples.K29 1 Examples.stream1 ≫= λ _,
   close Examples.K29 1 Examples.stream1)
    (Examples.world_with Examples.connected_socket 0)
  = Returns tt
      (mkWorld {[0%nat := Examples.K29]} ∅
         {[0%nat := mkSocket Connected ∅ 3%N []
                      [CLOSE_STREAM 1%N; CLOSE_STREAM 1%N]]} []).
Proof.
  etransitivity.
  - apply (close_twice 29 0 0 Examples.stream1
             (Examples.world_with Examples.connected_socket 0)
             0%nat Examples.connected_socket).
    + lia.
    + reflexivity.
    + reflexivity.
    + reflexivity.
  - vm_compute. reflexivity.
Defined.

(** Two streams made by the constructor of line 46 on one socket have
    different send-status words, so closing the first does not stop the
    second: after [close] of A, a [send] on B is handed to the socket, behind
    the CLOSE_STREAM frame for A, and B's word is back at 0. *)
Theorem close_leaves_sibling_stream_open
    (k : Z) (fuel : nat)
    (StreamID_serialize : StreamID → list byte)
    (uint30_serialize : Z → list byte)
    (sidA sidB : StreamID) (payload : list byte)
    (reliability : StreamReliability)
    (w : World) (l : loc) (sock : MultiplexedSocket) :
  2 ≤ k ≤ 29 →
  fits StreamID_serialize uint30_serialize sidB payload →
  sockets w !! l = Some sock →
  let a := fresh (dom (atomics w)) in
  let b := fresh (dom (<[a := 0]> (atomics w))) in
  let p := fresh (dom (chunks w)) in
  a ≠ b
  ∧ (A ← TCPStream_on_socket (Some l) sidA;
     B ← TCPStream_on_socket (Some l) sidB;
     close (2 ^ k) (S fuel) A;;
     send (2 ^ k) StreamID_serialize uint30_serialize B payload reliability)
      w
    = Returns tt
        (mkWorld (<[a := 2 ^ k]> (<[b := 0]> (<[a := 0]> (atomics w))))
           (<[p := wire_frame StreamID_serialize uint30_serialize sidB
                              payload]> (chunks w))
           (<[l := mkSocket (mState sock) (delete sidA (mCallbacks sock))
                     (mNextStreamID sock)
                     (mPending sock
                        ++ [mkRawRequest sidB
                              (reliability_flags reliability).1
                              (reliability_flags reliability).2 p])
                     (mControl sock ++ [CLOSE_STREAM sidA])]> (sockets w))
           (silog w)).
Proof.
  intros Hk Hfits Hsock a b p.
  destruct (WordFacts.at_rest k Hk)
    as (HK & Hrange & Hfirst & Hadd & Hexit & _ & Hopen & _).
  assert (Hab : a ≠ b).
  { intros Heq. apply (is_fresh (dom (<[a := 0]> (atomics w)))).
    fold b. rewrite <- Heq. apply elem_of_dom. rewrite lookup_insert_eq.
    by eexists. }
  split; [exact Hab|].
  rewrite bind_unfold. unfold TCPStream_on_socket at 1.
  rewrite bind_unfold. unfold new_AtomicValue at 1. fold a.
  rewrite ret_unfold, bind_unfold. unfold TCPStream_on_socket.
  rewrite bind_unfold. unfold new_AtomicValue. cbn [atomics set_atomics].
  fold b. rewrite ret_unfold, bind_unfold.
  erewrite (RunFacts.close_run (2 ^ k) fuel _ _ 0 l sock);
    [| cbn; rewrite lookup_insert_ne by (intros E; by apply Hab);
       apply lookup_insert_eq
     | reflexivity | exact Hsock | by rewrite Hfirst, Hadd].
  rewrite Hfirst, Hadd.
  erewrite (RunFacts.send_run_open (2 ^ k) _ _
              (mkTCPStream (Some l) sidB b) payload reliability _ 0 l);
    [| exact Hfits
     | cbn; rewrite lookup_insert_ne by exact Hab; apply lookup_insert_eq
     | unfold Int32.in_range; lia | exact Hopen | reflexivity
     | cbn; apply lookup_insert_eq].
  cbn. fold p. f_equal. f_equal. by rewrite insert_insert_eq.
Qed.

(** The instance for streams 1 and 3 on a connected socket in a world without
    any word yet. *)
Lemma close_leaves_sibling_stream_open_witness :
  (A ← TCPStream_on_socket (Some 0%nat) 1%N;
   B ← TCPStream_on_socket (Some 0%nat) 3%N;
   close Examples.K29 1 A;;
   Examples.send1 B Examples.hello ReliableOrdered)
    (mkWorld ∅ ∅ {[0%nat := Examples.connected_socket]} [])
  = Returns tt
      (mkWorld {[0%nat := Examples.K29; 1%nat := 0]}
         {[0%nat := [Byte.x0c; Byte.x06; Byte.x68; Byte.x65; Byte.x6c;
                     Byte.x6c; Byte.x6f]]}
         {[0%nat := mkSocket Connected ∅ 3%N
                      [mkRawRequest 3%N false false 0%nat]
                      [CLOSE_STREAM 1%N]]} []).
Proof.
  etransitivity.
  - apply (close_leaves_sibling_stream_open 29 0 Varint.StreamID_serialize
             Varint.uint30_serialize 1%N 3%N Examples.hello ReliableOrdered
             (mkWorld ∅ ∅ {[0%nat := Examples.connected_socket]} [])
             0%nat Examples.connected_socket).
    + lia.
    + split; vm_compute; lia.
    + reflexivity.
  - vm_compute. reflexivity.
Defined.

(** [connect] re-opens a closed handle: line 136 puts the word back to 0,
    so after [close] and then [connect] a [send] is handed over again, to
    the socket that [connect] constructed, on stream id 1, and that socket
    has the stream's callbacks under id 1 with the stream's own word.  The
    closed socket keeps its CLOSE_STREAM frame and gets no request. *)
Theorem connect_reopens_closed_handle
    (k : Z) (fuel : nat)
    (constructed_socket : nat → MultiplexedSocket)
    (socket_connect : nat → nat → MultiplexedSocket → MultiplexedSocket)
    (StreamID_serialize : StreamID → list byte)
    (uint30_serialize : Z → list byte)
    (this : TCPStream) (addy substreamCallback cc bc : nat)
    (payload : list byte) (reliability : StreamReliability)
    (w : World) (l : loc) (sock : MultiplexedSocket) :
  2 ≤ k ≤ 29 →
  fits StreamID_serialize uint30_serialize 1%N payload →
  atomics w !! mSendStatus this = Some 0 →
  mSocket this = Some l →
  sockets w !! l = Some sock →
  let l' := fresh (dom (sockets w)) in
  let p := fresh (dom (chunks w)) in
  let fresh_socket := constructed_socket substreamCallback in
  l' ≠ l
  ∧ (close (2 ^ k) (S fuel) this;;
     this' ← connect constructed_socket socket_connect this addy
                     substreamCallback cc bc;
     send (2 ^ k) StreamID_serialize uint30_serialize this' payload
          reliability) w
    = Returns tt
        (mkWorld (atomics w)
           (<[p := wire_frame StreamID_serialize uint30_serialize 1%N
                              payload]> (chunks w))
           (<[l' := with_request
                      (socket_connect addy 3%nat
                         (mkSocket (mState fresh_socket)
                            (<[1%N := mkCallbacks cc bc (mSendStatus this)]>
                               (mCallbacks fresh_socket))
                            (mNextStreamID fresh_socket)
                            (mPending fresh_socket)
                            (mControl fresh_socket)))
                      (mkRawRequest 1%N (reliability_flags reliability).1
                         (reliability_flags reliability).2 p)]>
              (<[l := mkSocket (mState sock)
                        (delete (mID this) (mCallbacks sock))
                        (mNextStreamID sock) (mPending sock)
                        (mControl sock ++ [CLOSE_STREAM (mID this)])]>
                 (sockets w)))
           (silog w)).
Proof.
  intros Hk Hfits Hword Hl Hsock l' p fresh_socket.
  destruct (WordFacts.at_rest k Hk)
    as (HK & Hrange & Hfirst & Hadd & Hexit & _ & Hopen & _).
  assert (Hll : l' ≠ l).
  { intros Heq. apply (is_fresh (dom (sockets w))). fold l'. rewrite Heq.
    apply elem_of_dom. by eexists. }
  split; [exact Hll|].
  rewrite bind_unfold.
  rewrite (RunFacts.close_run (2 ^ k) fuel this w 0 l sock Hword Hl Hsock)
    by (by rewrite Hfirst, Hadd).
  rewrite Hfirst, Hadd. rewrite bind_unfold.
  (* connect *)
  unfold connect. rewrite bind_unfold. unfold construct at 1.
  cbn [sockets set_sockets].
  rewrite (dom_insert_lookup_L (sockets w) l) by (by eexists). fold l'.
  rewrite bind_unfold. unfold atomic_store.
  cbn [atomics set_sockets mSendStatus]. rewrite lookup_insert_eq.
  rewrite bind_unfold. unfold addCallbacks, deref_socket, getID.
  rewrite bind_unfold. cbn [mSocket sockets set_sockets set_atomics mID].
  rewrite lookup_insert_eq. rewrite bind_unfold.
  unfold store_socket at 1. rewrite ret_unfold.
  rewrite bind_unfold. cbn [sockets set_sockets]. rewrite lookup_insert_eq.
  rewrite bind_unfold. unfold store_socket. rewrite ret_unfold.
  (* send *)
  erewrite (RunFacts.send_run_open (2 ^ k) _ _
              (mkTCPStream (Some l') 1%N (mSendStatus this)) payload
              reliability _ 0 l');
    [| exact Hfits | cbn; apply lookup_insert_eq
     | unfold Int32.in_range; lia | exact Hopen | reflexivity
     | cbn; apply lookup_insert_eq].
  cbn. fold p. f_equal. f_equal.
  - rewrite insert_insert_eq. by apply insert_id.
  - by rewrite !insert_insert_eq.
Qed.

(** The instance for stream 1: the word, closed, is open again after
    [connect] and "hello" reaches the new socket. *)
Lemma connect_reopens_closed_handle_witness :
  (close Examples.K29 1 Examples.stream1;;
   this' ← connect (λ _, mkSocket Unconnected ∅ 3%N [] [])
                   (λ _ _ s, mkSocket Connecting (mCallbacks s)
                               (mNextStreamID s) (mPending s) (mControl s))
                   Examples.stream1 9 7 5 6;
   Examples.send1 this' Examples.hello ReliableOrdered)
    (Examples.world_with Examples.connected_socket 0)
  = Returns tt
      (mkWorld {[0%nat := 0]}
         {[0%nat := [Byte.x0c; Byte.x02; Byte.x68; Byte.x65; Byte.x6c;
                     Byte.x6c; Byte.x6f]]}
         {[0%nat := mkSocket Connected ∅ 3%N [] [CLOSE_STREAM 1%N];
           1%nat := mkSocket Connecting {[1%N := mkCallbacks 5 6 0%nat]} 3%N
                      [mkRawRequest 1%N false false 0%nat] []]} []).
Proof.
  etransitivity.
  - apply (connect_reopens_closed_handle 29 0
             (λ _, mkSocket Unconnected ∅ 3%N [] [])
             (λ _ _ s, mkSocket Connecting (mCallbacks s)
                         (mNextStreamID s) (mPending s) (mControl s))
             Varint.StreamID_serialize Varint.uint30_serialize
             Examples.stream1 9 7 5 6 Examples.hello ReliableOrdered
             (Examples.world_with Examples.connected_socket 0)
             0%nat Examples.connected_socket).
    + lia.
    + split; vm_compute; lia.
    + reflexivity.
    + reflexivity.
    + reflexivity.
  - vm_compute. reflexivity.
Defined.

(** Whatever the word holds, [send] ends with the word as it found it and
    the chunk it allocated either handed to the socket (no closer seen: one
    new chunk, one new request pointing to it, nothing logged) or freed
    again (closer seen: heap and sockets as before, one log entry); never
    both, never neither. *)
Theorem send_hands_over_or_frees
    (SendStatusClosing : Z)
    (StreamID_serialize : StreamID → list byte)
    (uint30_serialize : Z → list byte)
    (this : TCPStream) (payload : list byte) (reliability : StreamReliability)
    (w : World) (v : Z) (l : loc) (sock : MultiplexedSocket) :
  fits StreamID_serialize uint30_serialize (mID this) payload →
  atomics w !! mSendStatus this = Some v →
  Int32.in_range v →
  mSocket this = Some l →
  sockets w !! l = Some sock →
  ∃ w' : World,
    send SendStatusClosing StreamID_serialize uint30_serialize this payload
         reliability w = Returns tt w'
    ∧ atomics w' = atomics w
    ∧ ((SendStatus.sender_may_write SendStatusClosing
          (SendStatus.pre_increment v) = true
        ∧ ∃ p, chunks w !! p = None
               ∧ chunks w'
                 = <[p := wire_frame StreamID_serialize uint30_serialize
                                     (mID this) payload]> (chunks w)
               ∧ (∃ toBeSent, data toBeSent = p
                    ∧ sockets w'
                      = <[l := with_request sock toBeSent]> (sockets w))
               ∧ silog w' = silog w)
       ∨ (SendStatus.sender_may_write SendStatusClosing
            (SendStatus.pre_increment v) = false
          ∧ chunks w' = chunks w
          ∧ sockets w' = sockets w
          ∧ silog w' = silog w ++ [closed_stream_entry this])).
Proof.
  intros Hfits Hword Hrange Hl Hsock.
  destruct (SendStatus.sender_may_write SendStatusClosing
              (SendStatus.pre_increment v)) eqn:Htest.
  - eexists. split.
    { apply (RunFacts.send_run_open SendStatusClosing _ _ this payload
               reliability w v l sock); assumption. }
    split; [reflexivity|]. left. split; [reflexivity|].
    exists (fresh (dom (chunks w))).
    split; [apply SendClaims.fresh_chunk_unused|]. split; [reflexivity|].
    split; [|reflexivity]. eexists. split; [|reflexivity]. reflexivity.
  - eexists. split.
    { apply (RunFacts.send_run_closing SendStatusClosing _ _ this payload
               reliability w v); assumption. }
    split; [reflexivity|]. right. repeat split.
Qed.

(** The instance for "hello" on stream 1 with the word at 0. *)
Lemma send_hands_over_or_frees_witness :
  ∃ w' : World,
    Examples.send1 Examples.stream1 Examples.hello ReliableOrdered
      (Examples.world_with Examples.connected_socket 0) = Returns tt w'
    ∧ atomics w' = {[0%nat := 0]}.
Proof.
  destruct (send_hands_over_or_frees Examples.K29 Varint.StreamID_serialize
              Varint.uint30_serialize Examples.stream1 Examples.hello
              ReliableOrdered
              (Examples.world_with Examples.connected_socket 0) 0 0%nat
              Examples.connected_socket) as (w' & Hrun & Hword & _).
  - split; vm_compute; lia.
  - reflexivity.
  - unfold Int32.in_range. lia.
  - reflexivity.
  - reflexivity.
  - exists w'. split; [exact Hrun|exact Hword].
Defined.

End StreamSequences.

(** ** Senders and closers interleaved: what the closer's return means *)

Module DrainFacts.
Import Interleaving InterleavingMore InterleavingFacts.

Lemma tally_ge_elem f l i t :
  (∀ t, 0 ≤ f t) → l !! i = Some t → f t ≤ tally f l.
Proof.
  intros Hf. revert i. induction l as [|x l IH]; intros i; [done|].
  destruct i as [|i]; simpl.
  - intros [= ->]. pose proof (tally_nonneg f l Hf). lia.
  - intros Hi. specialize (IH i Hi). specialize (Hf x). lia.
Qed.

Lemma tally_pos_elem f l :
  (∀ t, 0 ≤ f t) → 0 < tally f l → ∃ i t, l !! i = Some t ∧ 0 < f t.
Proof.
  intros Hf. induction l as [|x l IH]; simpl; [lia|]. intros Hpos.
  destruct (Z.lt_ge_cases 0 (f x)) as [Hx|Hx].
  - by exists 0%nat, x.
  - specialize (Hf x). destruct IH as (i & t & Hi & Ht); [lia|].
    by exists (S i), t.
Qed.

Lemma snapshot_mono K (c c' : Config) (least v : Z) :
  tally has_added (threads c) ≤ tally has_added (threads c') →
  snapshot K c least v → snapshot K c' least v.
Proof.
  intros Hle (m & n & -> & Hm & Hn). exists m, n. repeat split; lia.
Qed.

Section Preservation2.
Variable k : Z.
Hypothesis k_range : 2 ≤ k ≤ 29.
Local Abbreviation K := (2 ^ k).

(** The word shows closers only: then no sender is in flight. *)
Lemma closers_only_drained (m n : Z) :
  0 ≤ m ≤ 3 → 0 ≤ n ≤ 2 →
  SendStatus.keep_spinning K (K * m + n) = false → n = 0 ∧ 1 ≤ m.
Proof.
  intros Hm Hn Hexit. pose proof (K_bounds k k_range) as HK.
  apply CloseClaims.keep_spinning_false in Hexit.
  unfold TCPStreamModel.closers_only in Hexit.
  assert (m = 0 ∨ m = 1 ∨ m = 2 ∨ m = 3) as [->|[->|[->| ->]]] by lia;
    destruct Hexit as [H|[H|H]]; lia.
Qed.

Lemma drained_exits (m : Z) :
  1 ≤ m ≤ 3 → SendStatus.keep_spinning K (K * m + 0) = false.
Proof.
  intros Hm. apply CloseClaims.keep_spinning_false.
  unfold TCPStreamModel.closers_only.
  assert (m = 1 ∨ m = 2 ∨ m = 3) as [->|[->| ->]] by lia; lia.
Qed.

Lemma Inv2_sender_step (c : Config) (tid : nat) (s s' : Sender)
    (sh' : Shared) :
  Inv K c → Inv2 K c →
  threads c !! tid = Some (SendCall s) →
  sender_step K tid s (shared c) = Some (s', sh') →
  Inv2 K (mkConfig (<[tid := SendCall s']> (threads c)) sh').
Proof.
  intros HInv HInv2 Ht Hstep.
  pose proof (Inv_sender_step k k_range c tid s s' sh' HInv Ht Hstep)
    as HInv'.
  pose proof (Inv_bounds k _ HInv) as [Hm Hn].
  pose proof (Inv_bounds k _ HInv') as [Hm' Hn']. simpl in Hm', Hn'.
  pose proof (K_bounds k k_range) as HK.
  assert (Hlook := lookup_insert_thread (threads c) tid).
  pose proof (tally_insert has_added _ _ _ (SendCall s') Ht) as Hadd.
  pose proof (tally_insert in_flight _ _ _ (SendCall s') Ht) as Hfl.
  simpl in Hadd.
  assert (Hmono : tally has_added (threads c)
                  ≤ tally has_added (<[tid := SendCall s']> (threads c)))
    by lia.
  destruct HInv2 as [Hsnd Hcls Hpast Hfrozen].
  (* the value thread [tid] holds if it is at line 93 after the step *)
  assert (Hmine : spc s' = L93 →
            s_sendStatus s' = K * tally has_added (threads c)
                              + (tally in_flight (threads c) + 1)
            ∧ 1 ≤ tally in_flight (threads c) + 1 ≤ 2).
  { unfold sender_step in Hstep. destruct s as [pc v d]; simpl in *.
    destruct pc; simpl in *;
      try destruct (SendStatus.sender_may_write K v);
      try discriminate; injection Hstep as <- <-; simpl;
      intros Hpc; try discriminate Hpc.
    all: simpl in Hfl; (split; [|lia]).
    all: unfold SendStatus.pre_increment; rewrite (inv_word _ _ HInv).
    all: rewrite Int32Facts.wrap_id; [lia|]; unfold Int32.in_range; nia. }
  assert (Hclosers :
    ∀ i cl, <[tid := SendCall s']> (threads c) !! i = Some (CloseCall cl) →
            threads c !! i = Some (CloseCall cl)).
  { intros i cl. rewrite (Hlook i _ _ Ht).
    destruct (decide (i = tid)); [done|by eauto]. }
  split; simpl.
  - intros i s0. rewrite (Hlook i _ _ Ht).
    destruct (decide (i = tid)) as [->|Hne].
    + intros [= <-] Hpc. destruct (Hmine Hpc) as [-> Hrange].
      eexists _, _. split; [reflexivity|]. simpl. lia.
    + intros Hi Hpc. eapply snapshot_mono; [exact Hmono|]. by eapply Hsnd.
  - intros i cl Hi Hpc. eapply snapshot_mono; [exact Hmono|].
    eapply Hcls; [by apply Hclosers|done].
  - intros i cl Hi Hpc.
    pose proof (Hpast i cl (Hclosers _ _ Hi) Hpc). lia.
  - intros (j & cl & Hj & Hdone) i s0.
    simpl in Hj.
    assert (Hret : closer_returned c) by (exists j, cl; eauto).
    simpl. rewrite (Hlook i _ _ Ht).
    destruct (decide (i = tid)) as [->|Hne].
    + intros [= <-] Hpc. destruct (Hmine Hpc) as [-> Hrange].
      rewrite sender_may_write_spec by (exact k_range || lia).
      pose proof (Hpast j cl (Hclosers _ _ Hj) (or_intror Hdone)).
      apply Z.eqb_neq. lia.
    + intros Hi Hpc. by eapply (Hfrozen Hret).
Qed.
End Preservation2.

Section Preservation2Closer.
Variable k : Z.
Hypothesis k_range : 2 ≤ k ≤ 29.
Local Abbreviation K := (2 ^ k).

Lemma Inv2_closer_step (c : Config) (tid : nat) (cl cl' : Closer)
    (sh' : Shared) :
  Inv K c → Inv2 K c →
  threads c !! tid = Some (CloseCall cl) →
  closer_step K cl (shared c) = Some (cl', sh') →
  Inv2 K (mkConfig (<[tid := CloseCall cl']> (threads c)) sh').
Proof.
  intros HInv HInv2 Ht Hstep.
  pose proof (Inv_bounds k _ HInv) as [Hm Hn].
  pose proof (K_bounds k k_range) as HK.
  assert (Hlook := lookup_insert_thread (threads c) tid).
  pose proof (tally_insert has_added _ _ _ (CloseCall cl') Ht) as Hadd.
  destruct HInv2 as [Hsnd Hcls Hpast Hfrozen].
  assert (Hsenders :
    ∀ i s0, <[tid := CloseCall cl']> (threads c) !! i = Some (SendCall s0) →
            threads c !! i = Some (SendCall s0)).
  { intros i s0. rewrite (Hlook i _ _ Ht).
    destruct (decide (i = tid)); [done|by eauto]. }
  (* the parts that only need the count of closers not to drop *)
  assert (Hkeep :
    tally has_added (threads c)
    ≤ tally has_added (<[tid := CloseCall cl']> (threads c)) →
    (∀ i s0, <[tid := CloseCall cl']> (threads c) !! i = Some (SendCall s0) →
             spc s0 = L93 →
             snapshot K (mkConfig (<[tid := CloseCall cl']> (threads c)) sh')
                      1 (s_sendStatus s0))
    ∧ (∀ i cl0, i ≠ tid →
         <[tid := CloseCall cl']> (threads c) !! i = Some (CloseCall cl0) →
         (cpc cl0 = L109 →
          snapshot K (mkConfig (<[tid := CloseCall cl']> (threads c)) sh')
                   0 (c_sendStatus cl0))
         ∧ (cpc cl0 = L115 ∨ cpc cl0 = CloseDone →
            1 ≤ tally has_added (<[tid := CloseCall cl']> (threads c))))
    ∧ (closer_returned c →
       no_writer K (mkConfig (<[tid := CloseCall cl']> (threads c)) sh'))).
  { intros Hmono. split; [|split].
    - intros i s0 Hi Hpc. eapply snapshot_mono; [exact Hmono|].
      eapply Hsnd; [by apply Hsenders|done].
    - intros i cl0 Hne. rewrite list_lookup_insert_ne by done.
      intros Hi. split; intros Hpc.
      + eapply snapshot_mono; [exact Hmono|]. by eapply Hcls.
      + pose proof (Hpast i cl0 Hi Hpc). lia.
    - intros Hret i s0 Hi Hpc. simpl in Hi.
      by eapply (Hfrozen Hret i s0 (Hsenders _ _ Hi)). }
  (* a closer that does not return in this step *)
  assert (Hsame :
    cpc cl' ≠ CloseDone →
    closer_returned (mkConfig (<[tid := CloseCall cl']> (threads c)) sh') →
    closer_returned c).
  { intros Hpc (j & cl0 & Hj & Hdone). simpl in Hj.
    rewrite (Hlook j _ _ Ht) in Hj.
    destruct (decide (j = tid)) as [->|Hne].
    - injection Hj as <-. done.
    - by exists j, cl0. }
  unfold closer_step in Hstep.
  destruct cl as [pc v b]; simpl in *.
  destruct pc; simpl in *.
  - (* line 107 *)
    injection Hstep as <- <-. simpl in *.
    destruct Hkeep as (H1 & H2 & H3); [lia|].
    split; simpl; [exact H1| | |].
    + intros i cl0 Hi Hpc. destruct (decide (i = tid)) as [->|Hne].
      * rewrite (Hlook tid _ _ Ht), decide_True in Hi by done.
        injection Hi as <-. simpl.
        exists (tally has_added (threads c)), (tally in_flight (threads c)).
        split; [apply HInv|]. simpl. lia.
      * by apply (H2 i cl0 Hne Hi).
    + intros i cl0 Hi Hpc. destruct (decide (i = tid)) as [->|Hne].
      * rewrite (Hlook tid _ _ Ht), decide_True in Hi by done.
        injection Hi as <-. simpl in Hpc. by destruct Hpc.
      * by apply (H2 i cl0 Hne Hi).
    + intros Hret. apply H3, Hsame; [done|exact Hret].
  - (* line 109 *)
    assert (b = false) as ->
      by (eapply (inv_closer_fresh _ _ HInv tid _ Ht); by right).
    destruct (SendStatus.no_closer_seen K v) eqn:Hseen;
      injection Hstep as <- <-; simpl in *.
    + destruct Hkeep as (H1 & H2 & H3); [lia|].
      split; simpl; [exact H1| | |].
      * intros i cl0 Hi Hpc. destruct (decide (i = tid)) as [->|Hne].
        -- rewrite (Hlook tid _ _ Ht), decide_True in Hi by done.
           by injection Hi as <-.
        -- by apply (H2 i cl0 Hne Hi).
      * intros i cl0 Hi Hpc. destruct (decide (i = tid)) as [->|Hne].
        -- lia.
        -- by apply (H2 i cl0 Hne Hi).
      * intros Hret. apply H3, Hsame; [done|exact Hret].
    + destruct Hkeep as (H1 & H2 & H3); [lia|].
      split; simpl; [exact H1| | |].
      * intros i cl0 Hi Hpc. destruct (decide (i = tid)) as [->|Hne].
        -- rewrite (Hlook tid _ _ Ht), decide_True in Hi by done.
           by injection Hi as <-.
        -- by apply (H2 i cl0 Hne Hi).
      * intros i cl0 Hi Hpc. destruct (decide (i = tid)) as [->|Hne].
        -- destruct (Hcls tid _ Ht eq_refl) as (m & n & Hv & Hm' & Hn').
           simpl in Hv. subst v.
           rewrite no_closer_seen_spec in Hseen by (exact k_range || lia).
           apply Z.eqb_neq in Hseen. lia.
        -- by apply (H2 i cl0 Hne Hi).
      * intros Hret. apply H3, Hsame; [done|exact Hret].
  - (* line 115 *)
    pose proof (Hpast tid _ Ht (or_introl eq_refl)) as Hone.
    destruct (SendStatus.keep_spinning K (word (shared c))) eqn:Hspin;
      injection Hstep as <- <-; simpl in *.
    + destruct Hkeep as (H1 & H2 & H3); [lia|].
      split; simpl; [exact H1| | |].
      * intros i cl0 Hi Hpc. destruct (decide (i = tid)) as [->|Hne].
        -- rewrite (Hlook tid _ _ Ht), decide_True in Hi by done.
           by injection Hi as <-.
        -- by apply (H2 i cl0 Hne Hi).
      * intros i cl0 Hi Hpc. destruct (decide (i = tid)) as [->|Hne].
        -- lia.
        -- by apply (H2 i cl0 Hne Hi).
      * intros Hret. apply H3, Hsame; [done|exact Hret].
    + destruct Hkeep as (H1 & H2 & H3); [lia|].
      split; simpl; [exact H1| | |].
      * intros i cl0 Hi Hpc. destruct (decide (i = tid)) as [->|Hne].
        -- rewrite (Hlook tid _ _ Ht), decide_True in Hi by done.
           by injection Hi as <-.
        -- by apply (H2 i cl0 Hne Hi).
      * intros i cl0 Hi Hpc. destruct (decide (i = tid)) as [->|Hne].
        -- lia.
        -- by apply (H2 i cl0 Hne Hi).
      * (* the closer returns: the word showed no sender *)
        intros _ i s0 Hi Hpc. simpl in Hi. apply Hsenders in Hi.
        rewrite (inv_word _ _ HInv) in Hspin.
        apply closers_only_drained in Hspin as [Hzero _];
          [|exact k_range|lia|lia].
        pose proof (tally_ge_elem in_flight _ _ _
                      (λ t, proj1 (in_flight_range t)) Hi) as Hle.
        simpl in Hle. rewrite Hpc in Hle. lia.
  - discriminate.
Qed.

Lemma Inv2_initial (senders closers : nat) :
  Inv2 K (initial senders closers).
Proof.
  unfold initial. split; simpl.
  - intros i s Hi Hpc.
    apply list_elem_of_lookup_2, elem_of_app in Hi as [Hi|Hi];
      apply elem_of_replicate in Hi as [Hi _]; by inversion Hi; subst.
  - intros i cl Hi Hpc.
    apply list_elem_of_lookup_2, elem_of_app in Hi as [Hi|Hi];
      apply elem_of_replicate in Hi as [Hi _]; by inversion Hi; subst.
  - intros i cl Hi Hpc.
    apply list_elem_of_lookup_2, elem_of_app in Hi as [Hi|Hi];
      apply elem_of_replicate in Hi as [Hi _]; inversion Hi; subst.
    by destruct Hpc.
  - intros (i & cl & Hi & Hpc). simpl in Hi.
    apply list_elem_of_lookup_2, elem_of_app in Hi as [Hi|Hi];
      apply elem_of_replicate in Hi as [Hi _]; by inversion Hi; subst.
Qed.

Lemma Invs_step (c c' : Config) :
  Inv K c ∧ Inv2 K c → step K c c' → Inv K c' ∧ Inv2 K c'.
Proof.
  intros [HInv HInv2] Hstep.
  split; [by eapply Inv_step|].
  destruct Hstep as (tid & t & t' & sh' & Ht & Hstep & ->).
  destruct t as [s|cl]; simpl in Hstep.
  - destruct (sender_step K tid s (shared c)) as [[s' sh'']|] eqn:E;
      [|discriminate].
    injection Hstep as <- <-. by eapply Inv2_sender_step.
  - destruct (closer_step K cl (shared c)) as [[cl' sh'']|] eqn:E;
      [|discriminate].
    injection Hstep as <- <-. by eapply Inv2_closer_step.
Qed.

Lemma Invs_reachable (senders closers : nat) (c : Config) :
  (senders ≤ 2)%nat → (closers ≤ 3)%nat →
  rtc (step K) (initial senders closers) c → Inv K c ∧ Inv2 K c.
Proof.
  intros Hs Hc Hreach.
  assert (Hgen : ∀ c0 c1, rtc (step K) c0 c1 →
                          Inv K c0 ∧ Inv2 K c0 → Inv K c1 ∧ Inv2 K c1).
  { induction 1 as [|c0 c1 c2 Hstep _ IH]; [done|].
    intros H0. apply IH. by eapply Invs_step. }
  apply (Hgen _ _ Hreach). split.
  - by apply Inv_initial.
  - apply Inv2_initial.
Qed.
End Preservation2Closer.

(** *** Who owns the chunk *)

Lemma Owned_initial (senders closers : nat) :
  Owned (initial senders closers).
Proof.
  unfold initial. split; simpl.
  - intros i Hi. by apply elem_of_nil in Hi.
  - intros i Hi. by apply elem_of_nil in Hi.
  - intros i s Hi Hd.
    apply list_elem_of_lookup_2, elem_of_app in Hi as [Hi|Hi];
      apply elem_of_replicate in Hi as [Hi _]; by inversion Hi; subst.
  - intros i s Hi Hpc.
    apply list_elem_of_lookup_2, elem_of_app in Hi as [Hi|Hi];
      apply elem_of_replicate in Hi as [Hi _]; by inversion Hi; subst.
  - apply NoDup_nil_2.
  - apply NoDup_nil_2.
Qed.

Lemma Owned_step (K : Z) (c c' : Config) :
  Owned c → step K c c' → Owned c'.
Proof.
  intros [Hh Hd Hs Hf Hnh Hnd] (tid & t & t' & sh' & Ht & Hstep & ->).
  assert (Hlook := lookup_insert_thread (threads c) tid).
  destruct t as [s|cl]; simpl in Hstep.
  - destruct (sender_step K tid s (shared c)) as [[s' sh'']|] eqn:E;
      [|discriminate].
    injection Hstep as <- <-.
    unfold sender_step in E. destruct s as [pc v d]; simpl in E.
    assert (Hmine_h : tid ∈ handed (shared c) →
                      d = true ∧ pc ≠ L92 ∧ pc ≠ L93).
    { intros Hin. destruct (Hh tid Hin) as (s0 & Hs0 & ? & ? & ?).
      rewrite Ht in Hs0. injection Hs0 as <-. done. }
    assert (Hmine_d : tid ∈ deleted (shared c) → d = false ∧ pc = SendDone).
    { intros Hin. destruct (Hd tid Hin) as (s0 & Hs0 & ? & ?).
      rewrite Ht in Hs0. injection Hs0 as <-. done. }
    pose proof (Hs tid _ Ht) as Hmine_s. simpl in Hmine_s.
    pose proof (Hf tid _ Ht) as Hmine_f. simpl in Hmine_f.
    destruct pc; simpl in E;
      [ | destruct (SendStatus.sender_may_write K v) | | destruct d; simpl in E | ];
      try discriminate; injection E as <- <-; split; simpl.
    all: try exact Hnh; try exact Hnd.
    all: try (apply NoDup_app; split; [assumption|];
              split; [|apply NoDup_singleton];
              intros x Hx ->%list_elem_of_singleton;
              first [ destruct (Hmine_h Hx) as (? & ? & ?)
                    | destruct (Hmine_d Hx) as (? & ?) ]; congruence).
    all: try (intros i Hi; rewrite (Hlook i _ _ Ht);
              try (apply elem_of_app in Hi as [Hi|Hi%list_elem_of_singleton]);
              destruct (decide (i = tid)) as [->|Hne];
              first [ congruence | apply Hh; exact Hi | apply Hd; exact Hi
                    | eexists; split; [reflexivity|]; simpl;
                      first [ destruct (Hmine_h Hi) as (? & ? & ?)
                            | destruct (Hmine_d Hi) as (? & ?)
                            | idtac ];
                      repeat split; congruence ]).
    all: intros i s0; rewrite (Hlook i _ _ Ht);
         destruct (decide (i = tid)) as [->|Hne];
         [ intros [= <-]; simpl; intros;
           rewrite ?elem_of_app, ?list_elem_of_singleton;
           first [ congruence | by right
                 | apply Hmine_s; congruence | apply Hmine_f; congruence ]
         | intros; rewrite ?elem_of_app;
           first [ eapply Hs; eassumption | eapply Hf; eassumption
                 | left; eapply Hs; eassumption
                 | left; eapply Hf; eassumption ] ].
  - destruct (closer_step K cl (shared c)) as [[cl' sh'']|] eqn:E;
      [|discriminate].
    injection Hstep as <- <-.
    assert (Hsh : handed sh'' = handed (shared c)
                  ∧ deleted sh'' = deleted (shared c)).
    { unfold closer_step in E. destruct (cpc cl);
        try destruct (SendStatus.no_closer_seen K _);
        try destruct (SendStatus.keep_spinning K _);
        try discriminate; by injection E as <- <-. }
    destruct Hsh as [Hsh1 Hsh2].
    split; simpl; rewrite ?Hsh1, ?Hsh2; try assumption.
    + intros i Hi. destruct (Hh i Hi) as (s0 & Hs0 & Hrest).
      exists s0. split; [|exact Hrest]. rewrite (Hlook i _ _ Ht).
      destruct (decide (i = tid)) as [->|Hne]; [congruence|exact Hs0].
    + intros i Hi. destruct (Hd i Hi) as (s0 & Hs0 & Hrest).
      exists s0. split; [|exact Hrest]. rewrite (Hlook i _ _ Ht).
      destruct (decide (i = tid)) as [->|Hne]; [congruence|exact Hs0].
    + intros i s0. rewrite (Hlook i _ _ Ht).
      destruct (decide (i = tid)) as [->|Hne]; [discriminate|apply Hs].
    + intros i s0. rewrite (Hlook i _ _ Ht).
      destruct (decide (i = tid)) as [->|Hne]; [discriminate|apply Hf].
Qed.

Lemma Owned_reachable (K : Z) (senders closers : nat) (c : Config) :
  rtc (step K) (initial senders closers) c → Owned c.
Proof.
  intros Hreach.
  assert (Hgen : ∀ c0 c1, rtc (step K) c0 c1 → Owned c0 → Owned c1).
  { induction 1 as [|c0 c1 c2 Hstep _ IH]; [done|].
    intros H0. apply IH. by eapply Owned_step. }
  apply (Hgen _ _ Hreach), Owned_initial.
Qed.

(** *** After a closer has returned *)

Lemma frozen_step (K : Z) (c c' : Config) :
  Inv2 K c → closer_returned c → step K c c' →
  handed (shared c') = handed (shared c) ∧ closer_returned c'.
Proof.
  intros HInv2 Hret (tid & t & t' & sh' & Ht & Hstep & ->).
  assert (Hlook := lookup_insert_thread (threads c) tid).
  split; simpl.
  - destruct t as [s|cl]; simpl in Hstep.
    + destruct (sender_step K tid s (shared c)) as [[s' sh'']|] eqn:E;
        [|discriminate].
      injection Hstep as <- <-.
      unfold sender_step in E. destruct s as [pc v d]; simpl in E.
      destruct pc; simpl in E.
      * by injection E as <- <-.
      * pose proof (inv2_frozen _ _ HInv2 Hret tid _ Ht eq_refl) as Hno.
        simpl in Hno. rewrite Hno in E. by injection E as <- <-.
      * by injection E as <- <-.
      * destruct d; simpl in E; by injection E as <- <-.
      * discriminate.
    + destruct (closer_step K cl (shared c)) as [[cl' sh'']|] eqn:E;
        [|discriminate].
      injection Hstep as <- <-.
      unfold closer_step in E. destruct (cpc cl);
        try destruct (SendStatus.no_closer_seen K _);
        try destruct (SendStatus.keep_spinning K _);
        try discriminate; by injection E as <- <-.
  - destruct Hret as (j & cl & Hj & Hdone). exists j, cl.
    split; [|exact Hdone]. simpl. rewrite (Hlook j _ _ Ht).
    destruct (decide (j = tid)) as [->|Hne]; [|exact Hj].
    rewrite Hj in Ht. injection Ht as <-. simpl in Hstep.
    unfold closer_step in Hstep. rewrite Hdone in Hstep. discriminate.
Qed.

(** A call of [closeSendStatus] leaves its loop (line 115) only when the
    word shows closers and nothing else: at that moment no call of [send]
    is between its increment (line 92) and its decrement (line 98), and
    the step itself writes nothing. *)
Theorem closer_returns_only_when_drained
    (k : Z) (senders closers : nat) (c c' : Config) (i : nat)
    (cl cl' : Closer) :
  2 ≤ k ≤ 29 →
  (senders ≤ 2)%nat →
  (closers ≤ 3)%nat →
  rtc (step (2 ^ k)) (initial senders closers) c →
  step_of (2 ^ k) i c c' →
  threads c !! i = Some (CloseCall cl) →
  threads c' !! i = Some (CloseCall cl') →
  cpc cl' = CloseDone →
  cpc cl = L115
  ∧ tally in_flight (threads c) = 0
  ∧ 1 ≤ tally has_added (threads c) ≤ 3
  ∧ word (shared c) = 2 ^ k * tally has_added (threads c)
  ∧ shared c' = shared c.
Proof.
  intros Hk Hs Hc Hreach (t & t' & sh' & Ht & Hstep & ->) Hi Hi' Hdone.
  destruct (Invs_reachable k Hk senders closers c Hs Hc Hreach)
    as [HInv HInv2].
  pose proof (Inv_bounds k _ HInv) as [Hm Hn].
  rewrite Hi in Ht. injection Ht as <-. simpl in Hstep, Hi'.
  rewrite list_lookup_insert_eq in Hi' by (by eapply lookup_lt_Some).
  destruct (closer_step (2 ^ k) cl (shared c)) as [[cl'' sh'']|] eqn:E;
    [|discriminate].
  injection Hstep as <- <-. injection Hi' as ->.
  unfold closer_step in E. destruct cl as [pc v b]; simpl in E.
  destruct pc; simpl in E.
  - injection E as <- <-. discriminate Hdone.
  - destruct (SendStatus.no_closer_seen (2 ^ k) v);
      injection E as <- <-; discriminate Hdone.
  - destruct (SendStatus.keep_spinning (2 ^ k) (word (shared c))) eqn:Hspin;
      injection E as <- <-; [discriminate Hdone|].
    rewrite (inv_word _ _ HInv) in Hspin.
    apply closers_only_drained in Hspin as [Hz Hone];
      [|exact Hk|exact Hm|exact Hn].
    simpl. split; [reflexivity|]. split; [exact Hz|]. split; [lia|].
    split; [|reflexivity]. rewrite (inv_word _ _ HInv), Hz. lia.
  - discriminate.
Qed.

(** The instance: closer 2 has taken the slot while no sender runs, and
    returns at its next step. *)
Lemma closer_returns_only_when_drained_witness :
  tally in_flight (threads Examples.slot_taken) = 0
  ∧ word (shared Examples.slot_taken)
    = 2 ^ 29 * tally has_added (threads Examples.slot_taken).
Proof.
  destruct (closer_returns_only_when_drained 29 2 3 Examples.slot_taken
              (run (2 ^ 29) [2%nat] Examples.slot_taken) 2
              (mkCloser L115 0 true) (mkCloser CloseDone (2 ^ 29) true))
    as (_ & Hz & _ & Hw & _).
  - lia.
  - lia.
  - lia.
  - apply run_reachable.
  - eexists _, _, _. split; [vm_compute; reflexivity|].
    split; vm_compute; reflexivity.
  - vm_compute. reflexivity.
  - vm_compute. reflexivity.
  - reflexivity.
  - split; [exact Hz|exact Hw].
Defined.

(** Once some call of [closeSendStatus] has returned, no call of [send]
    hands a request to the socket any more, whatever runs next (the comment
    above [closeSendStatus]: no outstanding sends are being made and no
    further ones will be made). *)
Theorem no_send_after_a_closer_returned
    (k : Z) (senders closers : nat) (c c' : Config) :
  2 ≤ k ≤ 29 →
  (senders ≤ 2)%nat →
  (closers ≤ 3)%nat →
  rtc (step (2 ^ k)) (initial senders closers) c →
  closer_returned c →
  rtc (step (2 ^ k)) c c' →
  handed (shared c') = handed (shared c).
Proof.
  intros Hk Hs Hc Hreach Hret Hrest.
  destruct (Invs_reachable k Hk senders closers c Hs Hc Hreach)
    as [HInv HInv2].
  assert (Hgen : ∀ c0 c1, rtc (step (2 ^ k)) c0 c1 →
            Inv (2 ^ k) c0 → Inv2 (2 ^ k) c0 → closer_returned c0 →
            handed (shared c1) = handed (shared c0)).
  { induction 1 as [|c0 c1 c2 Hstep _ IH]; [done|].
    intros H0 H1 H2.
    destruct (frozen_step _ _ _ H1 H2 Hstep) as [Heq Hret1].
    destruct (Invs_step k Hk c0 c1 (conj H0 H1) Hstep) as [H0' H1'].
    rewrite <- Heq. by apply IH. }
  by apply (Hgen _ _ Hrest).
Qed.

(** The instance: closer 2 has returned before any sender started; when
    all five calls have returned nothing was handed to the socket. *)
Lemma no_send_after_a_closer_returned_witness :
  handed (shared
    (run (2 ^ 29)
       [0; 1; 3; 0; 1; 4; 0; 1; 3; 0; 1; 4; 3; 4]%nat
       (run (2 ^ 29) [2%nat] Examples.slot_taken)))
  = handed (shared (run (2 ^ 29) [2%nat] Examples.slot_taken)).
Proof.
  apply (no_send_after_a_closer_returned 29 2 3).
  - lia.
  - lia.
  - lia.
  - eapply rtc_trans; apply run_reachable.
  - exists 2%nat, (mkCloser CloseDone (2 ^ 29) true).
    split; [vm_compute; reflexivity|reflexivity].
  - apply run_reachable.
Defined.

(** *** A sender that comes before every closer *)

Lemma Early_step (K : Z) (i : nat) (c c' : Config) :
  Early K i c → step K c c' → Early K i c'.
Proof.
  intros (s & Hs & Hcase) (tid & t & t' & sh' & Ht & Hstep & ->).
  unfold Early. simpl.
  destruct (decide (tid = i)) as [->|Hne].
  - rewrite Hs in Ht. injection Ht as <-. simpl in Hstep.
    rewrite list_lookup_insert_eq by (by eapply lookup_lt_Some).
    unfold sender_step in Hstep. destruct s as [pc v d]; simpl in *.
    destruct Hcase as [[-> Hw]|[Hpc [-> Hin]]].
    + rewrite Hw in Hstep. injection Hstep as <- <-.
      eexists. split; [reflexivity|]. right. simpl.
      split; [by left|]. split; [done|].
      apply elem_of_app. right. by apply list_elem_of_singleton.
    + destruct Hpc as [->|[->| ->]]; simpl in Hstep; [| |discriminate];
        injection Hstep as <- <-; eexists; (split; [reflexivity|]);
        right; simpl; (split; [auto|]); done.
  - rewrite list_lookup_insert_ne by exact Hne. exists s. split; [done|].
    destruct Hcase as [Hc|(Hpc & Hd & Hin)]; [by left|].
    right. split; [done|]. split; [done|].
    destruct t as [s0|cl]; simpl in Hstep.
    + unfold sender_step in Hstep.
      destruct s0 as [pc0 v0 d0]; simpl in Hstep.
      destruct pc0; simpl in Hstep;
        try destruct (SendStatus.sender_may_write K v0);
        try destruct d0; simpl in Hstep; try discriminate;
        injection Hstep as <- <-; simpl; try done.
      all: apply elem_of_app; by left.
    + unfold closer_step in Hstep.
      destruct cl as [pc0 v0 b0]; simpl in Hstep.
      destruct pc0; simpl in Hstep;
        try destruct (SendStatus.no_closer_seen K v0);
        try destruct (SendStatus.keep_spinning K (word (shared c)));
        simpl in Hstep; try discriminate;
        by injection Hstep as <- <-.
Qed.

Lemma Early_reachable (K : Z) (i : nat) (c c' : Config) :
  Early K i c → rtc (step K) c c' → Early K i c'.
Proof.
  intros HEarly Hsteps. induction Hsteps as [|c c1 c2 Hstep _ IH];
    [exact HEarly|]. apply IH. by eapply Early_step.
Qed.

(** A call of [send] that increments the word (line 92) while no closer has
    added [SendStatusClosing] is never dropped: whatever runs next, once it
    is past the test of line 93 its request is with the socket, [didsend]
    is set and its chunk is not deleted. *)
Theorem sender_before_any_closer_is_sent
    (k : Z) (senders closers : nat) (c c1 c2 : Config) (i : nat)
    (s : Sender) :
  2 ≤ k ≤ 29 →
  (senders ≤ 2)%nat →
  (closers ≤ 3)%nat →
  rtc (step (2 ^ k)) (initial senders closers) c →
  threads c !! i = Some (SendCall s) →
  spc s = L92 →
  tally has_added (threads c) = 0 →
  step_of (2 ^ k) i c c1 →
  rtc (step (2 ^ k)) c1 c2 →
  ∃ s2, threads c2 !! i = Some (SendCall s2)
        ∧ spc s2 ≠ L92
        ∧ (spc s2 ≠ L93 →
           didsend s2 = true
           ∧ i ∈ handed (shared c2)
           ∧ i ∉ deleted (shared c2)).
Proof.
  intros Hk Hs Hc Hreach Hi Hpc Hnone Hstep Hrest.
  destruct (Invs_reachable k Hk senders closers c Hs Hc Hreach)
    as [HInv HInv2].
  pose proof (Inv_bounds k c HInv) as [Hm Hn].
  pose proof (K_bounds k Hk) as HK.
  assert (Hreach2 : rtc (step (2 ^ k)) (initial senders closers) c2).
  { eapply rtc_trans; [exact Hreach|].
    eapply rtc_l; [by exists i|exact Hrest]. }
  pose proof (Owned_reachable _ _ _ _ Hreach2) as HOwned.
  assert (HEarly : Early (2 ^ k) i c1).
  { destruct Hstep as (t & t' & sh' & Ht & Hstep & ->).
    rewrite Hi in Ht. injection Ht as <-. simpl in Hstep.
    unfold sender_step in Hstep. rewrite Hpc in Hstep. simpl in Hstep.
    injection Hstep as <- <-.
    exists (mkSender L93 (SendStatus.pre_increment (word (shared c)))
                     (didsend s)).
    simpl. split.
    { apply list_lookup_insert_eq. by eapply lookup_lt_Some. }
    left. split; [reflexivity|].
    rewrite (inv_word _ _ HInv), Hnone.
    pose proof (tally_insert in_flight _ _ _
                  (SendCall (mkSender L93 0 false)) Hi) as Hfl.
    pose proof (tally_insert is_sender _ _ _
                  (SendCall (mkSender L93 0 false)) Hi) as Hiss.
    pose proof (tally_le in_flight is_sender
                  (<[i := SendCall (mkSender L93 0 false)]> (threads c))
                  (λ t, proj2 (in_flight_range t))) as Hle.
    pose proof (inv_senders _ _ HInv) as Hs2.
    destruct s as [pc v d]. simpl in *. subst pc. simpl in *.
    unfold SendStatus.pre_increment.
    rewrite Int32Facts.wrap_id by (unfold Int32.in_range; nia).
    rewrite <- Z.add_assoc.
    rewrite sender_may_write_spec by (exact Hk || lia).
    reflexivity. }
  destruct (Early_reachable _ _ _ _ HEarly Hrest) as (s2 & Hs2 & Hcase).
  exists s2. split; [exact Hs2|].
  destruct Hcase as [[Hat _]|(Hpast & Hd & Hin)].
  - split; [congruence|]. intros Hne. congruence.
  - split; [destruct Hpast as [?|[?|?]]; congruence|].
    intros _. split; [exact Hd|]. split; [exact Hin|].
    intros Hdel. destruct (own_deleted _ HOwned i Hdel) as (s3 & Hs3 & Hd3 & _).
    congruence.
Qed.

(** The instance: sender 0 increments first of all; when all five calls
    have returned its request is with the socket. *)
Lemma sender_before_any_closer_is_sent_witness :
  ∃ s2,
    threads (run (2 ^ 29)
               [2; 2; 0; 1; 3; 0; 1; 4; 0; 1; 3; 1; 4; 2; 3; 4; 2; 3; 4]%nat
               (run (2 ^ 29) [0%nat] (initial 2 3))) !! 0%nat
    = Some (SendCall s2)
    ∧ spc s2 ≠ L92
    ∧ (spc s2 ≠ L93 →
       didsend s2 = true
       ∧ 0%nat ∈ handed (shared
           (run (2 ^ 29)
              [2; 2; 0; 1; 3; 0; 1; 4; 0; 1; 3; 1; 4; 2; 3; 4; 2; 3; 4]%nat
              (run (2 ^ 29) [0%nat] (initial 2 3))))
       ∧ 0%nat ∉ deleted (shared
           (run (2 ^ 29)
              [2; 2; 0; 1; 3; 0; 1; 4; 0; 1; 3; 1; 4; 2; 3; 4; 2; 3; 4]%nat
              (run (2 ^ 29) [0%nat] (initial 2 3))))).
Proof.
  apply (sender_before_any_closer_is_sent 29 2 3 (initial 2 3)
           (run (2 ^ 29) [0%nat] (initial 2 3)) _ 0%nat
           (mkSender L92 0 false)).
  - lia.
  - lia.
  - lia.
  - apply rtc_refl.
  - reflexivity.
  - reflexivity.
  - reflexivity.
  - eexists _, _, _. split; [vm_compute; reflexivity|].
    split; vm_compute; reflexivity.
  - apply run_reachable.
Defined.

(** In every interleaving of calls of [send] and [closeSendStatus] on one
    stream, for any value of [SendStatusClosing]: a call of [send] that has
    returned has either handed its request to the socket (line 94) or
    deleted its chunk (line 101), never both and never twice. *)
Theorem returned_send_handed_or_freed_once
    (K : Z) (senders closers : nat) (c : Config) :
  rtc (step K) (initial senders closers) c →
  NoDup (handed (shared c))
  ∧ NoDup (deleted (shared c))
  ∧ (∀ i, i ∈ handed (shared c) → i ∉ deleted (shared c))
  ∧ (∀ i s, threads c !! i = Some (SendCall s) → spc s = SendDone →
            (i ∈ handed (shared c)) ∨ (i ∈ deleted (shared c))).
Proof.
  intros Hreach. pose proof (Owned_reachable _ _ _ _ Hreach) as HOwned.
  split; [apply HOwned|]. split; [apply HOwned|]. split.
  - intros i Hin Hdel.
    destruct (own_handed _ HOwned i Hin) as (s1 & Hs1 & Hd1 & _).
    destruct (own_deleted _ HOwned i Hdel) as (s2 & Hs2 & Hd2 & _).
    congruence.
  - intros i s Hi Hpc. destruct (didsend s) eqn:Hd.
    + left. by eapply (own_sent _ HOwned).
    + right. by eapply (own_freed _ HOwned).
Qed.

(** The instance: the run of [Examples] in which both senders come after
    closer 2. *)
Lemma returned_send_handed_or_freed_once_witness :
  NoDup (handed (shared Examples.all_returned))
  ∧ NoDup (deleted (shared Examples.all_returned))
  ∧ (∀ i, i ∈ handed (shared Examples.all_returned) →
          i ∉ deleted (shared Examples.all_returned))
  ∧ (∀ i s, threads Examples.all_returned !! i = Some (SendCall s) →
            spc s = SendDone →
            (i ∈ handed (shared Examples.all_returned))
            ∨ (i ∈ deleted (shared Examples.all_returned))).
Proof.
  apply (returned_send_handed_or_freed_once Examples.K29 2 3).
  unfold Examples.all_returned, Examples.late_increment, Examples.slot_taken.
  eapply rtc_trans; [|apply run_reachable].
  eapply rtc_trans; [|apply run_reachable].
  apply run_reachable.
Defined.

(** *** The loop of [closeSendStatus] can always end *)

Lemma tally_zero_all f l :
  (∀ t, 0 ≤ f t) → tally f l = 0 → Forall (λ t, f t = 0) l.
Proof.
  intros Hf. induction l as [|x l IH]; simpl; [constructor|].
  intros Hz. pose proof (Hf x). pose proof (tally_nonneg f l Hf).
  constructor; [lia|apply IH; lia].
Qed.

Lemma remaining_nonneg t : 0 ≤ remaining t.
Proof. destruct t as [[[] ? ?]|[[] ? ?]]; simpl; lia. Qed.

Lemma sender_remaining_range t :
  0 ≤ in_flight t ≤ sender_remaining t ∧ sender_remaining t ≤ remaining t.
Proof. destruct t as [[[] ? ?]|[[] ? ?]]; simpl; lia. Qed.

Lemma sender_advances (K : Z) (tid : nat) (s : Sender) (sh : Shared) :
  spc s ≠ SendDone →
  ∃ s' sh', sender_step K tid s sh = Some (s', sh')
            ∧ remaining (SendCall s') = remaining (SendCall s) - 1.
Proof.
  destruct s as [pc v d]. unfold sender_step. simpl.
  destruct pc; intros Hpc; try done.
  - eexists _, _. split; [reflexivity|done].
  - destruct (SendStatus.sender_may_write K v);
      eexists _, _; (split; [reflexivity|done]).
  - eexists _, _. split; [reflexivity|done].
  - eexists _, _. split; [reflexivity|done].
Qed.

Lemma senders_can_finish (K : Z) (n : nat) (c : Config) :
  tally sender_remaining (threads c) = Z.of_nat n →
  ∃ c', rtc (step K) c c' ∧ tally sender_remaining (threads c') = 0.
Proof.
  revert c. induction n as [|n IH]; intros c Hn.
  - exists c. split; [apply rtc_refl|lia].
  - destruct (tally_pos_elem sender_remaining (threads c))
      as (i & t & Hi & Ht).
    { intros t. pose proof (sender_remaining_range t). lia. }
    { lia. }
    destruct t as [s|cl]; [|simpl in Ht; lia].
    destruct (sender_advances K i s (shared c)) as (s' & sh' & Hstep & Hrem).
    { intros Hpc. simpl in Ht. rewrite Hpc in Ht. lia. }
    destruct (IH (mkConfig (<[i := SendCall s']> (threads c)) sh'))
      as (c' & Hrtc & Hz).
    { simpl. rewrite (tally_insert _ _ _ _ _ Hi).
      change (sender_remaining (SendCall s')) with (remaining (SendCall s')).
      change (sender_remaining (SendCall s)) with (remaining (SendCall s)).
      lia. }
    exists c'. split; [|exact Hz].
    eapply rtc_l; [|exact Hrtc].
    exists i, (SendCall s), (SendCall s'), sh'.
    split; [exact Hi|]. split; [|reflexivity]. simpl. by rewrite Hstep.
Qed.

Section Termination.
Variable k : Z.
Hypothesis k_range : 2 ≤ k ≤ 29.
Local Abbreviation K := (2 ^ k).

Lemma closer_advances (c : Config) (i : nat) (cl : Closer) :
  Inv K c → Inv2 K c →
  tally sender_remaining (threads c) = 0 →
  threads c !! i = Some (CloseCall cl) →
  cpc cl ≠ CloseDone →
  ∃ cl' sh', closer_step K cl (shared c) = Some (cl', sh')
             ∧ remaining (CloseCall cl') = remaining (CloseCall cl) - 1.
Proof.
  intros HInv HInv2 Hs Hi Hpc.
  pose proof (Inv_bounds k _ HInv) as [Hm Hn].
  destruct cl as [pc v b]. unfold closer_step. simpl in *.
  destruct pc; try done.
  - eexists _, _. split; [reflexivity|done].
  - destruct (SendStatus.no_closer_seen K v);
      eexists _, _; (split; [reflexivity|done]).
  - assert (Hz : tally in_flight (threads c) = 0).
    { pose proof (tally_le in_flight sender_remaining (threads c)
                    (λ t, proj2 (proj1 (sender_remaining_range t)))).
      lia. }
    pose proof (inv2_past _ _ HInv2 i _ Hi (or_introl eq_refl)) as Hone.
    rewrite (inv_word _ _ HInv), Hz.
    rewrite (drained_exits k) by lia.
    eexists _, _. split; [reflexivity|done].
Qed.

Lemma closers_can_finish (n : nat) (c : Config) :
  Inv K c → Inv2 K c →
  tally sender_remaining (threads c) = 0 →
  tally remaining (threads c) = Z.of_nat n →
  ∃ c', rtc (step K) c c' ∧ tally remaining (threads c') = 0.
Proof.
  revert c. induction n as [|n IH]; intros c HInv HInv2 Hs Hn.
  - exists c. split; [apply rtc_refl|lia].
  - destruct (tally_pos_elem remaining (threads c)) as (i & t & Hi & Ht).
    { apply remaining_nonneg. }
    { lia. }
    destruct t as [s|cl].
    { pose proof (tally_ge_elem sender_remaining _ _ _
                    (λ t, Z.le_trans _ _ _
                            (proj1 (proj1 (sender_remaining_range t)))
                            (proj2 (proj1 (sender_remaining_range t))))
                    Hi) as Hle.
      change (sender_remaining (SendCall s)) with (remaining (SendCall s))
        in Hle.
      lia. }
    destruct (closer_advances c i cl HInv HInv2 Hs Hi)
      as (cl' & sh' & Hstep & Hrem).
    { intros Hpc. simpl in Ht. rewrite Hpc in Ht. lia. }
    assert (Hstep' : step K c (mkConfig (<[i := CloseCall cl']> (threads c))
                                        sh')).
    { exists i, (CloseCall cl), (CloseCall cl'), sh'.
      split; [exact Hi|]. split; [|reflexivity]. simpl. by rewrite Hstep. }
    destruct (Invs_step k k_range _ _ (conj HInv HInv2) Hstep')
      as [HInv' HInv2'].
    destruct (IH _ HInv' HInv2') as (c' & Hrtc & Hz).
    { simpl. rewrite (tally_insert _ _ _ _ _ Hi). simpl. lia. }
    { simpl. rewrite (tally_insert _ _ _ _ _ Hi). lia. }
    exists c'. split; [|exact Hz]. eapply rtc_l; [exact Hstep'|exact Hrtc].
Qed.
End Termination.

(** The loop of [closeSendStatus] (lines 115-117) is no trap: from every
    state that calls of [send] and [closeSendStatus] can reach, some
    continuation lets every call return (the senders run to their
    decrement, after which each closer reads a word made of closers
    only). *)
Theorem every_call_can_return
    (k : Z) (senders closers : nat) (c : Config) :
  2 ≤ k ≤ 29 →
  (senders ≤ 2)%nat →
  (closers ≤ 3)%nat →
  rtc (step (2 ^ k)) (initial senders closers) c →
  ∃ c', rtc (step (2 ^ k)) c c'
        ∧ Forall (λ t, returned t = true) (threads c').
Proof.
  intros Hk Hs Hc Hreach.
  destruct (senders_can_finish (2 ^ k)
              (Z.to_nat (tally sender_remaining (threads c))) c)
    as (c1 & Hrtc1 & Hz1).
  { pose proof (tally_nonneg sender_remaining (threads c)
                  (λ t, Z.le_trans _ _ _
                          (proj1 (proj1 (sender_remaining_range t)))
                          (proj2 (proj1 (sender_remaining_range t))))).
    lia. }
  destruct (Invs_reachable k Hk senders closers c1 Hs Hc)
    as [HInv HInv2].
  { eapply rtc_trans; [exact Hreach|exact Hrtc1]. }
  destruct (closers_can_finish k Hk
              (Z.to_nat (tally remaining (threads c1))) c1 HInv HInv2 Hz1)
    as (c2 & Hrtc2 & Hz2).
  { pose proof (tally_nonneg remaining (threads c1) remaining_nonneg). lia. }
  exists c2. split; [eapply rtc_trans; [exact Hrtc1|exact Hrtc2]|].
  eapply Forall_impl; [apply (tally_zero_all remaining _ remaining_nonneg Hz2)|].
  intros [[[] ? ?]|[[] ? ?]]; simpl; intros; (done || lia).
Qed.

(** The instance: from the state in which closer 2 has taken the slot. *)
Lemma every_call_can_return_witness :
  ∃ c', rtc (step (2 ^ 29)) Examples.slot_taken c'
        ∧ Forall (λ t, returned t = true) (threads c').
Proof.
  apply (every_call_can_return 29 2 3).
  - lia.
  - lia.
  - lia.
  - apply run_reachable.
Defined.

(** *** Why no more than three closers *)

(** The comment of line 93 (a maximum of three entities can close the
    stream at once) is a real bound: when four calls of [closeSendStatus]
    read the word before any of them adds, all four add, the word is
    [4*SendStatusClosing], whose closing field is zero; a call of [send]
    that comes after that hands its request to the socket, and no closer
    can leave its loop at that word. *)
Theorem four_closers_let_a_sender_through (k : Z) :
  2 ≤ k ≤ 28 →
  tally has_added
    (threads (run (2 ^ k) four_closers_then_send (initial 1 4))) = 4
  ∧ handed (shared (run (2 ^ k) four_closers_then_send (initial 1 4)))
    = [0%nat]
  ∧ word (shared (run (2 ^ k) four_closers_then_send (initial 1 4)))
    = 4 * 2 ^ k
  ∧ SendStatus.keep_spinning (2 ^ k)
      (word (shared (run (2 ^ k) four_closers_then_send (initial 1 4))))
    = true.
Proof.
  intros Hk.
  assert (Hcases : ∃ n : nat, (n ≤ 26)%nat ∧ k = Z.of_nat n + 2).
  { exists (Z.to_nat (k - 2)). lia. }
  destruct Hcases as (n & Hn & ->).
  (* one evaluation for each of the 27 exponents *)
  do 27 (destruct n as [|n]; [vm_compute; repeat split; reflexivity|]).
  lia.
Qed.

(** The instance for [SendStatusClosing = 4]. *)
Lemma four_closers_let_a_sender_through_witness :
  handed (shared (run (2 ^ 2) four_closers_then_send (initial 1 4)))
  = [0%nat].
Proof.
  destruct (four_closers_let_a_sender_through 2) as (_ & Hhanded & _).
  - lia.
  - exact Hhanded.
Defined.

End DrainFacts.

(** ** [IOServiceFactory]: services made and destroyed *)

Module FactoryFacts.
Import IOServiceFactory.

(** As long as the singleton has not been asked for, [destroyIOService]
    undoes [makeIOService]: the service made is a new object, different
    from the static one, and destroying it deletes it and nothing else, so
    the statics and the heap are as before. *)
Theorem make_then_destroy_before_singleton (st : Statics) :
  called_io_service st = false →
  ((makeIOService st).2 ∉ live st)
  ∧ (makeIOService st).2 ≠ the_io
  ∧ (makeIOService st).2 ∈ live (makeIOService st).1
  ∧ destroyIOService (makeIOService st).2 (makeIOService st).1
    = (st, Deleted).
Proof.
  intros Hcalled. destruct st as [once called ptr lv]. simpl in *. subst.
  pose proof (is_fresh ({[the_io]} ∪ lv)) as Hfresh.
  split; [|split; [|split]].
  - intros Hin. apply Hfresh. apply elem_of_union. by right.
  - intros Heq. apply Hfresh. apply elem_of_union. left.
    by apply elem_of_singleton.
  - apply elem_of_union. left. by apply elem_of_singleton.
  - unfold destroyIOService. simpl. f_equal. f_equal.
    apply set_eq. intros x.
    rewrite elem_of_difference, elem_of_union, !elem_of_singleton.
    split.
    + intros [[->|Hx] Hne]; [done|exact Hx].
    + intros Hx. split; [by right|].
      intros ->. apply Hfresh. apply elem_of_union. by right.
Qed.

(** The instance: the first service of a program. *)
Lemma make_then_destroy_before_singleton_witness :
  destroyIOService (makeIOService startup).2 (makeIOService startup).1
  = (startup, Deleted).
Proof.
  destruct (make_then_destroy_before_singleton startup) as (_ & _ & _ & H).
  - reflexivity.
  - exact H.
Defined.

End FactoryFacts.
